(** * RepoStack-AI: retrieval and answer-grounding pipeline

    A shallow embedding of [server/index.js]: the budgeted file selector
    [fetchRepoTreeAndFiles] and the answer validator inlined in the
    [/api/walkthrough] handler, followed by the properties proved about them.

    Conventions of the embedding.
    - A JavaScript string is a sequence of code units; the model keeps the
      code units below 256 ([ascii]).  Text algorithms work on [list ascii],
      record fields and JSON values hold [string].
    - Integers that the code only adds and compares are [Z]; the blended
      ranking score is an IEEE-754 binary64 number, as in JavaScript
      ([PrimFloat.float]).
    - Network collaborators (GitHub, the model provider) are oracles passed
      as arguments; a request that throws is [None].
    - What ECMAScript leaves to the implementation, the order in which
      [Array.prototype.sort] leaves an array when the comparator is not
      consistent, is an oracle as well ([Engine]). *)

From Stdlib Require Import ZArith NArith Bool List String Ascii Lia Floats Uint63.
From Stdlib Require Import Sorted Permutation.
From stdpp Require Import gmap strings.
Import ListNotations.

Local Open Scope string_scope.
Local Open Scope list_scope.
Local Open Scope Z_scope.

(** ** JavaScript string built-ins used by the server *)

Module Js.

Definition code (c : ascii) : N := N_of_ascii c.

Definition in_range (lo hi : N) (c : ascii) : bool :=
  ((lo <=? code c) && (code c <=? hi))%N.

Definition is_upper (c : ascii) : bool := in_range 65 90 c.
Definition is_lower (c : ascii) : bool := in_range 97 122 c.
Definition is_digit (c : ascii) : bool := in_range 48 57 c.

(** [\w] is [[A-Za-z0-9_]]; [\W] is its complement. *)
Definition is_word (c : ascii) : bool :=
  is_upper c || is_lower c || is_digit c || (code c =? 95)%N.

(** White space and line terminators removed by [String.prototype.trim]
    (TAB, LF, VT, FF, CR, SP, NBSP among the code units below 256). *)
Definition is_space (c : ascii) : bool :=
  in_range 9 13 c || (code c =? 32)%N || (code c =? 160)%N.

(** The character class [[A-Za-z0-9_\-\.\/]] of the file-name pattern. *)
Definition is_pathish (c : ascii) : bool :=
  is_word c || (code c =? 45)%N || (code c =? 46)%N || (code c =? 47)%N.

Definition is_nl (c : ascii) : bool := (code c =? 10)%N.
Definition is_dot (c : ascii) : bool := (code c =? 46)%N.
Definition is_slash (c : ascii) : bool := (code c =? 47)%N.

(** [toLowerCase] on one code unit: A-Z, and the Latin-1 capitals
    U+00C0..U+00DE except the multiplication sign U+00D7. *)
Definition lower_char (c : ascii) : ascii :=
  if is_upper c || (in_range 192 222 c && negb (code c =? 215)%N)
  then ascii_of_N (code c + 32) else c.

Definition toLowerCase (s : list ascii) : list ascii := List.map lower_char s.

Definition ascii_eqb (a b : ascii) : bool := (code a =? code b)%N.

(** [s.startsWith(p)] *)
Fixpoint startsWith (p s : list ascii) : bool :=
  match p, s with
  | [], _ => true
  | _ :: _, [] => false
  | a :: p', b :: s' => ascii_eqb a b && startsWith p' s'
  end.

(** [s.endsWith(e)] *)
Definition endsWith (s e : list ascii) : bool := startsWith (rev e) (rev s).

(** [s.includes(u)] *)
Fixpoint includes (s u : list ascii) : bool :=
  startsWith u s ||
  match s with
  | [] => false
  | _ :: t => includes t u
  end.

(** [s.slice(0, n)] *)
Fixpoint slice0 (n : N) (s : list ascii) : list ascii :=
  match s with
  | [] => []
  | c :: t => if (n =? 0)%N then [] else c :: slice0 (N.pred n) t
  end.

Definition length (s : list ascii) : Z := Z.of_nat (List.length s).

(** [Buffer.byteLength(s, 'utf8')]: one byte below U+0080, two up to U+00FF. *)
Fixpoint byteLength (s : list ascii) : Z :=
  match s with
  | [] => 0
  | c :: t => (if (code c <? 128)%N then 1 else 2) + byteLength t
  end.

Definition cons_first (c : ascii) (ps : list (list ascii)) : list (list ascii) :=
  match ps with
  | [] => [[c]]
  | p :: ps' => (c :: p) :: ps'
  end.

(** [s.split(d)] for a one-character separator [d]. *)
Fixpoint split_char (d : ascii -> bool) (s : list ascii) : list (list ascii) :=
  match s with
  | [] => [[]]
  | c :: t => if d c then [] :: split_char d t else cons_first c (split_char d t)
  end.

(** [s.split(/\W+/)]: every maximal run of non-word characters is one
    separator; a separator at either end leaves an empty piece there. *)
Fixpoint split_nonword (s : list ascii) : list (list ascii) :=
  match s with
  | [] => [[]]
  | c :: t =>
      if is_word c then cons_first c (split_nonword t)
      else match t with
           | c' :: _ => if is_word c' then [] :: split_nonword t else split_nonword t
           | [] => [] :: split_nonword t
           end
  end.

(** [s.split(/\n\n+/)]: a separator is a maximal run of at least two line
    feeds.  [insep] holds while such a run is being consumed. *)
Fixpoint split_blank (insep : bool) (s : list ascii) : list (list ascii) :=
  match s with
  | [] => [[]]
  | c :: t =>
      if insep then
        if is_nl c then split_blank true t else cons_first c (split_blank false t)
      else
        match t with
        | c' :: _ =>
            if is_nl c && is_nl c' then [] :: split_blank true t
            else cons_first c (split_blank false t)
        | [] => cons_first c (split_blank false t)
        end
  end.

(** [ps.join(sep)] *)
Fixpoint join (sep : list ascii) (ps : list (list ascii)) : list ascii :=
  match ps with
  | [] => []
  | [p] => p
  | p :: ps' => p ++ sep ++ join sep ps'
  end.

Fixpoint trimStart (s : list ascii) : list ascii :=
  match s with
  | [] => []
  | c :: t => if is_space c then trimStart t else s
  end.

(** [s.trim()] *)
Definition trim (s : list ascii) : list ascii := rev (trimStart (rev (trimStart s))).

(** Number of matches of [new RegExp(k, 'g')] in [s] for a pattern [k] made
    of word characters only (a literal): left to right, each match resumes
    after the previous one.  [skip] counts the characters still covered by
    the last match. *)
Fixpoint count_matches (skip : nat) (k s : list ascii) : nat :=
  match s with
  | [] => 0%nat
  | _ :: t =>
      match skip with
      | S n => count_matches n k t
      | O => if startsWith k s then S (count_matches (List.length k - 1) k t)
             else count_matches 0 k t
      end
  end.

(** [s.replace(m, '')] with a string pattern: the first occurrence only. *)
Fixpoint remove_first (m s : list ascii) : list ascii :=
  if startsWith m s then skipn (List.length m) s
  else match s with
       | [] => []
       | c :: t => c :: remove_first m t
       end.

(** [s.indexOf(c)] and [s.lastIndexOf(c)] for one character; [None] is -1. *)
Fixpoint indexOf (d : ascii -> bool) (s : list ascii) : option nat :=
  match s with
  | [] => None
  | c :: t => if d c then Some O else option_map S (indexOf d t)
  end.

Definition lastIndexOf (d : ascii -> bool) (s : list ascii) : option nat :=
  option_map (fun i => (List.length s - 1 - i)%nat) (indexOf d (rev s)).

End Js.

(** String-level wrappers. *)
Definition chars (s : string) : list ascii := list_ascii_of_string s.
Definition str (l : list ascii) : string := string_of_list_ascii l.

Definition toLowerCase (s : string) : string := str (Js.toLowerCase (chars s)).
Definition includes (s u : string) : bool := Js.includes (chars s) (chars u).
Definition endsWith (s e : string) : bool := Js.endsWith (chars s) (chars e).
Definition trim (s : string) : string := str (Js.trim (chars s)).
Definition slice0 (n : N) (s : string) : string := str (Js.slice0 n (chars s)).
Definition byteLength (s : string) : Z := Js.byteLength (chars s).
Definition nonempty (s : string) : bool := negb (String.eqb s "").


(** ** The file-name pattern of the prose scrub

    [/[A-Za-z0-9_\-\.\/]+\.(?:js|jsx|ts|tsx|py|java|go|rb|php|rs|c|cpp|cs|json|md|html|css)/g]
    under the backtracking semantics of ECMAScript regular expressions. *)

(** The alternatives of the extension group, in the order of the pattern. *)
Definition extAlternatives : list string :=
  ["js"; "jsx"; "ts"; "tsx"; "py"; "java"; "go"; "rb"; "php"; "rs"; "c"; "cpp";
   "cs"; "json"; "md"; "html"; "css"].

(** The first alternative that matches at the head of [s]; its length. *)
Fixpoint first_alt (alts : list string) (s : list ascii) : option nat :=
  match alts with
  | [] => None
  | e :: r => if Js.startsWith (chars e) s then Some (String.length e) else first_alt r s
  end.

(** The rest of the pattern after at least one class character was taken:
    the greedy [+] first tries to take one more character and only then
    tries [\.] followed by an extension here.  The result is the number of
    characters matched from [s] on. *)
Fixpoint fileLike_rest (s : list ascii) : option nat :=
  match s with
  | [] => None
  | c :: t =>
      let here := if Js.is_dot c then option_map S (first_alt extAlternatives t) else None in
      if Js.is_pathish c then
        match fileLike_rest t with
        | Some n => Some (S n)
        | None => here
        end
      else here
  end.

(** A match starting at the head of [s]; its length. *)
Definition fileLike_at (s : list ascii) : option nat :=
  match s with
  | [] => None
  | c :: t => if Js.is_pathish c then option_map S (fileLike_rest t) else None
  end.

(** [s.match(fileLikeRegex)]: all matches, left to right, without overlap. *)
Fixpoint fileLike_scan (skip : nat) (s : list ascii) : list (list ascii) :=
  match s with
  | [] => []
  | _ :: t =>
      match skip with
      | S n => fileLike_scan n t
      | O => match fileLike_at s with
             | Some n => firstn n s :: fileLike_scan (n - 1) t
             | None => fileLike_scan 0 t
             end
      end
  end.

Definition fileLike_matches (s : list ascii) : list (list ascii) := fileLike_scan 0 s.

(** [Array.from(new Set(l))]: first occurrences, in order. *)
Fixpoint uniq (l : list (list ascii)) : list (list ascii) :=
  match l with
  | [] => []
  | x :: r => x :: List.filter (fun y => negb (bool_decide (y = x))) (uniq r)
  end.

(** [u.replace(/\.[^.]+$/, '')]: cut at the last dot when something follows it. *)
Fixpoint strip_ext (u : list ascii) : list ascii :=
  match u with
  | [] => []
  | c :: t =>
      if Js.is_dot c && negb (bool_decide (t = [])) && List.forallb (fun x => negb (Js.is_dot x)) t
      then [] else c :: strip_ext t
  end.

(** ** JSON values, as [JSON.parse] returns them *)

#[warnings="-register-all"]
Inductive Json : Type :=
| JNull
| JBool (b : bool)
| JNum (x : float)
| JStr (s : string)
| JArr (l : list Json)
| JObj (m : gmap string Json).

(** A JavaScript value read from a property: [None] is [undefined]. *)
Definition float_truthy (x : float) : bool :=
  negb (PrimFloat.eqb x 0) && PrimFloat.eqb x x.

Definition truthy (v : option Json) : bool :=
  match v with
  | None | Some JNull => false
  | Some (JBool b) => b
  | Some (JNum x) => float_truthy x
  | Some (JStr s) => nonempty s
  | Some (JArr _) | Some (JObj _) => true
  end.

Definition isArray (v : option Json) : bool :=
  match v with Some (JArr _) => true | _ => false end.

Definition elements (v : option Json) : list Json :=
  match v with Some (JArr l) => l | _ => [] end.

(** [v === true] *)
Definition is_true (v : option Json) : bool :=
  match v with Some (JBool true) => true | _ => false end.

(** [r.path]-style property read on an arbitrary value ([r] is not
    [null]/[undefined] where the code reads it): only objects carry the
    properties the code asks for. *)
Definition prop (r : Json) (k : string) : option Json :=
  match r with JObj m => m !! k | _ => None end.

(** ** Retrieval: data model of [fetchRepoTreeAndFiles] *)

Record TreeEntry := mkTreeEntry {
  t_path : string;
  t_type : string;
  t_size : option Z }.

Record Rules := mkRules {
  whitelist : list string;
  blacklist : list string }.

Record Opts := mkOpts {
  o_maxFiles : option Z;
  o_maxBytes : option Z }.

Record ScoredFile := mkScored {
  sf_path : string;
  sf_content : string;
  sf_bytes : Z;
  sf_score : Z;
  sf_semanticScore : option float;
  sf_finalScore : option float;
  sf_originalItem : TreeEntry }.

Inductive Num := NInt (z : Z) | NFloat (x : float).

(** An element of [result.files]: the ranked pass pushes all five fields, the
    manifest pass only [path] and [content]. *)
Record File := mkFile {
  f_path : string;
  f_content : string;
  f_truncated : option bool;
  f_bytes : option Z;
  f_score : option Num }.

Record RetrievalResult := mkResult {
  files : list File;
  totalBytes : Z }.

(** The GitHub REST collaborator.  [None] is a request that still fails after
    the retries of [axiosGetWithRetry]; for file contents it also covers a
    response whose [content] field is missing or empty, the case the test
    [fileRes.data && fileRes.data.content] rejects.  [Some text] is the
    decoding ([Buffer.from(...).toString('utf8')]) of a non-empty [content]
    field; the decoded text itself may be empty. *)
Record GitHub := mkGitHub {
  gh_repo : option (option string);            (* [data.default_branch] *)
  gh_tree : string -> option (list TreeEntry); (* [data.tree || []] of a branch *)
  gh_contents : string -> string -> option string;   (* path, ref *)
  gh_contents_root : string -> option string }.      (* path, no ref *)

(** [openai.embeddings.create]: one entry per input text, each the
    [embedding] of that entry ([None] when the entry has none); the whole
    call is [None] when it throws. *)
Definition Embedder := list string -> option (list (option (list float))).

(** ** Candidate filter and structural order *)

Definition exts : list string :=
  [".js"; ".ts"; ".jsx"; ".tsx"; ".py"; ".java"; ".go"; ".rs"; ".c"; ".cpp"; ".cs";
   ".rb"; ".php"; ".json"; ".md"; ".html"; ".css"].

Definition skipPatterns : list string :=
  ["node_modules/"; "vendor/"; "third_party/"; "site-packages/"; "dist/"; "build/";
   "coverage/"; ".pytest_cache/"; ".venv/"; "__pycache__/"; ".git/"].

Definition depFiles : list string := ["package.json"; "requirements.txt"; "pyproject.toml"].

(** [t.type === 'blob' && exts.some(e => t.path.endsWith(e))] *)
Definition is_candidate (t : TreeEntry) : bool :=
  String.eqb (t_type t) "blob" && List.existsb (endsWith (t_path t)) exts.

(** The callback of [candidates.filter]: whitelist, then blacklist, then the
    built-in skip list. *)
Definition passes_rules (rules : Rules) (t : TreeEntry) : bool :=
  if List.existsb (includes (t_path t)) (whitelist rules) then true
  else if List.existsb (includes (t_path t)) (blacklist rules) then false
  else negb (List.existsb (includes (t_path t)) skipPatterns).

(** [path.split('/').length] *)
Definition depth (path : string) : Z :=
  Z.of_nat (List.length (Js.split_char Js.is_slash (chars path))).

(** [x || y] on integers. *)
Definition or_else (x y : Z) : Z := if x =? 0 then y else x.

Definition size_or_0 (t : TreeEntry) : Z :=
  match t_size t with Some n => or_else n 0 | None => 0 end.

(** Comparator of [filteredCandidates.sort]. *)
Definition by_structure (a b : TreeEntry) : Z :=
  or_else (depth (t_path a) - depth (t_path b)) (size_or_0 b - size_or_0 a).

(** [Array.prototype.sort] is stable; for a comparator that is a total
    preorder its result is the one stably sorted permutation, computed here
    by insertion: an element goes before the first later element that does
    not have to precede it. *)
Fixpoint insert_by {A} (cmp : A -> A -> Z) (x : A) (l : list A) : list A :=
  match l with
  | [] => [x]
  | y :: r => if cmp x y <=? 0 then x :: l else y :: insert_by cmp x r
  end.

Fixpoint sort_by {A} (cmp : A -> A -> Z) (l : list A) : list A :=
  match l with
  | [] => []
  | x :: r => insert_by cmp x (sort_by cmp r)
  end.

Definition filteredCandidates (rules : Rules) (tree : list TreeEntry) : list TreeEntry :=
  sort_by by_structure
    (List.filter (passes_rules rules) (List.filter is_candidate tree)).

(** [filteredCandidates.slice(0, 500)] *)
Definition topCandidates (rules : Rules) (tree : list TreeEntry) : list TreeEntry :=
  firstn 500 (filteredCandidates rules tree).

(** ** Relevance scorer *)

Definition LF : ascii := ascii_of_N 10.

(** ['\n\n...TRUNCATED...'] *)
Definition MARKER : list ascii := LF :: LF :: chars "...TRUNCATED...".

(** [(question || '').toLowerCase().split(/\W+/).filter(w => w.length > 3)] *)
Definition keywords (question : string) : list (list ascii) :=
  List.filter (fun w => 3 <? Js.length w)
    (Js.split_nonword (Js.toLowerCase (chars question))).

(** [content.length > 100000 ? content.slice(0, 100000) + MARKER : content] *)
Definition truncate (content : list ascii) : list ascii :=
  if 100000 <? Js.length content then Js.slice0 100000 content ++ MARKER else content.

(** The two [for (const k of keywords)] loops, each as a fold over the
    running [score]. *)
Definition path_loop (kws : list (list ascii)) (pathLower : list ascii) (score : Z) : Z :=
  fold_left (fun s k => if Js.includes pathLower k then s + 10 else s) kws score.

Definition content_loop (kws : list (list ascii)) (contentLower : list ascii) (score : Z) : Z :=
  fold_left (fun s k => s + Z.min (Z.of_nat (Js.count_matches 0 k contentLower)) 20) kws score.

Definition relevance (kws : list (list ascii)) (path truncated : list ascii) : Z :=
  content_loop kws (Js.toLowerCase truncated) (path_loop kws (Js.toLowerCase path) 0).

Definition scored_of (kws : list (list ascii)) (item : TreeEntry) (content : string) : ScoredFile :=
  let truncated := truncate (chars content) in
  {| sf_path := t_path item;
     sf_content := str truncated;
     sf_bytes := Js.byteLength truncated;
     sf_score := relevance kws (chars (t_path item)) truncated;
     sf_semanticScore := None;
     sf_finalScore := None;
     sf_originalItem := item |}.

(** The scoring loop over [topCandidates].  [result] is the (still empty)
    result object whose counters the loop tests before each fetch.  The
    second component lists the paths for which [axiosGetWithRetry] was
    called (each call may issue several requests). *)
Fixpoint score_loop (fetch : string -> option string) (kws : list (list ascii))
    (maxFiles maxBytes : Z) (result : RetrievalResult)
    (items : list TreeEntry) (scoredFiles : list ScoredFile) (requested : list string)
    : list ScoredFile * list string :=
  match items with
  | [] => (scoredFiles, requested)
  | item :: rest =>
      if maxFiles <=? Z.of_nat (List.length (files result)) then (scoredFiles, requested)
      else if maxBytes <=? totalBytes result then (scoredFiles, requested)
      else
        let requested' := requested ++ [t_path item] in
        match fetch (t_path item) with
        | Some content =>
            score_loop fetch kws maxFiles maxBytes result rest
              (scoredFiles ++ [scored_of kws item content]) requested'
        | None => score_loop fetch kws maxFiles maxBytes result rest scoredFiles requested'
        end
  end.

(** ** Semantic re-ranker *)

Definition float_of_Z (z : Z) : float :=
  if z <? 0 then PrimFloat.opp (PrimFloat.of_uint63 (Uint63.of_Z (- z)))
  else PrimFloat.of_uint63 (Uint63.of_Z z).

(** [b[i]] on a vector: [undefined] (NaN under arithmetic) past the end. *)
Definition at_or_nan (b : list float) : float :=
  match b with x :: _ => x | [] => PrimFloat.nan end.

(** [function dot(a,b)]: the loop runs over the indices of [a], [s] is the
    running sum. *)
Fixpoint dot_loop (s : float) (a b : list float) : float :=
  match a with
  | [] => s
  | x :: a' => dot_loop (PrimFloat.add s (PrimFloat.mul x (at_or_nan b))) a' (List.tl b)
  end.

Definition dot (a b : list float) : float := dot_loop PrimFloat.zero a b.

(** [function norm(a)] *)
Definition norm (a : list float) : float := PrimFloat.sqrt (dot a a).

(** The cosine similarity computed inside [forEach]; [None] is the TypeError
    raised when the file has no vector and the question norm is not zero. *)
Definition similarity (qVec : list float) (qNorm : float) (fv : option (list float))
    : option float :=
  if PrimFloat.eqb qNorm PrimFloat.zero then Some PrimFloat.zero
  else match fv with
       | Some v => Some (PrimFloat.div (dot qVec v) (PrimFloat.mul qNorm (norm v)))
       | None => None
       end.

(** [f.semanticScore = sim; f.finalScore = (f.score || 0) * 0.2 + sim * 100] *)
#[warnings="-inexact-float"]
Definition blend_one (f : ScoredFile) (sim : float) : ScoredFile :=
  {| sf_path := sf_path f;
     sf_content := sf_content f;
     sf_bytes := sf_bytes f;
     sf_score := sf_score f;
     sf_semanticScore := Some sim;
     sf_finalScore :=
       Some (PrimFloat.add (PrimFloat.mul (float_of_Z (or_else (sf_score f) 0)) 0.2%float)
                           (PrimFloat.mul sim 100%float));
     sf_originalItem := sf_originalItem f |}.

(** [scoredFiles.forEach((f, idx) => ...)]: the files are updated in place,
    one after the other; the flag tells whether the callback threw, in which
    case the files from that index on are left as they were. *)
Fixpoint blend (qVec : list float) (qNorm : float) (fileVecs : list (option (list float)))
    (fs : list ScoredFile) : list ScoredFile * bool :=
  match fs with
  | [] => ([], false)
  | f :: rest =>
      match similarity qVec qNorm (mjoin (List.hd_error fileVecs)) with
      | None => (f :: rest, true)
      | Some sim =>
          let '(rest', threw) := blend qVec qNorm (List.tl fileVecs) rest in
          (blend_one f sim :: rest', threw)
      end
  end.

(** The body of the [try] block up to the sort: the array as the block left
    it, and whether the block threw. *)
Definition embed_and_blend (embed : Embedder) (question : string)
    (scoredFiles : list ScoredFile) : list ScoredFile * bool :=
  let texts := question :: List.map (fun f => slice0 2000 (sf_content f)) scoredFiles in
  match embed texts with
  | None => (scoredFiles, true)
  | Some vectors =>
      match mjoin (List.hd_error vectors) with
      | None => (scoredFiles, true)           (* [norm(undefined)] *)
      | Some qVec => blend qVec (norm qVec) (List.tl vectors) scoredFiles
      end
  end.

(** [(b.score - a.score) || (a.path.split('/').length - b.path.split('/').length)] *)
Definition by_score (a b : ScoredFile) : Z :=
  or_else (sf_score b - sf_score a) (depth (sf_path a) - depth (sf_path b)).

Definition final_or_nan (f : ScoredFile) : float :=
  match sf_finalScore f with Some x => x | None => PrimFloat.nan end.

(** [(b.finalScore - a.finalScore) || (depth a - depth b)]; only the sign of
    the result matters to [sort]. *)
Definition by_finalScore (a b : ScoredFile) : Z :=
  let d := PrimFloat.sub (final_or_nan b) (final_or_nan a) in
  if float_truthy d then (if PrimFloat.ltb PrimFloat.zero d then 1 else -1)
  else depth (sf_path a) - depth (sf_path b).

(** [cmp] is a consistent comparator on the elements of [l], in the sense
    of ECMAScript for [Array.prototype.sort]: reflexive and symmetric where
    it answers 0, and transitive for each of the three answers. *)
Definition consistent {A} (cmp : A -> A -> Z) (l : list A) : bool :=
  List.forallb (fun a =>
    (cmp a a =? 0) &&
    List.forallb (fun b =>
      implb (cmp a b =? 0) (cmp b a =? 0) &&
      List.forallb (fun c =>
        implb ((cmp a b =? 0) && (cmp b c =? 0)) (cmp a c =? 0) &&
        implb ((cmp a b <? 0) && (cmp b c <? 0)) (cmp a c <? 0) &&
        implb ((0 <? cmp a b) && (0 <? cmp b c)) (0 <? cmp a c)) l) l) l.

(** The JavaScript engine.  When the comparator is not consistent the order
    [Array.prototype.sort] leaves the array in is implementation-defined:
    [engine_order] stands for the engine's choice, of which only that it
    rearranges the elements is known. *)
Record Engine := mkEngine {
  engine_order : forall A : Type, (A -> A -> Z) -> list A -> list A;
  engine_order_perm : forall (A : Type) (cmp : A -> A -> Z) (l : list A),
    Permutation l (engine_order A cmp l) }.

(** [l.sort(cmp)]: the stably sorted permutation for a consistent
    comparator, the engine's order otherwise. *)
Definition js_sort {A} (engine : Engine) (cmp : A -> A -> Z) (l : list A) : list A :=
  if consistent cmp l then sort_by cmp l else engine_order engine A cmp l.

(** The three sorts of [scoredFiles]; [openai] is [None] when the client or
    its [embeddings] member is missing.  The comparator on [score] compares
    integers and is consistent on every array; the one on [finalScore] is
    not when a [finalScore] is NaN (a file vector of norm 0, or one that is
    missing), since NaN then ties with every other value. *)
Definition rank (engine : Engine) (openai : option Embedder) (question : string)
    (scoredFiles : list ScoredFile) : list ScoredFile :=
  match openai with
  | Some embed =>
      if nonempty question && (0 <? Z.of_nat (List.length scoredFiles)) then
        match embed_and_blend embed question scoredFiles with
        | (blended, false) => js_sort engine by_finalScore blended
        | (partial, true) => sort_by by_score partial
        end
      else sort_by by_score scoredFiles
  | None => sort_by by_score scoredFiles
  end.

(** ** Budgeted selector *)

(** [f.finalScore || f.score] *)
Definition emitted_score (f : ScoredFile) : Num :=
  match sf_finalScore f with
  | Some x => if float_truthy x then NFloat x else NInt (sf_score f)
  | None => NInt (sf_score f)
  end.

Definition file_of (f : ScoredFile) : File :=
  let isTruncated := Js.endsWith (chars (sf_content f)) MARKER in
  {| f_path := sf_path f;
     f_content := if isTruncated then str (Js.remove_first MARKER (chars (sf_content f)))
                  else sf_content f;
     f_truncated := Some isTruncated;
     f_bytes := Some (sf_bytes f);
     f_score := Some (emitted_score f) |}.

(** [for (const f of scoredFiles)]: both tests [break]. *)
Fixpoint admit_ranked (maxFiles maxBytes : Z) (fs : list ScoredFile)
    (result : RetrievalResult) : RetrievalResult :=
  match fs with
  | [] => result
  | f :: rest =>
      if maxFiles <=? Z.of_nat (List.length (files result)) then result
      else if maxBytes <? totalBytes result + sf_bytes f then result
      else admit_ranked maxFiles maxBytes rest
             {| files := files result ++ [file_of f];
                totalBytes := totalBytes result + sf_bytes f |}
  end.

(** [for (const dep of Array.from(depFilesSet))] *)
Fixpoint ensure_deps (fetch_root : string -> option string) (maxBytes : Z)
    (deps : list string) (result : RetrievalResult) : RetrievalResult :=
  match deps with
  | [] => result
  | dep :: rest =>
      if List.existsb (fun ff => String.eqb (f_path ff) dep) (files result)
      then ensure_deps fetch_root maxBytes rest result
      else
        match fetch_root dep with
        | Some content =>
            if totalBytes result + byteLength content <=? maxBytes
            then ensure_deps fetch_root maxBytes rest
                   {| files := files result ++
                        [{| f_path := dep; f_content := content; f_truncated := None;
                            f_bytes := None; f_score := None |}];
                      totalBytes := totalBytes result + byteLength content |}
            else ensure_deps fetch_root maxBytes rest result
        | None => ensure_deps fetch_root maxBytes rest result
        end
  end.

(** [opts.maxFiles || 50], [opts.maxBytes || 200000] *)
Definition maxFiles_of (opts : Opts) : Z :=
  match o_maxFiles opts with Some n => or_else n 50 | None => 50 end.

Definition maxBytes_of (opts : Opts) : Z :=
  match o_maxBytes opts with Some n => or_else n 200000 | None => 200000 end.

Definition empty_result : RetrievalResult := {| files := []; totalBytes := 0 |}.

(** [repoRes.data.default_branch || 'main'] *)
Definition default_branch (b : option string) : string :=
  match b with Some s => if nonempty s then s else "main" | None => "main" end.

(** The scored pool of one request, with the list of content requests made. *)
Definition scoredFiles (gh : GitHub) (rules : Rules) (opts : Opts) (question : string)
    (branch : string) (tree : list TreeEntry) : list ScoredFile * list string :=
  score_loop (fun path => gh_contents gh path branch) (keywords question)
    (maxFiles_of opts) (maxBytes_of opts) empty_result
    (topCandidates rules tree) [] [].

(** [fetchRepoTreeAndFiles(owner, repo, token, opts, logger, question)]:
    [gh] stands for the repository [owner/repo] read with [token]; the log
    lines carry no data and are left out.  A failure of the first two
    requests is caught by the outer [try] and the empty result returned. *)
Definition fetchRepoTreeAndFiles (engine : Engine) (gh : GitHub) (rules : Rules)
    (openai : option Embedder) (opts : Opts) (question : string) : RetrievalResult :=
  match gh_repo gh with
  | None => empty_result
  | Some b =>
      let defaultBranch := default_branch b in
      match gh_tree gh defaultBranch with
      | None => empty_result
      | Some tree =>
          let scored := fst (scoredFiles gh rules opts question defaultBranch tree) in
          let ranked := rank engine openai question scored in
          let result := admit_ranked (maxFiles_of opts) (maxBytes_of opts) ranked empty_result in
          ensure_deps (gh_contents_root gh) (maxBytes_of opts) depFiles result
      end
  end.

(** ** The [/api/walkthrough] handler *)

(** The OpenAI client: its [embeddings] member when present, and chat
    completion.  The prompt is a fixed function of the question and of the
    retrieved files, which therefore stand for it; the answer is the text of
    the first choice, [None] when the call throws. *)
Record OpenAI := mkOpenAI {
  embeddings : option Embedder;
  complete : string -> list File -> option string }.

Inductive Failure :=
| NotConfigured            (* OPENAI_API_KEY not configured on server *)
| ProviderFailed           (* the completion call threw *)
| Unparseable (raw : string)
| TypeError.               (* an exception raised while validating *)

(** The terminal server-sent event of a request, as [sendSSE] writes it with
    [JSON.stringify].  In [ResultEvent] an object is sent under
    [walkthrough], given by its properties.  In [ArrayResultEvent] the value
    sent under [walkthrough] is an array: [JSON.stringify] writes its
    elements and none of the named properties set on it. *)
Inductive Event :=
| ResultEvent (walkthrough : gmap string Json)
| ArrayResultEvent (elements : list Json)
| ErrorEvent (failure : Failure).

Inductive Response :=
| BadRequest
| Stream (final : Event).

Definition NO_FILES_REASON : string :=
  "No files could be fetched from GitHub (possible 403 rate limit, missing GITHUB_TOKEN for private repo, or invalid repository). Configure GITHUB_TOKEN and try again.".

Definition NOT_PRESENT_REASON : string :=
  "The information required to answer this question is not present in the provided repository files.".

Definition ABSENT_SENTENCE : string :=
  "Some requested components or files are not present in this repository.".

Definition REMOVED_REASON : string :=
  "Removed references to files not present in repository.".

(** The object sent when no file was fetched. *)
Definition no_files_walkthrough : gmap string Json :=
  <["answer" := JStr ""]> (<["references" := JArr []]> (<["trace" := JArr []]>
  (<["sources" := JArr []]> (<["missing" := JArr []]> (<["cannot_answer" := JBool true]>
  (<["reason" := JStr NO_FILES_REASON]> ∅)))))).

(** [new Set(filesData.files.map(f => f.path))] and [filesData.files.map(f => f.path)] *)
Definition availablePaths (filesData : RetrievalResult) : gset string :=
  list_to_set (List.map f_path (files filesData)).

Definition allFetched (filesData : RetrievalResult) : list string :=
  List.map f_path (files filesData).

Definition has (paths : gset string) (p : string) : bool := bool_decide (p ∈ paths).

(** [if (!Array.isArray(json.k)) json.k = []] *)
Definition ensure_array (k : string) (json : gmap string Json) : gmap string Json :=
  if isArray (json !! k) then json else <[k := JArr []]> json.

Definition normalize (json : gmap string Json) : gmap string Json :=
  ensure_array "missing" (ensure_array "references" (ensure_array "sources" json)).

(** [s => typeof s === 'string' && availablePaths.has(s)] *)
Definition grounded_source (paths : gset string) (s : Json) : bool :=
  match s with JStr p => has paths p | _ => false end.

(** [r => r && typeof r.path === 'string' && availablePaths.has(r.path)] *)
Definition grounded_reference (paths : gset string) (r : Json) : bool :=
  truthy (Some r) &&
  match prop r "path" with Some (JStr p) => has paths p | _ => false end.

Definition ground (paths : gset string) (json : gmap string Json) : gmap string Json :=
  let json := <["sources" := JArr (List.filter (grounded_source paths) (elements (json !! "sources")))]> json in
  <["references" := JArr (List.filter (grounded_reference paths) (elements (json !! "references")))]> json.

Definition is_nil {A} (l : list A) : bool := match l with [] => true | _ => false end.

(** Auto-populate [sources]. *)
Definition backfill_sources (filesData : RetrievalResult) (json : gmap string Json)
    : gmap string Json :=
  let all := allFetched filesData in
  if is_nil (elements (json !! "sources")) && negb (is_nil all)
     && negb (is_true (json !! "cannot_answer"))
  then <["sources" := JArr (List.map JStr (firstn (Nat.min 5 (List.length all)) all))]> json
  else json.

(** [f.path === json.sources[0]] *)
Definition is_path (v : option Json) (f : File) : bool :=
  match v with Some (JStr p) => String.eqb (f_path f) p | _ => false end.

(** Synthesize one reference from the first source. *)
Definition backfill_reference (filesData : RetrievalResult) (json : gmap string Json)
    : gmap string Json :=
  if is_nil (elements (json !! "references")) && negb (is_nil (elements (json !! "sources")))
     && negb (is_true (json !! "cannot_answer"))
  then
    match List.find (is_path (List.hd_error (elements (json !! "sources")))) (files filesData) with
    | Some first =>
        let reference :=
          JObj (<["path" := JStr (f_path first)]>
               (<["excerpt" := JStr (slice0 300 (f_content first))]> ∅)) in
        <["references" := JArr (elements (json !! "references") ++ [reference])]> json
    | None => json
    end
  else json.

(** [!json.answer || json.answer.trim() === '']; [None] is the TypeError of
    calling [trim] on a value that has none. *)
Definition blank_answer (v : option Json) : option bool :=
  if negb (truthy v) then Some true
  else match v with
       | Some (JStr s) => Some (String.eqb (trim s) "")
       | _ => None
       end.

(** The test of the final [if]; [||] and [&&] evaluate left to right. *)
Definition refuses (json : gmap string Json) : option bool :=
  if is_true (json !! "cannot_answer") then Some true
  else if is_nil (elements (json !! "references")) then blank_answer (json !! "answer")
  else Some false.

Definition or_reason (default : string) (json : gmap string Json) : gmap string Json :=
  if truthy (json !! "reason") then json else <["reason" := JStr default]> json.

(** The branch that ends the request with [cannot_answer = true]. *)
Definition refuse (json : gmap string Json) : gmap string Json :=
  or_reason NOT_PRESENT_REASON
    (<["missing" := JArr []]> (<["trace" := JArr []]> (<["references" := JArr []]>
    (<["answer" := JStr ""]> (<["cannot_answer" := JBool true]> json))))).

(** The [else] branch. *)
Definition carry_on (json : gmap string Json) : gmap string Json :=
  or_reason "" (<["cannot_answer" := JBool false]> json).

(** ** Prose scrub *)

(** [mentioned.filter(m => !availablePaths.has(m))] over the distinct matches. *)
Definition unknown_tokens (paths : gset string) (answerText : list ascii) : list (list ascii) :=
  List.filter (fun m => negb (has paths (str m))) (uniq (fileLike_matches answerText)).

(** [p => !unknown.some(u => p.includes(u)) || availablePaths.has(p.trim())] *)
Definition keep_paragraph (paths : gset string) (unknown : list (list ascii))
    (p : list ascii) : bool :=
  negb (List.existsb (Js.includes p) unknown) || has paths (str (Js.trim p)).

(** [paras.filter(...).join('\n\n').trim()] *)
Definition scrubbed_text (paths : gset string) (unknown : list (list ascii))
    (answerText : list ascii) : list ascii :=
  Js.trim (Js.join [LF; LF]
    (List.filter (keep_paragraph paths unknown) (Js.split_blank false answerText))).

Definition is_str (a : string) (v : Json) : bool :=
  match v with JStr s => String.eqb s a | _ => false end.

(** [if (!json.missing.includes(a)) json.missing.push(a)] *)
Definition add_missing (missing : list Json) (a : string) : list Json :=
  if List.existsb (is_str a) missing then missing else missing ++ [JStr a].

(** [typeof json.answer === 'string' ? json.answer : ''] *)
Definition answer_text (json : gmap string Json) : string :=
  match json !! "answer" with Some (JStr s) => s | _ => "" end.

(** The hallucination-mitigation block.  [None] is the TypeError raised by
    [json.missing.includes] when [missing] is not an array. *)
Definition scrub (paths : gset string) (json : gmap string Json) : option (gmap string Json) :=
  let answerText := answer_text json in
  if nonempty answerText then
    let unknown := unknown_tokens paths (chars answerText) in
    if negb (is_nil unknown) then
      let newAnswer := scrubbed_text paths unknown (chars answerText) in
      let json := if is_nil newAnswer then <["cannot_answer" := JBool false]> json else json in
      let newAnswer := if is_nil newAnswer then ABSENT_SENTENCE else str newAnswer in
      let json := <["answer" := JStr newAnswer]> json in
      let additions := List.map (fun u => str (strip_ext u)) unknown in
      match json !! "missing" with
      | Some (JArr missing) =>
          let json := <["missing" := JArr (fold_left add_missing additions missing)]> json in
          Some (or_reason REMOVED_REASON json)
      | _ => None
      end
    else Some json
  else Some json.

(** ** Validation and the handler *)

(** The object after shape normalization, path grounding and both back-fills. *)
Definition prepared (filesData : RetrievalResult) (json : gmap string Json)
    : gmap string Json :=
  backfill_reference filesData
    (backfill_sources filesData
      (ground (availablePaths filesData) (normalize json))).

(** Everything the handler does with the parsed object. *)
Definition validateAnswer (filesData : RetrievalResult) (json : gmap string Json) : Event :=
  let json := prepared filesData json in
  match refuses json with
  | None => ErrorEvent TypeError
  | Some true => ResultEvent (refuse json)
  | Some false =>
      match scrub (availablePaths filesData) (carry_on json) with
      | Some json => ResultEvent json
      | None => ErrorEvent TypeError
      end
  end.

(** What is sent for a parsed array: the validator runs on the named
    properties it sets on the array, which has none at first, and the
    [result] event then carries the array's elements only. *)
Definition validateArray (filesData : RetrievalResult) (elements : list Json) : Event :=
  match validateAnswer filesData ∅ with
  | ResultEvent _ => ArrayResultEvent elements
  | other => other
  end.

Section Handler.

(** [JSON.parse]; [None] when it throws. *)
Variable JSON_parse : string -> option Json.

(** [text.slice(start, end + 1)] *)
Definition slice_incl (start stop : nat) (text : string) : string :=
  str (skipn start (firstn (S stop) (chars text))).

Definition is_lbrace (c : ascii) : bool := (Js.code c =? 123)%N.
Definition is_rbrace (c : ascii) : bool := (Js.code c =? 125)%N.

(** Parse, and on failure parse the span from the first brace to the last. *)
Definition parse_response (text : string) : option Json :=
  match JSON_parse text with
  | Some j => Some j
  | None =>
      match Js.indexOf is_lbrace (chars text), Js.lastIndexOf is_rbrace (chars text) with
      | Some start, Some stop => JSON_parse (slice_incl start stop text)
      | _, _ => None
      end
  end.

Definition walkthrough_opts : Opts := {| o_maxFiles := Some 60; o_maxBytes := Some 300000 |}.

(** The handler after the repository URL was resolved to [gh].  A parsed
    value that is neither an object nor an array is a primitive: assigning
    [json.sources] to it is ignored, so that [json.sources.filter] throws. *)
Definition walkthrough (engine : Engine) (gh : GitHub) (rules : Rules)
    (openai : option OpenAI) (question : string) : Response :=
  if negb (nonempty question) then BadRequest
  else
    let filesData :=
      fetchRepoTreeAndFiles engine gh rules (openai ≫= embeddings) walkthrough_opts
        question in
    if is_nil (files filesData) then Stream (ResultEvent no_files_walkthrough)
    else
      match openai with
      | None => Stream (ErrorEvent NotConfigured)
      | Some client =>
          match complete client question (files filesData) with
          | None => Stream (ErrorEvent ProviderFailed)
          | Some text =>
              match parse_response text with
              | None => Stream (ErrorEvent (Unparseable text))
              | Some j =>
                  if negb (truthy (Some j)) then Stream (ErrorEvent (Unparseable text))
                  else match j with
                       | JObj json => Stream (validateAnswer filesData json)
                       | JArr elements => Stream (validateArray filesData elements)
                       | _ => Stream (ErrorEvent TypeError)
                       end
              end
          end
      end.

End Handler.

(** ** Vocabulary of the statements about the validator *)

(** The model's [sources] and [references] after the path grounding filter. *)
Definition grounded_sources (fd : RetrievalResult) (json : gmap string Json) : list Json :=
  List.filter (grounded_source (availablePaths fd)) (elements (json !! "sources")).

Definition grounded_references (fd : RetrievalResult) (json : gmap string Json) : list Json :=
  List.filter (grounded_reference (availablePaths fd)) (elements (json !! "references")).

(** [sources] after the sources back-fill. *)
Definition final_sources (fd : RetrievalResult) (json : gmap string Json) : list Json :=
  if is_nil (grounded_sources fd json) && negb (is_nil (allFetched fd))
     && negb (is_true (json !! "cannot_answer"))
  then List.map JStr (firstn (Nat.min 5 (List.length (allFetched fd))) (allFetched fd))
  else grounded_sources fd json.

(** An element of [sources] is a retrieved path; an element of [references]
    carries one in its [path]. *)
Definition path_grounded (fd : RetrievalResult) (s : Json) : Prop :=
  exists p, s = JStr p /\ In p (allFetched fd).

Definition reference_grounded (fd : RetrievalResult) (r : Json) : Prop :=
  exists p, prop r "path" = Some (JStr p) /\ In p (allFetched fd).

(** ** Vocabulary of the statements about the selector *)

(** A scored file without the two fields the re-ranker writes. *)
Definition lexical_fields (f : ScoredFile) : string * string * Z * Z * TreeEntry :=
  (sf_path f, sf_content f, sf_bytes f, sf_score f, sf_originalItem f).

(** The keyword list as the specification words it: the maximal runs of
    word characters of the lower-cased question that are longer than 3. *)
Fixpoint word_runs (s : list ascii) : list (list ascii) :=
  match s with
  | [] => []
  | c :: t =>
      if Js.is_word c then
        match t with
        | c' :: _ => if Js.is_word c' then Js.cons_first c (word_runs t) else [c] :: word_runs t
        | [] => [[c]]
        end
      else word_runs t
  end.

Definition question_keywords (question : string) : list (list ascii) :=
  List.filter (fun w => 3 <? Js.length w) (word_runs (Js.toLowerCase (chars question))).

Definition sum_over {A} (f : A -> Z) (l : list A) : Z :=
  fold_right (fun k acc => f k + acc) 0 l.

(** The lexical score as the specification words it: 10 per keyword found
    in the lower-cased path, plus per keyword its number of occurrences in
    the lower-cased content, at most 20. *)
Definition lexical_score (kws : list (list ascii)) (path content : string) : Z :=
  sum_over (fun k => if Js.includes (Js.toLowerCase (chars path)) k then 10 else 0) kws
  + sum_over (fun k => Z.min (Z.of_nat (Js.count_matches 0 k (Js.toLowerCase (chars content)))) 20) kws.

(** What the scoring loop yields for one candidate. *)
Definition scored_candidate (fetch : string -> option string) (kws : list (list ascii))
    (item : TreeEntry) : list ScoredFile :=
  match fetch (t_path item) with
  | Some content => [scored_of kws item content]
  | None => []
  end.

(** The re-ranker is not applied, or its [try] block threw. *)
Definition lexical_mode (openai : option Embedder) (question : string)
    (scored : list ScoredFile) : Prop :=
  match openai with
  | None => True
  | Some embed =>
      nonempty question = false \/ scored = [] \/
      snd (embed_and_blend embed question scored) = true
  end.

(** A file pushed by the manifest pass. *)
Definition is_manifest (deps : list string) (f : File) : Prop :=
  In (f_path f) deps /\ f_truncated f = None /\ f_bytes f = None /\ f_score f = None.

(** ** Concrete inputs of the examples *)

(** An engine that leaves an array it cannot order as it is. *)
Definition idle_engine : Engine :=
  {| engine_order := fun _ _ l => l;
     engine_order_perm := fun _ _ l => Permutation_refl l |}.

Definition blob (path : string) (size : Z) : TreeEntry :=
  {| t_path := path; t_type := "blob"; t_size := Some size |}.

Definition no_rules : Rules := {| whitelist := []; blacklist := [] |}.

(** A repository that cannot be resolved. *)
Definition unreachable_repo : GitHub :=
  {| gh_repo := None; gh_tree := fun _ => None;
     gh_contents := fun _ _ => None; gh_contents_root := fun _ => None |}.

(** A repository with [a.js], [src/b.js] and a [package.json]. *)
Definition small_repo_file (path : string) : option string :=
  if String.eqb path "a.js" then Some "function auth() {}"
  else if String.eqb path "src/b.js" then Some "function auth() {}"
  else if String.eqb path "package.json" then Some "{}"
  else None.

Definition small_repo : GitHub :=
  {| gh_repo := Some (Some "main");
     gh_tree := fun _ => Some [blob "src/b.js" 18; blob "a.js" 18; blob "package.json" 2];
     gh_contents := fun path _ => small_repo_file path;
     gh_contents_root := small_repo_file |}.

(** A model client that answers anything and has no embeddings. *)
Definition chatty_client : OpenAI :=
  {| embeddings := None; complete := fun _ _ => Some "anything" |}.

(** An embedder whose call throws, and one that places the second text on
    the question's axis and the first text across it. *)
Definition failing_embedder : Embedder := fun _ => None.


(** One retrieved file, and a model answer citing a file that was not retrieved. *)
Definition one_file : RetrievalResult :=
  {| files := [{| f_path := "main.js"; f_content := "console.log(1)"; f_truncated := Some false;
                  f_bytes := Some 14; f_score := Some (NInt 0) |}];
     totalBytes := 14 |}.

Definition ungrounded_answer : gmap string Json :=
  <["answer" := JStr "See main.js."]>
  (<["references" := JArr [JObj (<["path" := JStr "nonexistent.js"]> ∅)]]>
  (<["sources" := JArr [JStr "main.js"; JStr "ghost.py"]]> ∅)).

Definition refusing_answer : gmap string Json :=
  <["cannot_answer" := JBool true]> ungrounded_answer.

(** Two scored files of equal score, the deeper one first. *)
Definition two_scored : list ScoredFile :=
  [scored_of [] (blob "src/b.js" 18) "function auth() {}";
   scored_of [] (blob "a.js" 18) "function auth() {}"].

(** A text without a dot. *)
Definition no_dot (s : list ascii) : bool := List.forallb (fun c => negb (Js.is_dot c)) s.

(** A retrieval that holds only [package.json]. *)
Definition only_manifest : RetrievalResult :=
  {| files := [{| f_path := "package.json"; f_content := "{}"; f_truncated := None;
                  f_bytes := None; f_score := None |}];
     totalBytes := 2 |}.

(** A parser that accepts only the empty object. *)
Definition parse_empty_object (s : string) : option Json :=
  if String.eqb s "{}" then Some (JObj ∅) else None.

(** A file of 100001 characters. *)
Definition long_content : string := str (repeat "a"%char (N.to_nat 100001)).

(** Rules that whitelist a vendor directory. *)
Definition vendor_rules : Rules := {| whitelist := ["vendor/"]; blacklist := ["vendor/"] |}.

(** ** Vocabulary of the statements about the prose scrub *)

(** Gluing the pieces of two texts: the last piece of the first continues
    into the first piece of the second. *)
Definition prepend (x : list ascii) (ys : list (list ascii)) : list (list ascii) :=
  match ys with
  | [] => [x]
  | y :: ys' => (x ++ y) :: ys'
  end.

Fixpoint glue (xs ys : list (list ascii)) : list (list ascii) :=
  match xs with
  | [] => ys
  | [x] => prepend x ys
  | x :: xs' => x :: glue xs' ys
  end.

Definition starts_nl (s : list ascii) : bool :=
  match s with c :: _ => Js.is_nl c | [] => false end.

Definition ends_nl (s : list ascii) : bool := starts_nl (rev s).

(** A text without a blank-line separator is one paragraph. *)
Definition one_paragraph (p : list ascii) : Prop := Js.split_blank false p = [p].

(** The shape of the paragraphs that follow a separator, and of a whole
    paragraph list: only the first may start and only the last may end with
    a line feed, and only the first and the last may be empty. *)
Fixpoint good_tail (ps : list (list ascii)) : Prop :=
  match ps with
  | [] => True
  | [p] => one_paragraph p /\ starts_nl p = false
  | p :: rest =>
      one_paragraph p /\ starts_nl p = false /\ ends_nl p = false /\ p <> [] /\ good_tail rest
  end.

Definition good (ps : list (list ascii)) : Prop :=
  match ps with
  | [] => True
  | [p] => one_paragraph p
  | p :: rest => one_paragraph p /\ ends_nl p = false /\ good_tail rest
  end.

(** A model answer whose second paragraph names a file that was not retrieved. *)
Definition hallucinated_answer : gmap string Json :=
  <["answer" := JStr ("main.js logs 1." +:+ String LF (String LF "ghost.py stores it."))]>
  (<["missing" := JArr []]> ∅).

(** ** The rate limiter ([rateLimitMiddleware]) *)

Record RateEntry := mkRateEntry {
  count : Z;
  windowStart : Z }.

(** What the middleware does with the request: [next()] or a 429 response. *)
Inductive Verdict := Next | TooManyRequests.

Record Request := mkRequest {
  req_ip : option string;
  req_remoteAddress : option string }.

Definition truthy_string (s : option string) : bool :=
  match s with Some x => nonempty x | None => false end.

(** [req.ip || req.connection?.remoteAddress || 'unknown'] *)
Definition client_ip (req : Request) : string :=
  if truthy_string (req_ip req) then default "" (req_ip req)
  else if truthy_string (req_remoteAddress req) then default "" (req_remoteAddress req)
  else "unknown".

(** One call of the middleware at time [now] ([Date.now()]), for the
    configured [RATE_LIMIT_WINDOW_MS] and [RATE_LIMIT_MAX]; the store is the
    module-level [Map] from IP to entry. *)
Definition rateLimitMiddleware (RATE_LIMIT_WINDOW_MS RATE_LIMIT_MAX : Z)
    (rateStore : gmap string RateEntry) (req : Request) (now : Z)
    : gmap string RateEntry * Verdict :=
  let ip := client_ip req in
  let entry := default {| count := 0; windowStart := now |} (rateStore !! ip) in
  let entry :=
    if RATE_LIMIT_WINDOW_MS <? now - windowStart entry
    then {| count := 0; windowStart := now |} else entry in
  let entry := {| count := count entry + 1; windowStart := windowStart entry |} in
  (<[ip := entry]> rateStore,
   if RATE_LIMIT_MAX <? count entry then TooManyRequests else Next).

(** A sequence of requests, each with its arrival time, served in order. *)
Fixpoint serve (WINDOW MAX : Z) (rateStore : gmap string RateEntry)
    (requests : list (Request * Z)) : gmap string RateEntry * list (string * Verdict) :=
  match requests with
  | [] => (rateStore, [])
  | (req, now) :: rest =>
      let '(store', verdict) := rateLimitMiddleware WINDOW MAX rateStore req now in
      let '(store'', verdicts) := serve WINDOW MAX store' rest in
      (store'', (client_ip req, verdict) :: verdicts)
  end.

(** ** Retry with backoff ([axiosGetWithRetry]) *)

(** [get i] is the outcome of the [i]-th call of [axios.get] ([None] when it
    throws).  The loop returns the first response, or throws after
    [attempts] failures; the second component lists the delays it slept,
    [backoff * 2^i] after the failure of attempt [i]. *)
Fixpoint retry_loop {R} (get : nat -> option R) (backoff : Z) (i remaining : nat)
    (slept : list Z) : option R * list Z :=
  match remaining with
  | O => (None, slept)
  | S remaining' =>
      match get i with
      | Some response => (Some response, slept)
      | None => retry_loop get backoff (S i) remaining' (slept ++ [backoff * 2 ^ Z.of_nat i])
      end
  end.

Definition axiosGetWithRetry {R} (get : nat -> option R) (attempts : nat) (backoff : Z)
    : option R * list Z :=
  retry_loop get backoff 0 attempts [].

(** ** More vocabulary *)

(** The bytes a result file was charged to [totalBytes]: the ranked pass
    records them in [bytes], the manifest pass charges the content. *)
Definition charged_bytes (f : File) : Z :=
  match f_bytes f with Some b => b | None => byteLength (f_content f) end.

(** A window candidate whose content request succeeds with a non-empty
    [content] field. *)
Definition fetched (fetch : string -> option string) (item : TreeEntry) : bool :=
  match fetch (t_path item) with Some _ => true | None => false end.

(** * Properties of the answer validator *)

Ltac map_simpl :=
  repeat first
    [ rewrite lookup_insert_eq
    | rewrite lookup_insert_ne by discriminate ].

Lemma has_In (fd : RetrievalResult) (p : string) :
  has (availablePaths fd) p = true <-> In p (allFetched fd).
Proof.
  unfold has, availablePaths, allFetched.
  rewrite bool_decide_eq_true, elem_of_list_to_set. apply list_elem_of_In.
Qed.

Lemma ensure_array_same k (json : gmap string Json) :
  ensure_array k json !! k = Some (JArr (elements (json !! k))).
Proof.
  unfold ensure_array. destruct (json !! k) as [[]|] eqn:E; simpl; map_simpl; auto.
Qed.

Lemma ensure_array_other k k' (json : gmap string Json) :
  k <> k' -> ensure_array k json !! k' = json !! k'.
Proof.
  intros H. unfold ensure_array. destruct (isArray (json !! k)); auto.
  now rewrite lookup_insert_ne.
Qed.

Lemma normalize_sources json :
  normalize json !! "sources" = Some (JArr (elements (json !! "sources"))).
Proof.
  unfold normalize. rewrite !ensure_array_other by discriminate. apply ensure_array_same.
Qed.

Lemma normalize_references json :
  normalize json !! "references" = Some (JArr (elements (json !! "references"))).
Proof.
  unfold normalize. rewrite ensure_array_other by discriminate.
  rewrite ensure_array_same. now rewrite ensure_array_other by discriminate.
Qed.

Lemma normalize_missing json :
  normalize json !! "missing" = Some (JArr (elements (json !! "missing"))).
Proof.
  unfold normalize. rewrite ensure_array_same.
  now rewrite !ensure_array_other by discriminate.
Qed.

Lemma normalize_other json k :
  k <> "sources" -> k <> "references" -> k <> "missing" ->
  normalize json !! k = json !! k.
Proof.
  intros. unfold normalize. now rewrite !ensure_array_other by congruence.
Qed.

Lemma ground_sources fd json :
  ground (availablePaths fd) (normalize json) !! "sources" = Some (JArr (grounded_sources fd json)).
Proof.
  unfold ground. map_simpl. now rewrite normalize_sources.
Qed.

Lemma ground_references fd json :
  ground (availablePaths fd) (normalize json) !! "references"
  = Some (JArr (grounded_references fd json)).
Proof.
  unfold ground. map_simpl. now rewrite normalize_references.
Qed.

Lemma ground_other paths json k :
  k <> "sources" -> k <> "references" -> ground paths json !! k = json !! k.
Proof.
  intros. unfold ground. now rewrite !lookup_insert_ne by congruence.
Qed.

Lemma backfill_sources_other fd json k :
  k <> "sources" -> backfill_sources fd json !! k = json !! k.
Proof.
  intros. unfold backfill_sources.
  destruct (_ && _); auto. now rewrite lookup_insert_ne by congruence.
Qed.

Lemma backfill_reference_other fd json k :
  k <> "references" -> backfill_reference fd json !! k = json !! k.
Proof.
  intros. unfold backfill_reference.
  destruct (_ && _); auto. destruct (find _ _); auto.
  now rewrite lookup_insert_ne by congruence.
Qed.

Lemma prepared_other fd json k :
  k <> "sources" -> k <> "references" -> k <> "missing" ->
  prepared fd json !! k = json !! k.
Proof.
  intros. unfold prepared.
  rewrite backfill_reference_other, backfill_sources_other, ground_other, normalize_other; auto.
Qed.

Lemma prepared_missing fd json :
  prepared fd json !! "missing" = Some (JArr (elements (json !! "missing"))).
Proof.
  unfold prepared.
  rewrite backfill_reference_other, backfill_sources_other, ground_other by discriminate.
  apply normalize_missing.
Qed.

Lemma prepared_sources fd json :
  prepared fd json !! "sources" = Some (JArr (final_sources fd json)).
Proof.
  unfold prepared. rewrite backfill_reference_other by discriminate.
  unfold backfill_sources, final_sources.
  rewrite ground_sources, ground_other, normalize_other by discriminate. simpl.
  destruct (_ && _); map_simpl; auto. apply ground_sources.
Qed.

Lemma grounded_sources_ok fd json : Forall (path_grounded fd) (grounded_sources fd json).
Proof.
  unfold grounded_sources. apply List.Forall_forall. intros s Hs.
  apply filter_In in Hs as [_ Hs]. destruct s; try discriminate.
  exists s. split; auto. now apply has_In.
Qed.

Lemma In_firstn {A} (x : A) n l : In x (firstn n l) -> In x l.
Proof.
  revert l. induction n as [|n IH]; intros [|y l]; simpl; try tauto.
  intros [E|H]; auto.
Qed.

Lemma final_sources_ok fd json : Forall (path_grounded fd) (final_sources fd json).
Proof.
  unfold final_sources. destruct (_ && _); [|apply grounded_sources_ok].
  apply List.Forall_forall. intros s Hs. apply in_map_iff in Hs as (p & <- & Hp).
  exists p. split; auto. eapply In_firstn; eauto.
Qed.

Lemma grounded_references_ok fd json :
  Forall (reference_grounded fd) (grounded_references fd json).
Proof.
  unfold grounded_references. apply List.Forall_forall. intros r Hr.
  apply filter_In in Hr as [_ Hr]. unfold grounded_reference in Hr.
  apply andb_true_iff in Hr as [_ Hr].
  destruct (prop r "path") as [[]|] eqn:E; try discriminate.
  eexists. split; eauto. now apply has_In.
Qed.

Lemma find_is_path fd p :
  In p (allFetched fd) ->
  exists f, List.find (is_path (Some (JStr p))) (files fd) = Some f /\ f_path f = p.
Proof.
  unfold allFetched. induction (files fd) as [|f fs IH]; simpl; [tauto|].
  intros [E|H].
  - exists f. rewrite E, String.eqb_refl. auto.
  - destruct (String.eqb (f_path f) p) eqn:Q.
    + exists f. split; auto. now apply String.eqb_eq.
    + auto.
Qed.

(** [references] after the reference back-fill. *)
Lemma prepared_references fd json :
  exists refs, prepared fd json !! "references" = Some (JArr refs) /\
    Forall (reference_grounded fd) refs /\
    (files fd <> [] -> is_true (json !! "cannot_answer") = false -> refs <> []).
Proof.
  unfold prepared. set (bs := backfill_sources _ _).
  assert (Hr : bs !! "references" = Some (JArr (grounded_references fd json))).
  { unfold bs. rewrite backfill_sources_other by discriminate. apply ground_references. }
  assert (Hs : bs !! "sources" = Some (JArr (final_sources fd json))).
  { pose proof (prepared_sources fd json) as H. unfold prepared in H.
    now rewrite backfill_reference_other in H by discriminate. }
  assert (Hc : bs !! "cannot_answer" = json !! "cannot_answer").
  { unfold bs. rewrite backfill_sources_other, ground_other, normalize_other; auto; discriminate. }
  unfold backfill_reference. rewrite Hr, Hs, Hc. simpl.
  pose proof (grounded_references_ok fd json) as Gr.
  pose proof (final_sources_ok fd json) as Gs.
  destruct (grounded_references fd json) as [|r rs] eqn:Er; simpl.
  2:{ exists (r :: rs). rewrite Hr. repeat split; auto; discriminate. }
  destruct (final_sources fd json) as [|s ss] eqn:Es; simpl.
  { exists []. rewrite Hr. repeat split; auto.
    intros Hf Hca. exfalso. unfold final_sources in Es. rewrite Hca in Es.
    unfold allFetched in Es. destruct (files fd) as [|f fs]; [congruence|].
    simpl in Es. destruct (is_nil (grounded_sources fd json)) eqn:N; simpl in Es.
    - discriminate.
    - rewrite Es in N. discriminate. }
  destruct (is_true (json !! "cannot_answer")) eqn:Hca; simpl.
  { exists []. rewrite Hr. repeat split; auto; congruence. }
  inversion Gs as [|? ? [p [-> Hp]] _]; subst.
  destruct (find_is_path fd p Hp) as (f & Hfind & Hfp). rewrite Hfind.
  eexists. map_simpl. split; [reflexivity|]. split; [|discriminate].
  constructor; auto. exists p. split; auto.
  unfold prop. map_simpl. now rewrite Hfp.
Qed.

Lemma or_reason_other d json k : k <> "reason" -> or_reason d json !! k = json !! k.
Proof.
  intros. unfold or_reason. destruct (truthy _); auto. now rewrite lookup_insert_ne by congruence.
Qed.

Lemma or_reason_truthy d json :
  nonempty d = true -> truthy (or_reason d json !! "reason") = true.
Proof.
  intros Hd. unfold or_reason. destruct (truthy (json !! "reason")) eqn:E; auto.
  now map_simpl.
Qed.

Lemma or_reason_present d json :
  exists r, or_reason d json !! "reason" = Some r /\ (truthy (Some r) = true \/ r = JStr d).
Proof.
  unfold or_reason. destruct (truthy (json !! "reason")) eqn:E.
  - destruct (json !! "reason") as [r|]; [|discriminate]. exists r. auto.
  - exists (JStr d). map_simpl. auto.
Qed.

Lemma or_reason_default d json :
  truthy (json !! "reason") = false -> or_reason d json !! "reason" = Some (JStr d).
Proof. intros E. unfold or_reason. rewrite E. now map_simpl. Qed.

Lemma is_true_spec v : is_true v = true <-> v = Some (JBool true).
Proof.
  split; [|now intros ->]. destruct v as [[| [] | | | |]|]; simpl; congruence.
Qed.

(** The scrub touches [cannot_answer], [answer], [missing] and [reason] only. *)
Lemma scrub_other paths json j k :
  scrub paths json = Some j ->
  k <> "cannot_answer" -> k <> "answer" -> k <> "missing" -> k <> "reason" ->
  j !! k = json !! k.
Proof.
  unfold scrub. intros H ? ? ? ?.
  destruct (nonempty _); [|congruence].
  destruct (negb _); [|congruence].
  destruct (_ !! "missing") as [[]|]; try discriminate.
  injection H as <-. rewrite or_reason_other by auto.
  rewrite !lookup_insert_ne by congruence.
  destruct (is_nil _); auto. now rewrite lookup_insert_ne by congruence.
Qed.

Lemma scrub_cannot_answer paths json j :
  scrub paths json = Some j ->
  json !! "cannot_answer" = Some (JBool false) -> j !! "cannot_answer" = Some (JBool false).
Proof.
  unfold scrub. intros H Hc.
  destruct (nonempty _); [|congruence].
  destruct (negb _); [|congruence].
  destruct (_ !! "missing") as [[]|]; try discriminate.
  injection H as <-. rewrite or_reason_other by discriminate.
  rewrite !lookup_insert_ne by discriminate.
  destruct (is_nil _); auto. now map_simpl.
Qed.

Lemma scrub_reason paths json j r :
  scrub paths json = Some j -> json !! "reason" = Some r ->
  exists r', j !! "reason" = Some r' /\
    (truthy (Some r') = true \/ r' = r).
Proof.
  unfold scrub. intros H Hr.
  destruct (nonempty _); [|injection H as <-; eauto].
  destruct (negb _); [|injection H as <-; eauto].
  destruct (_ !! "missing") as [[]|]; try discriminate.
  injection H as <-.
  destruct (or_reason_present REMOVED_REASON
    (<["missing":=JArr (fold_left add_missing
        (List.map (fun u => str (strip_ext u))
           (unknown_tokens paths (chars (answer_text json)))) l)]>
     (<["answer":=JStr (if is_nil (scrubbed_text paths (unknown_tokens paths (chars (answer_text json))) (chars (answer_text json))) then ABSENT_SENTENCE else str (scrubbed_text paths (unknown_tokens paths (chars (answer_text json))) (chars (answer_text json))))]>
        (if is_nil (scrubbed_text paths (unknown_tokens paths (chars (answer_text json))) (chars (answer_text json))) then <["cannot_answer":=JBool false]> json else json))))
    as (r' & E & [T|T]).
  - exists r'. auto.
  - exists r'. split; auto. left. subst r'. reflexivity.
Qed.

Lemma scrub_total paths json :
  isArray (json !! "missing") = true -> exists j, scrub paths json = Some j.
Proof.
  intros Hm. unfold scrub.
  destruct (nonempty _); [|eauto].
  destruct (negb _); [|eauto].
  rewrite lookup_insert_ne by discriminate.
  assert (E : (if is_nil (scrubbed_text paths (unknown_tokens paths (chars (answer_text json))) (chars (answer_text json))) then <["cannot_answer":=JBool false]> json else json) !! "missing" = json !! "missing").
  { destruct (is_nil _); auto. now rewrite lookup_insert_ne by discriminate. }
  rewrite E. destruct (json !! "missing") as [[]|]; try discriminate. eauto.
Qed.

Lemma carry_on_other json k :
  k <> "cannot_answer" -> k <> "reason" -> carry_on json !! k = json !! k.
Proof.
  intros. unfold carry_on. rewrite or_reason_other by auto. now rewrite lookup_insert_ne by congruence.
Qed.

Lemma refuse_other json k :
  k <> "cannot_answer" -> k <> "answer" -> k <> "references" -> k <> "trace" ->
  k <> "missing" -> k <> "reason" -> refuse json !! k = json !! k.
Proof.
  intros. unfold refuse. rewrite or_reason_other by auto.
  now rewrite !lookup_insert_ne by congruence.
Qed.

(** With at least one retrieved file the validator ends in one of two ways,
    decided by the model's own [cannot_answer]. *)
Lemma validateAnswer_cases fd json :
  files fd <> [] ->
  (is_true (json !! "cannot_answer") = true /\
   validateAnswer fd json = ResultEvent (refuse (prepared fd json)))
  \/
  (is_true (json !! "cannot_answer") = false /\
   exists w, scrub (availablePaths fd) (carry_on (prepared fd json)) = Some w /\
             validateAnswer fd json = ResultEvent w).
Proof.
  intros Hf. unfold validateAnswer, refuses.
  rewrite (prepared_other fd json "cannot_answer") by discriminate.
  destruct (is_true (json !! "cannot_answer")) eqn:Hc; [left; auto|right].
  split; auto.
  destruct (prepared_references fd json) as (refs & Hr & _ & Hne).
  rewrite Hr. destruct refs as [|r refs]; [now destruct (Hne Hf Hc)|].
  cbn [elements is_nil].
  destruct (scrub_total (availablePaths fd) (carry_on (prepared fd json))) as [w Hw].
  { rewrite carry_on_other by discriminate. now rewrite prepared_missing. }
  exists w. rewrite Hw. auto.
Qed.

(** C1. For a non-empty retrieval the validator always produces an answer,
    and in it every element of [sources] is one of the retrieved paths and
    every element of [references] has one of them as its [path], back-filled
    entries included. *)
Theorem validated_paths_grounded (fd : RetrievalResult) (json : gmap string Json) :
  files fd <> [] ->
  exists w srcs refs,
    validateAnswer fd json = ResultEvent w /\
    w !! "sources" = Some (JArr srcs) /\ Forall (path_grounded fd) srcs /\
    w !! "references" = Some (JArr refs) /\ Forall (reference_grounded fd) refs.
Proof.
  intros Hf.
  destruct (prepared_references fd json) as (refs & Hr & Gr & _).
  destruct (validateAnswer_cases fd json Hf) as [[_ E]|[_ (w & Hw & E)]].
  - exists (refuse (prepared fd json)), (final_sources fd json), [].
    split; auto. rewrite refuse_other by discriminate.
    split; [apply prepared_sources|]. split; [apply final_sources_ok|].
    split; [|constructor]. unfold refuse. rewrite or_reason_other by discriminate.
    now map_simpl.
  - exists w, (final_sources fd json), refs. split; auto.
    rewrite !(scrub_other _ _ _ _ Hw), !carry_on_other by discriminate.
    split; [apply prepared_sources|]. split; [apply final_sources_ok|]. auto.
Qed.

Lemma nonempty_NOT_PRESENT : nonempty NOT_PRESENT_REASON = true.
Proof. reflexivity. Qed.

(** C4. For a non-empty retrieval the final [cannot_answer] is [true]
    exactly when the model set it to [true], or when [references] is still
    empty after filtering and back-fill and the answer is empty or white
    space.  Then answer, references, trace and missing are empty and
    [reason] is set (the canonical one when the model gave none); otherwise
    [cannot_answer] is [false] and [reason] is present, at least as the empty
    string. *)
Theorem cannot_answer_resolution (fd : RetrievalResult) (json : gmap string Json) :
  files fd <> [] ->
  exists w,
    validateAnswer fd json = ResultEvent w /\
    (w !! "cannot_answer" = Some (JBool true) <->
       json !! "cannot_answer" = Some (JBool true) \/
       (elements (prepared fd json !! "references") = [] /\
        blank_answer (prepared fd json !! "answer") = Some true)) /\
    (w !! "cannot_answer" = Some (JBool true) ->
       w !! "answer" = Some (JStr "") /\ w !! "references" = Some (JArr []) /\
       w !! "trace" = Some (JArr []) /\ w !! "missing" = Some (JArr []) /\
       truthy (w !! "reason") = true /\
       (truthy (json !! "reason") = false -> w !! "reason" = Some (JStr NOT_PRESENT_REASON))) /\
    (w !! "cannot_answer" <> Some (JBool true) ->
       w !! "cannot_answer" = Some (JBool false) /\
       exists r, w !! "reason" = Some r /\ (truthy (Some r) = true \/ r = JStr "")).
Proof.
  intros Hf.
  destruct (validateAnswer_cases fd json Hf) as [[Hc E]|[Hc (w & Hw & E)]].
  - exists (refuse (prepared fd json)). split; auto.
    assert (Hca : refuse (prepared fd json) !! "cannot_answer" = Some (JBool true)).
    { unfold refuse. rewrite or_reason_other by discriminate. now map_simpl. }
    split; [|split].
    + split; auto. intros _. left. now apply is_true_spec.
    + intros _. unfold refuse.
      rewrite !or_reason_other by discriminate. map_simpl.
      repeat split; auto.
      * apply or_reason_truthy. reflexivity.
      * intros Hr. apply or_reason_default. map_simpl.
        now rewrite prepared_other by discriminate.
    + congruence.
  - exists w. split; auto.
    assert (Hca : w !! "cannot_answer" = Some (JBool false)).
    { apply (scrub_cannot_answer _ _ _ Hw). unfold carry_on.
      rewrite or_reason_other by discriminate. now map_simpl. }
    destruct (prepared_references fd json) as (refs & Hr & _ & Hne).
    split; [|split].
    + split; [congruence|]. intros [H|[H _]].
      * apply is_true_spec in H. congruence.
      * rewrite Hr in H. simpl in H. now destruct (Hne Hf Hc).
    + congruence.
    + intros _. split; auto.
      destruct (or_reason_present "" (<["cannot_answer":=JBool false]> (prepared fd json)))
        as (r & Er & Tr).
      destruct (scrub_reason _ _ _ r Hw Er) as (r' & Er' & [T|T]); subst; eauto.
Qed.

(** C10. When the validator ends with [cannot_answer = true] on a non-empty
    retrieval, answer, references, trace and missing are emptied while
    [sources] is exactly the model's sources that passed the grounding
    filter: every grounded path the model listed is still there. *)
Theorem refusal_keeps_sources (fd : RetrievalResult) (json w : gmap string Json) :
  files fd <> [] ->
  validateAnswer fd json = ResultEvent w ->
  w !! "cannot_answer" = Some (JBool true) ->
  w !! "sources" = Some (JArr (grounded_sources fd json)) /\
  (forall p, In (JStr p) (elements (json !! "sources")) -> In p (allFetched fd) ->
             In (JStr p) (elements (w !! "sources"))) /\
  w !! "answer" = Some (JStr "") /\ w !! "references" = Some (JArr []) /\
  w !! "trace" = Some (JArr []) /\ w !! "missing" = Some (JArr []).
Proof.
  intros Hf E Hw.
  destruct (validateAnswer_cases fd json Hf) as [[Hc E']|[Hc (w' & Hw' & E')]].
  - rewrite E' in E. injection E as <-.
    assert (Hs : refuse (prepared fd json) !! "sources" = Some (JArr (grounded_sources fd json))).
    { rewrite refuse_other, prepared_sources by discriminate.
      unfold final_sources. rewrite Hc. now rewrite !andb_false_r. }
    split; auto. split.
    + intros p Hp Hin. rewrite Hs. simpl. unfold grounded_sources.
      apply filter_In. split; auto. simpl. now apply has_In.
    + unfold refuse. rewrite !or_reason_other by discriminate. map_simpl.
      repeat split; reflexivity.
  - rewrite E' in E. injection E as <-. exfalso.
    assert (Hca : w' !! "cannot_answer" = Some (JBool false)).
    { apply (scrub_cannot_answer _ _ _ Hw'). unfold carry_on.
      rewrite or_reason_other by discriminate. now map_simpl. }
    congruence.
Qed.

Lemma validated_paths_grounded_witness :
  exists w srcs refs,
    validateAnswer one_file ungrounded_answer = ResultEvent w /\
    w !! "sources" = Some (JArr srcs) /\ Forall (path_grounded one_file) srcs /\
    w !! "references" = Some (JArr refs) /\ Forall (reference_grounded one_file) refs.
Proof. apply (validated_paths_grounded one_file ungrounded_answer). discriminate. Defined.

Lemma cannot_answer_resolution_witness :
  exists w, validateAnswer one_file refusing_answer = ResultEvent w /\
            w !! "cannot_answer" = Some (JBool true).
Proof.
  destruct (cannot_answer_resolution one_file refusing_answer) as (w & E & [_ H] & _).
  - discriminate.
  - exists w. split; [exact E|]. apply H. left. reflexivity.
Defined.

Lemma refusal_keeps_sources_witness :
  refuse (prepared one_file refusing_answer) !! "sources" = Some (JArr [JStr "main.js"]).
Proof.
  destruct (refusal_keeps_sources one_file refusing_answer
              (refuse (prepared one_file refusing_answer))) as [H _].
  - discriminate.
  - vm_compute. reflexivity.
  - vm_compute. reflexivity.
  - rewrite H. vm_compute. reflexivity.
Defined.

(** * The short circuit on an empty retrieval *)

Lemma no_files_walkthrough_fields :
  no_files_walkthrough !! "answer" = Some (JStr "") /\
  no_files_walkthrough !! "references" = Some (JArr []) /\
  no_files_walkthrough !! "trace" = Some (JArr []) /\
  no_files_walkthrough !! "sources" = Some (JArr []) /\
  no_files_walkthrough !! "missing" = Some (JArr []) /\
  no_files_walkthrough !! "cannot_answer" = Some (JBool true) /\
  no_files_walkthrough !! "reason" = Some (JStr NO_FILES_REASON).
Proof.
  unfold no_files_walkthrough.
  repeat split;
    repeat first [ rewrite lookup_insert_eq | rewrite lookup_insert_ne by discriminate ];
    reflexivity.
Qed.

Lemma NO_FILES_REASON_names_causes :
  nonempty NO_FILES_REASON = true /\
  includes NO_FILES_REASON "rate limit" = true /\
  includes NO_FILES_REASON "private repo" = true /\
  includes NO_FILES_REASON "invalid repository" = true.
Proof. vm_compute. repeat split; reflexivity. Qed.

(** C3. When retrieval yields no file the handler sends the canonical
    cannot-answer object, whatever the model client would have answered and
    whatever the JSON parser does: the completion oracle is never consulted. *)
Theorem empty_retrieval_short_circuit (JSON_parse : string -> option Json)
    (engine : Engine) (gh : GitHub) (rules : Rules)
    (openai : option OpenAI) (question : string) :
  nonempty question = true ->
  files (fetchRepoTreeAndFiles engine gh rules (openai ≫= embeddings) walkthrough_opts
           question) = [] ->
  walkthrough JSON_parse engine gh rules openai question
    = Stream (ResultEvent no_files_walkthrough) /\
  no_files_walkthrough !! "answer" = Some (JStr "") /\
  no_files_walkthrough !! "references" = Some (JArr []) /\
  no_files_walkthrough !! "trace" = Some (JArr []) /\
  no_files_walkthrough !! "sources" = Some (JArr []) /\
  no_files_walkthrough !! "missing" = Some (JArr []) /\
  no_files_walkthrough !! "cannot_answer" = Some (JBool true) /\
  no_files_walkthrough !! "reason" = Some (JStr NO_FILES_REASON) /\
  nonempty NO_FILES_REASON = true /\
  includes NO_FILES_REASON "rate limit" = true /\
  includes NO_FILES_REASON "private repo" = true /\
  includes NO_FILES_REASON "invalid repository" = true.
Proof.
  intros Hq Hf. split.
  - unfold walkthrough. rewrite Hq, Hf. reflexivity.
  - pose proof no_files_walkthrough_fields. pose proof NO_FILES_REASON_names_causes. tauto.
Qed.

Lemma empty_retrieval_short_circuit_witness :
  walkthrough (fun _ => Some (JObj ∅)) idle_engine unreachable_repo no_rules
    (Some chatty_client) "where is auth?"
  = Stream (ResultEvent no_files_walkthrough).
Proof.
  apply (empty_retrieval_short_circuit (fun _ => Some (JObj ∅)) idle_engine
           unreachable_repo no_rules
           (Some chatty_client) "where is auth?"); reflexivity.
Defined.

(** * The stable sort *)

Section SortBy.

Context {A : Type}.
Variable cmp : A -> A -> Z.

Lemma insert_by_perm (x : A) (l : list A) : Permutation (x :: l) (insert_by cmp x l).
Proof.
  induction l as [|y l IH]; simpl; [reflexivity|].
  destruct (cmp x y <=? 0); [reflexivity|].
  rewrite perm_swap. now constructor.
Qed.

Lemma sort_by_perm (l : list A) : Permutation l (sort_by cmp l).
Proof.
  induction l as [|x l IH]; simpl; [reflexivity|].
  rewrite <- insert_by_perm. now constructor.
Qed.

Lemma sort_by_In (x : A) (l : list A) : In x (sort_by cmp l) <-> In x l.
Proof.
  split; apply Permutation_in; [symmetry|]; apply sort_by_perm.
Qed.

Lemma sort_by_length (l : list A) : List.length (sort_by cmp l) = List.length l.
Proof. symmetry. apply Permutation_length, sort_by_perm. Qed.

(** A comparator that orders: whatever is not before is after, and the
    order is transitive. *)
Hypothesis cmp_total : forall x y, 0 < cmp x y -> cmp y x <= 0.
Hypothesis cmp_trans : forall x y z, cmp x y <= 0 -> cmp y z <= 0 -> cmp x z <= 0.

Lemma insert_by_sorted (x : A) (l : list A) :
  StronglySorted (fun a b => cmp a b <= 0) l ->
  StronglySorted (fun a b => cmp a b <= 0) (insert_by cmp x l).
Proof.
  induction 1 as [|y l Hs IH Hy]; simpl.
  - repeat constructor.
  - destruct (cmp x y <=? 0) eqn:E.
    + apply Z.leb_le in E. constructor; [now constructor|].
      constructor; auto. eapply List.Forall_impl; [|exact Hy].
      intros z Hz. eapply cmp_trans; eauto.
    + apply Z.leb_gt in E. constructor; auto.
      eapply Permutation_Forall; [apply insert_by_perm|].
      constructor; auto.
Qed.

Lemma sort_by_sorted (l : list A) : StronglySorted (fun a b => cmp a b <= 0) (sort_by cmp l).
Proof.
  induction l as [|x l IH]; simpl; [constructor|]. now apply insert_by_sorted.
Qed.

End SortBy.

(** Positions in a sorted list respect the order. *)
Lemma StronglySorted_nth {A} (R : A -> A -> Prop) (l : list A) :
  StronglySorted R l ->
  forall i j a b, (i < j)%nat -> nth_error l i = Some a -> nth_error l j = Some b -> R a b.
Proof.
  induction 1 as [|x l Hs IH Hx]; intros i j a b Hij Ha Hb.
  - destruct i; discriminate.
  - destruct j as [|j]; [exfalso; lia|]. simpl in Hb.
    destruct i as [|i]; simpl in Ha.
    + injection Ha as <-. rewrite List.Forall_forall in Hx. apply Hx.
      eapply nth_error_In; eauto.
    + apply (IH i j a b); auto. lia.
Qed.

(** Sorting related lists with comparators that agree gives related lists. *)
Lemma sort_by_Forall2 {A B} (R : A -> B -> Prop) (c1 : A -> A -> Z) (c2 : B -> B -> Z) :
  (forall a a' b b', R a b -> R a' b' -> c1 a a' = c2 b b') ->
  forall l l', Forall2 R l l' -> Forall2 R (sort_by c1 l) (sort_by c2 l').
Proof.
  intros Hc.
  assert (Hi : forall a b, R a b -> forall l l', Forall2 R l l' ->
                Forall2 R (insert_by c1 a l) (insert_by c2 b l')).
  { intros a b Hab. induction 1 as [|x y l l' Hxy Hl IH]; simpl.
    - repeat constructor; auto.
    - rewrite (Hc a x b y Hab Hxy). destruct (c2 b y <=? 0); repeat constructor; auto. }
  induction 1; simpl; [constructor|]. now apply Hi.
Qed.

(** * The budgeted selector *)

Lemma or_else_cases (x y : Z) : (x = 0 /\ or_else x y = y) \/ (x <> 0 /\ or_else x y = x).
Proof. unfold or_else. destruct (Z.eqb_spec x 0); auto. Qed.

Lemma by_score_total (x y : ScoredFile) : 0 < by_score x y -> by_score y x <= 0.
Proof.
  unfold by_score.
  destruct (or_else_cases (sf_score y - sf_score x) (depth (sf_path x) - depth (sf_path y)))
    as [[? ->]|[? ->]];
  destruct (or_else_cases (sf_score x - sf_score y) (depth (sf_path y) - depth (sf_path x)))
    as [[? ->]|[? ->]]; lia.
Qed.

Lemma by_score_trans (x y z : ScoredFile) :
  by_score x y <= 0 -> by_score y z <= 0 -> by_score x z <= 0.
Proof.
  unfold by_score.
  destruct (or_else_cases (sf_score y - sf_score x) (depth (sf_path x) - depth (sf_path y)))
    as [[? ->]|[? ->]];
  destruct (or_else_cases (sf_score z - sf_score y) (depth (sf_path y) - depth (sf_path z)))
    as [[? ->]|[? ->]];
  destruct (or_else_cases (sf_score z - sf_score x) (depth (sf_path x) - depth (sf_path z)))
    as [[? ->]|[? ->]]; lia.
Qed.

Lemma by_score_lexical (a a' b b' : ScoredFile) :
  lexical_fields a = lexical_fields b -> lexical_fields a' = lexical_fields b' ->
  by_score a a' = by_score b b'.
Proof.
  unfold lexical_fields, by_score. intros E E'.
  injection E as -> _ _ -> _. injection E' as -> _ _ -> _. reflexivity.
Qed.

(** ** Ranked admission *)

Lemma admit_ranked_spec (maxFiles maxBytes : Z) (fs : list ScoredFile) (r : RetrievalResult) :
  Z.of_nat (List.length (files r)) <= maxFiles -> totalBytes r <= maxBytes ->
  exists added rest,
    fs = added ++ rest /\
    files (admit_ranked maxFiles maxBytes fs r) = files r ++ List.map file_of added /\
    Z.of_nat (List.length (files (admit_ranked maxFiles maxBytes fs r))) <= maxFiles /\
    totalBytes (admit_ranked maxFiles maxBytes fs r) <= maxBytes.
Proof.
  revert r. induction fs as [|f fs IH]; intros r Hn Hb; simpl.
  - exists [], []. cbn [List.map app]. rewrite app_nil_r. repeat split; auto.
  - destruct (Z.leb_spec maxFiles (Z.of_nat (List.length (files r)))).
    { exists [], (f :: fs). cbn [List.map app]. rewrite app_nil_r. repeat split; auto. }
    destruct (Z.ltb_spec maxBytes (totalBytes r + sf_bytes f)).
    { exists [], (f :: fs). cbn [List.map app]. rewrite app_nil_r. repeat split; auto. }
    destruct (IH {| files := files r ++ [file_of f]; totalBytes := totalBytes r + sf_bytes f |})
      as (added & rest & -> & Hf & Hn' & Hb').
    + simpl. rewrite length_app. simpl. lia.
    + simpl. lia.
    + exists (f :: added), rest. repeat split; auto.
      rewrite Hf. cbn [List.map files]. rewrite <- List.app_assoc. reflexivity.
Qed.

Lemma admit_ranked_prefix (maxFiles maxBytes : Z) (fs : list ScoredFile) (r : RetrievalResult) :
  exists added rest,
    fs = added ++ rest /\
    files (admit_ranked maxFiles maxBytes fs r) = files r ++ List.map file_of added.
Proof.
  revert r. induction fs as [|f fs IH]; intros r; cbn [admit_ranked].
  - exists [], []. cbn [List.map app]. rewrite app_nil_r. auto.
  - destruct (maxFiles <=? _).
    { exists [], (f :: fs). cbn [List.map app]. rewrite app_nil_r. auto. }
    destruct (maxBytes <? _).
    { exists [], (f :: fs). cbn [List.map app]. rewrite app_nil_r. auto. }
    destruct (IH {| files := files r ++ [file_of f]; totalBytes := totalBytes r + sf_bytes f |})
      as (added & rest & -> & Hf).
    exists (f :: added), rest. split; auto.
    rewrite Hf. cbn [List.map files]. rewrite <- List.app_assoc. reflexivity.
Qed.

(** ** Manifest back-fill *)

Lemma ensure_deps_frame (fetch_root : string -> option string) (maxBytes : Z)
    (deps : list string) (r : RetrievalResult) :
  exists extra,
    files (ensure_deps fetch_root maxBytes deps r) = files r ++ extra /\
    (List.length extra <= List.length deps)%nat /\
    Forall (is_manifest deps) extra.
Proof.
  revert r. induction deps as [|dep deps IH]; intros r; cbn [ensure_deps].
  - exists []. rewrite app_nil_r. auto.
  - assert (Hskip : exists extra,
      files (ensure_deps fetch_root maxBytes deps r) = files r ++ extra /\
      (List.length extra <= List.length (dep :: deps))%nat /\
      Forall (is_manifest (dep :: deps)) extra).
    { destruct (IH r) as (extra & E & L & F). exists extra.
      split; [exact E|]. split; [cbn [List.length]; lia|].
      eapply List.Forall_impl; [|exact F].
      intros f (? & ? & ? & ?). repeat split; auto. now right. }
    destruct (List.existsb _ (files r)); auto.
    destruct (fetch_root dep) as [content|]; auto.
    destruct (_ <=? _); auto.
    destruct (IH {| files := files r ++
                      [{| f_path := dep; f_content := content; f_truncated := None;
                          f_bytes := None; f_score := None |}];
                    totalBytes := totalBytes r + byteLength content |})
      as (extra & E & L & F).
    eexists (_ :: extra). rewrite E. cbn [files List.length]. rewrite <- List.app_assoc.
    split; [reflexivity|]. split; [lia|].
    constructor.
    + repeat split; auto. now left.
    + eapply List.Forall_impl; [|exact F].
      intros f (? & ? & ? & ?). repeat split; auto. now right.
Qed.

Lemma ensure_deps_budget (fetch_root : string -> option string) (maxBytes : Z)
    (deps : list string) (r : RetrievalResult) :
  totalBytes r <= maxBytes -> totalBytes (ensure_deps fetch_root maxBytes deps r) <= maxBytes.
Proof.
  revert r. induction deps as [|dep deps IH]; intros r Hb; cbn [ensure_deps]; auto.
  destruct (List.existsb _ (files r)); auto.
  destruct (fetch_root dep) as [content|]; auto.
  destruct (Z.leb_spec (totalBytes r + byteLength content) maxBytes); auto.
Qed.

(** ** The scoring loop *)

Lemma score_loop_spec (fetch : string -> option string) (kws : list (list ascii))
    (maxFiles maxBytes : Z) (result : RetrievalResult) (items : list TreeEntry)
    (scored : list ScoredFile) (requested : list string) :
  score_loop fetch kws maxFiles maxBytes result items scored requested =
  if (maxFiles <=? Z.of_nat (List.length (files result))) || (maxBytes <=? totalBytes result)
  then (scored, requested)
  else (scored ++ flat_map (scored_candidate fetch kws) items,
        requested ++ List.map t_path items).
Proof.
  revert scored requested. induction items as [|item items IH]; intros scored requested.
  - cbn [score_loop flat_map List.map]. rewrite !app_nil_r. now destruct (_ || _).
  - cbn [score_loop flat_map List.map].
    destruct (maxFiles <=? _) eqn:E1; [reflexivity|].
    destruct (maxBytes <=? _) eqn:E2; [reflexivity|].
    cbn [orb]. unfold scored_candidate at 1.
    destruct (fetch (t_path item)) as [content|].
    + rewrite IH. cbn [orb]. rewrite <- !List.app_assoc. reflexivity.
    + rewrite IH. cbn [orb]. rewrite <- !List.app_assoc. reflexivity.
Qed.

Lemma scoredFiles_spec (gh : GitHub) (rules : Rules) (opts : Opts) (question branch : string)
    (tree : list TreeEntry) :
  scoredFiles gh rules opts question branch tree =
  if (maxFiles_of opts <=? 0) || (maxBytes_of opts <=? 0) then ([], [])
  else (flat_map (scored_candidate (fun path => gh_contents gh path branch) (keywords question))
          (topCandidates rules tree),
        List.map t_path (topCandidates rules tree)).
Proof. unfold scoredFiles. rewrite score_loop_spec. reflexivity. Qed.

Lemma scored_candidate_In fetch kws item f :
  In f (scored_candidate fetch kws item) ->
  exists content, fetch (t_path item) = Some content /\ f = scored_of kws item content.
Proof.
  unfold scored_candidate. destruct (fetch _) as [c|]; [|intros []].
  intros [<-|[]]. eauto.
Qed.

Lemma topCandidates_length rules tree : (List.length (topCandidates rules tree) <= 500)%nat.
Proof. unfold topCandidates. apply firstn_le_length. Qed.

(** ** Ranking keeps the pool *)

Lemma blend_lexical qVec qNorm fileVecs fs :
  Forall2 (fun a b => lexical_fields a = lexical_fields b) fs (fst (blend qVec qNorm fileVecs fs)).
Proof.
  revert fileVecs. induction fs as [|f fs IH]; intros fileVecs; cbn [blend].
  - constructor.
  - destruct (similarity _ _ _) as [sim|].
    + specialize (IH (List.tl fileVecs)).
      destruct (blend qVec qNorm (List.tl fileVecs) fs) as [rest' threw]. cbn [fst] in *.
      constructor; auto.
    + cbn [fst]. clear IH. induction (f :: fs); constructor; auto.
Qed.

Lemma Forall2_eq_refl {A B} (g : A -> B) (l : list A) : Forall2 (fun a b => g a = g b) l l.
Proof. induction l; constructor; auto. Qed.

Lemma embed_and_blend_lexical embed question scored :
  Forall2 (fun a b => lexical_fields a = lexical_fields b) scored
    (fst (embed_and_blend embed question scored)).
Proof.
  unfold embed_and_blend. destruct (embed _) as [vectors|]; [|apply Forall2_eq_refl].
  destruct (mjoin (hd_error vectors)); [apply blend_lexical|apply Forall2_eq_refl].
Qed.

Lemma Forall2_map_eq {A B} (g : A -> B) (l l' : list A) :
  Forall2 (fun a b => g a = g b) l l' -> List.map g l = List.map g l'.
Proof. induction 1; simpl; congruence. Qed.

Lemma js_sort_perm {A} (engine : Engine) (cmp : A -> A -> Z) (l : list A) :
  Permutation l (js_sort engine cmp l).
Proof.
  unfold js_sort. destruct (consistent cmp l); [apply sort_by_perm|apply engine_order_perm].
Qed.

(** The comparators on integers are consistent on every array, so that at
    their call sites [sort] is the stable sort whatever the engine. *)
Lemma consistent_intro {A} (cmp : A -> A -> Z) (l : list A) :
  (forall a, cmp a a = 0) ->
  (forall a b, cmp a b = 0 -> cmp b a = 0) ->
  (forall a b c, cmp a b = 0 -> cmp b c = 0 -> cmp a c = 0) ->
  (forall a b c, cmp a b < 0 -> cmp b c < 0 -> cmp a c < 0) ->
  (forall a b c, 0 < cmp a b -> 0 < cmp b c -> 0 < cmp a c) ->
  consistent cmp l = true.
Proof.
  intros R S T0 T1 T2. unfold consistent.
  apply forallb_forall. intros a _. apply andb_true_iff. split; [apply Z.eqb_eq, R|].
  apply forallb_forall. intros b _. apply andb_true_iff. split.
  { destruct (Z.eqb_spec (cmp a b) 0) as [E|E]; cbn [implb]; [apply Z.eqb_eq; auto|reflexivity]. }
  apply forallb_forall. intros c _. rewrite !andb_true_iff. repeat split.
  - destruct (Z.eqb_spec (cmp a b) 0) as [E|E]; cbn [andb implb]; [|reflexivity].
    destruct (Z.eqb_spec (cmp b c) 0) as [E'|E']; cbn [implb]; [|reflexivity].
    apply Z.eqb_eq. eauto.
  - destruct (Z.ltb_spec (cmp a b) 0) as [E|E]; cbn [andb implb]; [|reflexivity].
    destruct (Z.ltb_spec (cmp b c) 0) as [E'|E']; cbn [implb]; [|reflexivity].
    apply Z.ltb_lt. eauto.
  - destruct (Z.ltb_spec 0 (cmp a b)) as [E|E]; cbn [andb implb]; [|reflexivity].
    destruct (Z.ltb_spec 0 (cmp b c)) as [E'|E']; cbn [implb]; [|reflexivity].
    apply Z.ltb_lt. eauto.
Qed.

Lemma by_score_consistent (l : list ScoredFile) : consistent by_score l = true.
Proof.
  apply consistent_intro; unfold by_score.
  - intros a. unfold or_else. now rewrite !Z.sub_diag.
  - intros a b.
    destruct (or_else_cases (sf_score b - sf_score a) (depth (sf_path a) - depth (sf_path b)))
      as [[? ->]|[? ->]];
    destruct (or_else_cases (sf_score a - sf_score b) (depth (sf_path b) - depth (sf_path a)))
      as [[? ->]|[? ->]]; lia.
  - intros a b c.
    destruct (or_else_cases (sf_score b - sf_score a) (depth (sf_path a) - depth (sf_path b)))
      as [[? ->]|[? ->]];
    destruct (or_else_cases (sf_score c - sf_score b) (depth (sf_path b) - depth (sf_path c)))
      as [[? ->]|[? ->]];
    destruct (or_else_cases (sf_score c - sf_score a) (depth (sf_path a) - depth (sf_path c)))
      as [[? ->]|[? ->]]; lia.
  - intros a b c.
    destruct (or_else_cases (sf_score b - sf_score a) (depth (sf_path a) - depth (sf_path b)))
      as [[? ->]|[? ->]];
    destruct (or_else_cases (sf_score c - sf_score b) (depth (sf_path b) - depth (sf_path c)))
      as [[? ->]|[? ->]];
    destruct (or_else_cases (sf_score c - sf_score a) (depth (sf_path a) - depth (sf_path c)))
      as [[? ->]|[? ->]]; lia.
  - intros a b c.
    destruct (or_else_cases (sf_score b - sf_score a) (depth (sf_path a) - depth (sf_path b)))
      as [[? ->]|[? ->]];
    destruct (or_else_cases (sf_score c - sf_score b) (depth (sf_path b) - depth (sf_path c)))
      as [[? ->]|[? ->]];
    destruct (or_else_cases (sf_score c - sf_score a) (depth (sf_path a) - depth (sf_path c)))
      as [[? ->]|[? ->]]; lia.
Qed.

Lemma by_structure_consistent (l : list TreeEntry) : consistent by_structure l = true.
Proof.
  apply consistent_intro; unfold by_structure.
  - intros a. unfold or_else. now rewrite !Z.sub_diag.
  - intros a b.
    destruct (or_else_cases (depth (t_path a) - depth (t_path b)) (size_or_0 b - size_or_0 a))
      as [[? ->]|[? ->]];
    destruct (or_else_cases (depth (t_path b) - depth (t_path a)) (size_or_0 a - size_or_0 b))
      as [[? ->]|[? ->]]; lia.
  - intros a b c.
    destruct (or_else_cases (depth (t_path a) - depth (t_path b)) (size_or_0 b - size_or_0 a))
      as [[? ->]|[? ->]];
    destruct (or_else_cases (depth (t_path b) - depth (t_path c)) (size_or_0 c - size_or_0 b))
      as [[? ->]|[? ->]];
    destruct (or_else_cases (depth (t_path a) - depth (t_path c)) (size_or_0 c - size_or_0 a))
      as [[? ->]|[? ->]]; lia.
  - intros a b c.
    destruct (or_else_cases (depth (t_path a) - depth (t_path b)) (size_or_0 b - size_or_0 a))
      as [[? ->]|[? ->]];
    destruct (or_else_cases (depth (t_path b) - depth (t_path c)) (size_or_0 c - size_or_0 b))
      as [[? ->]|[? ->]];
    destruct (or_else_cases (depth (t_path a) - depth (t_path c)) (size_or_0 c - size_or_0 a))
      as [[? ->]|[? ->]]; lia.
  - intros a b c.
    destruct (or_else_cases (depth (t_path a) - depth (t_path b)) (size_or_0 b - size_or_0 a))
      as [[? ->]|[? ->]];
    destruct (or_else_cases (depth (t_path b) - depth (t_path c)) (size_or_0 c - size_or_0 b))
      as [[? ->]|[? ->]];
    destruct (or_else_cases (depth (t_path a) - depth (t_path c)) (size_or_0 c - size_or_0 a))
      as [[? ->]|[? ->]]; lia.
Qed.

Lemma js_sort_consistent {A} (engine : Engine) (cmp : A -> A -> Z) (l : list A) :
  consistent cmp l = true -> js_sort engine cmp l = sort_by cmp l.
Proof. unfold js_sort. now intros ->. Qed.

Lemma rank_perm (engine : Engine) openai question scored :
  Permutation (List.map lexical_fields scored)
    (List.map lexical_fields (rank engine openai question scored)).
Proof.
  unfold rank. destruct openai as [embed|]; [|apply Permutation_map, sort_by_perm].
  destruct (_ && _); [|apply Permutation_map, sort_by_perm].
  pose proof (embed_and_blend_lexical embed question scored) as H.
  destruct (embed_and_blend embed question scored) as [l threw]. cbn [fst] in H.
  rewrite (Forall2_map_eq _ _ _ H).
  destruct threw; apply Permutation_map; [apply sort_by_perm|apply js_sort_perm].
Qed.

Lemma rank_paths (engine : Engine) openai question scored f :
  In f (rank engine openai question scored) -> In (sf_path f) (List.map sf_path scored).
Proof.
  intros Hf.
  assert (In (lexical_fields f) (List.map lexical_fields scored)) as H.
  { eapply Permutation_in; [symmetry; apply (rank_perm engine openai question)|].
    apply List.in_map, Hf. }
  apply in_map_iff in H as (g & E & Hg). apply in_map_iff. exists g. split; auto.
  unfold lexical_fields in E. congruence.
Qed.

(** ** Budget *)

(** C2 as stated fails: with [maxFiles = 1] the ranked pass admits [a.js]
    and the manifest pass, which tests the byte budget only, adds
    [package.json]. *)
Lemma budget_invariant_counterexample :
  let opts := {| o_maxFiles := Some 1; o_maxBytes := None |} in
  let r := fetchRepoTreeAndFiles idle_engine small_repo no_rules None opts "where is auth" in
  List.map f_path (files r) = ["a.js"; "package.json"] /\
  ~ (Z.of_nat (List.length (files r)) <= maxFiles_of opts /\ totalBytes r <= maxBytes_of opts).
Proof.
  vm_compute. split; [reflexivity|]. intros [H _]. apply H. reflexivity.
Qed.

(** C2, amended.  For non-negative caps the byte total never exceeds
    [maxBytes]; the ranked pass admits at most [maxFiles] files; the manifest
    pass adds at most the three manifest files on top, whatever the count. *)
Theorem budget_invariant_amended (engine : Engine) (gh : GitHub) (rules : Rules)
    (openai : option Embedder) (opts : Opts) (question : string) :
  0 <= maxFiles_of opts -> 0 <= maxBytes_of opts ->
  let r := fetchRepoTreeAndFiles engine gh rules openai opts question in
  totalBytes r <= maxBytes_of opts /\
  exists ranked manifests,
    files r = ranked ++ manifests /\
    Z.of_nat (List.length ranked) <= maxFiles_of opts /\
    (List.length manifests <= 3)%nat /\
    Forall (is_manifest depFiles) manifests /\
    Z.of_nat (List.length (files r)) <= maxFiles_of opts + 3.
Proof.
  intros HF HB r. subst r. unfold fetchRepoTreeAndFiles.
  assert (E0 : totalBytes empty_result <= maxBytes_of opts /\
    exists ranked manifests : list File,
      files empty_result = ranked ++ manifests /\
      Z.of_nat (List.length ranked) <= maxFiles_of opts /\
      (List.length manifests <= 3)%nat /\ Forall (is_manifest depFiles) manifests /\
      Z.of_nat (List.length (files empty_result)) <= maxFiles_of opts + 3).
  { split; [exact HB|]. exists [], []. cbn. repeat split; auto; lia. }
  destruct (gh_repo gh) as [b|]; [|exact E0].
  destruct (gh_tree gh (default_branch b)) as [tree|]; [|exact E0].
  cbv zeta.
  set (ranked := rank engine openai question _).
  destruct (admit_ranked_spec (maxFiles_of opts) (maxBytes_of opts) ranked empty_result)
    as (added & rest & _ & Hf & Hn & Hb); [exact HF|exact HB|].
  destruct (ensure_deps_frame (gh_contents_root gh) (maxBytes_of opts) depFiles
              (admit_ranked (maxFiles_of opts) (maxBytes_of opts) ranked empty_result))
    as (extra & He & Hl & Hm).
  split; [now apply ensure_deps_budget|].
  exists (files (admit_ranked (maxFiles_of opts) (maxBytes_of opts) ranked empty_result)), extra.
  repeat split; auto.
  rewrite He, length_app. cbn [List.length depFiles] in Hl. lia.
Qed.

Lemma budget_invariant_amended_witness :
  totalBytes (fetchRepoTreeAndFiles idle_engine small_repo no_rules None
                {| o_maxFiles := Some 1; o_maxBytes := None |} "where is auth") <= 200000.
Proof.
  apply (budget_invariant_amended idle_engine small_repo no_rules None
           {| o_maxFiles := Some 1; o_maxBytes := None |} "where is auth").
  - vm_compute. discriminate.
  - vm_compute. discriminate.
Defined.

(** ** Scoring window *)

(** C9. Only entries among the first 500 of the filtered, structurally
    sorted candidates have their content requested or are scored, and a file
    of the result is one of them or was pushed by the manifest pass. *)
Theorem scoring_window (engine : Engine) (gh : GitHub) (rules : Rules)
    (openai : option Embedder) (opts : Opts) (question : string) (b : option string)
    (tree : list TreeEntry) :
  gh_repo gh = Some b -> gh_tree gh (default_branch b) = Some tree ->
  let window := topCandidates rules tree in
  let pool := scoredFiles gh rules opts question (default_branch b) tree in
  window = firstn 500 (sort_by by_structure
             (List.filter (passes_rules rules) (List.filter is_candidate tree))) /\
  (List.length window <= 500)%nat /\
  (forall path, In path (snd pool) -> In path (List.map t_path window)) /\
  (forall f, In f (fst pool) -> In (sf_path f) (List.map t_path window)) /\
  (forall f, In f (files (fetchRepoTreeAndFiles engine gh rules openai opts question)) ->
     In (f_path f) (List.map t_path window) \/ is_manifest depFiles f).
Proof.
  intros Hrepo Htree window pool.
  assert (Hreq : forall path, In path (snd pool) -> In path (List.map t_path window)).
  { subst pool. rewrite scoredFiles_spec. destruct (_ || _); cbn [snd]; [intros ? []|auto]. }
  assert (Hpool : forall f, In f (fst pool) -> In (sf_path f) (List.map t_path window)).
  { subst pool. rewrite scoredFiles_spec. destruct (_ || _); cbn [fst]; [intros ? []|].
    intros f Hf. apply in_flat_map in Hf as (item & Hi & Hf).
    apply scored_candidate_In in Hf as (content & _ & ->).
    apply in_map_iff. exists item. auto. }
  split; [reflexivity|]. split; [apply topCandidates_length|].
  split; [exact Hreq|]. split; [exact Hpool|].
  intros f. unfold fetchRepoTreeAndFiles. rewrite Hrepo, Htree. cbv zeta.
  fold pool. set (ranked := rank engine openai question (fst pool)).
  destruct (admit_ranked_prefix (maxFiles_of opts) (maxBytes_of opts) ranked empty_result)
    as (added & rest & Hr & Hf).
  destruct (ensure_deps_frame (gh_contents_root gh) (maxBytes_of opts) depFiles
              (admit_ranked (maxFiles_of opts) (maxBytes_of opts) ranked empty_result))
    as (extra & He & _ & Hm).
  rewrite He, Hf. cbn [files empty_result app]. intros Hin.
  apply in_app_or in Hin as [Hin|Hin].
  - left. apply in_map_iff in Hin as (g & <- & Hg).
    change (f_path (file_of g)) with (sf_path g).
    assert (Hgr : In g ranked) by (rewrite Hr; apply in_or_app; auto).
    apply rank_paths in Hgr. apply in_map_iff in Hgr as (g' & E & Hg').
    rewrite <- E. now apply Hpool.
  - right. rewrite List.Forall_forall in Hm. auto.
Qed.

Lemma scoring_window_witness :
  (List.length (topCandidates no_rules
     [blob "src/b.js" 18; blob "a.js" 18; blob "package.json" 2]) <= 500)%nat.
Proof.
  destruct (scoring_window idle_engine small_repo no_rules None {| o_maxFiles := None; o_maxBytes := None |}
              "where is auth" (Some "main")
              [blob "src/b.js" 18; blob "a.js" 18; blob "package.json" 2] eq_refl eq_refl)
    as (_ & H & _).
  exact H.
Defined.

(** * The relevance scorer *)

Lemma chars_str (l : list ascii) : chars (str l) = l.
Proof. apply list_ascii_of_string_of_list_ascii. Qed.

Lemma str_chars (s : string) : str (chars s) = s.
Proof. apply string_of_list_ascii_of_string. Qed.

(** ** Keywords: [split(/\W+/)] against maximal word runs *)

Lemma split_nonword_not_nil (s : list ascii) : Js.split_nonword s <> [].
Proof.
  induction s as [|c t IH]; cbn [Js.split_nonword]; [discriminate|].
  destruct (Js.is_word c).
  - destruct (Js.split_nonword t); discriminate.
  - destruct t as [|c' t']; [discriminate|]. destruct (Js.is_word c'); [discriminate|exact IH].
Qed.

(** The first piece is empty exactly when the text does not start with a
    word character. *)
Lemma split_nonword_head (s : list ascii) :
  match s with
  | c :: _ => if Js.is_word c
              then exists p ps, Js.split_nonword s = (c :: p) :: ps
              else exists ps, Js.split_nonword s = [] :: ps
  | [] => Js.split_nonword s = [[]]
  end.
Proof.
  induction s as [|c t IH]; [reflexivity|]. cbn [Js.split_nonword].
  destruct (Js.is_word c) eqn:Ec.
  - destruct (Js.split_nonword t) as [|p ps] eqn:E; [now destruct (split_nonword_not_nil t)|].
    cbn. eauto.
  - destruct t as [|c' t']; [eauto|].
    destruct (Js.is_word c') eqn:Ec'; [eauto|]. exact IH.
Qed.

Lemma nonempty_pieces_are_word_runs (s : list ascii) :
  List.filter (fun w => negb (is_nil w)) (Js.split_nonword s) = word_runs s.
Proof.
  induction s as [|c t IH]; [reflexivity|].
  cbn [Js.split_nonword word_runs]. pose proof (split_nonword_head t) as H.
  destruct (Js.is_word c) eqn:Ec.
  - destruct t as [|c' t'].
    + reflexivity.
    + destruct (Js.is_word c') eqn:Ec'.
      * destruct H as (p & ps & E). rewrite <- IH, E. reflexivity.
      * destruct H as (ps & E). rewrite <- IH, E. reflexivity.
  - destruct t as [|c' t']; [reflexivity|].
    destruct (Js.is_word c') eqn:Ec'; [|exact IH].
    cbn [List.filter is_nil negb]. exact IH.
Qed.

Lemma filter_filter_weaker {A} (f g : A -> bool) (l : list A) :
  (forall x, f x = true -> g x = true) ->
  List.filter f (List.filter g l) = List.filter f l.
Proof.
  intros H. induction l as [|x l IH]; [reflexivity|]. cbn [List.filter].
  destruct (g x) eqn:G; cbn [List.filter].
  - now rewrite IH.
  - destruct (f x) eqn:F; [|exact IH]. rewrite (H x F) in G. discriminate.
Qed.

Lemma keywords_are_long_word_runs (question : string) :
  keywords question = question_keywords question.
Proof.
  unfold keywords, question_keywords. rewrite <- nonempty_pieces_are_word_runs.
  rewrite filter_filter_weaker; [reflexivity|].
  intros [|c w]; [discriminate|reflexivity].
Qed.

(** ** The two loops as sums *)

Lemma fold_left_sum {A} (g : A -> Z) (l : list A) (acc : Z) :
  fold_left (fun s k => s + g k) l acc = acc + sum_over g l.
Proof.
  revert acc. induction l as [|k l IH]; intros acc; cbn [fold_left sum_over fold_right].
  - lia.
  - rewrite IH. unfold sum_over. lia.
Qed.

Lemma path_loop_sum kws pathLower score :
  path_loop kws pathLower score
  = score + sum_over (fun k => if Js.includes pathLower k then 10 else 0) kws.
Proof.
  unfold path_loop. rewrite <- fold_left_sum. revert score.
  induction kws as [|k kws IH]; intros score; cbn [fold_left]; [reflexivity|].
  rewrite <- IH. destruct (Js.includes pathLower k); [reflexivity|]. now rewrite Z.add_0_r.
Qed.

Lemma relevance_formula (question : string) (item : TreeEntry) (content : string) :
  sf_score (scored_of (keywords question) item content)
  = lexical_score (question_keywords question) (sf_path (scored_of (keywords question) item content))
      (sf_content (scored_of (keywords question) item content)).
Proof.
  cbn [scored_of sf_score sf_path sf_content]. unfold relevance, lexical_score, content_loop.
  rewrite fold_left_sum, path_loop_sum, chars_str, keywords_are_long_word_runs. lia.
Qed.

(** C7. Every scored file carries the score of the formula: 10 per keyword
    contained in the lower-cased path plus, per keyword, its number of
    occurrences in the lower-cased (truncated) content capped at 20, the
    keywords being the word runs of the lower-cased question longer than 3;
    and with positive caps every window candidate whose content is fetched
    is scored. *)
Theorem lexical_score_formula (gh : GitHub) (rules : Rules) (opts : Opts)
    (question branch : string) (tree : list TreeEntry) :
  0 < maxFiles_of opts -> 0 < maxBytes_of opts ->
  let pool := fst (scoredFiles gh rules opts question branch tree) in
  (forall f, In f pool ->
     sf_score f = lexical_score (question_keywords question) (sf_path f) (sf_content f)) /\
  (forall item content,
     In item (topCandidates rules tree) ->
     gh_contents gh (t_path item) branch = Some content ->
     exists f, In f pool /\ sf_path f = t_path item /\
               sf_content f = str (truncate (chars content)) /\
               sf_score f = lexical_score (question_keywords question) (t_path item)
                              (str (truncate (chars content)))).
Proof.
  intros HF HB pool. subst pool. rewrite scoredFiles_spec.
  destruct (Z.leb_spec (maxFiles_of opts) 0); [lia|].
  destruct (Z.leb_spec (maxBytes_of opts) 0); [lia|]. cbn [orb fst]. split.
  - intros f Hf. apply in_flat_map in Hf as (item & _ & Hf).
    apply scored_candidate_In in Hf as (content & _ & ->). apply relevance_formula.
  - intros item content Hi Hc.
    exists (scored_of (keywords question) item content). split; [|split; [|split]].
    + apply in_flat_map. exists item. split; auto.
      unfold scored_candidate. rewrite Hc. now left.
    + reflexivity.
    + reflexivity.
    + apply relevance_formula.
Qed.

Lemma lexical_score_formula_witness :
  exists f, In f (fst (scoredFiles small_repo no_rules {| o_maxFiles := None; o_maxBytes := None |}
                         "where is auth" "main"
                         [blob "src/b.js" 18; blob "a.js" 18; blob "package.json" 2])) /\
            sf_path f = "a.js" /\ sf_score f = 1.
Proof.
  destruct (lexical_score_formula small_repo no_rules {| o_maxFiles := None; o_maxBytes := None |}
              "where is auth" "main" [blob "src/b.js" 18; blob "a.js" 18; blob "package.json" 2])
    as [_ H]; [reflexivity|reflexivity|].
  destruct (H (blob "a.js" 18) "function auth() {}") as (f & Hf & Hp & Hc & Hs).
  - vm_compute. auto.
  - reflexivity.
  - exists f. split; [exact Hf|]. split; [exact Hp|]. rewrite Hs. vm_compute. reflexivity.
Defined.

(** * Ranking *)

Lemma by_score_le (a b : ScoredFile) :
  by_score a b <= 0 <->
  sf_score b <= sf_score a /\ (sf_score a = sf_score b -> depth (sf_path a) <= depth (sf_path b)).
Proof.
  unfold by_score.
  destruct (or_else_cases (sf_score b - sf_score a) (depth (sf_path a) - depth (sf_path b)))
    as [[? ->]|[? ->]]; lia.
Qed.

Lemma sort_by_score_sorted (l : list ScoredFile) :
  StronglySorted (fun a b => by_score a b <= 0) (sort_by by_score l).
Proof. apply sort_by_sorted; [apply by_score_total|apply by_score_trans]. Qed.

(** In lexical mode the ranking is the lexical sort of the pool, up to the
    two fields a failed blend may have written. *)
Lemma rank_lexical (engine : Engine) (openai : option Embedder) (question : string)
    (scored : list ScoredFile) :
  lexical_mode openai question scored ->
  exists pool,
    rank engine openai question scored = sort_by by_score pool /\
    Forall2 (fun a b => lexical_fields a = lexical_fields b) scored pool.
Proof.
  unfold lexical_mode, rank. destruct openai as [embed|].
  2:{ intros _. exists scored. split; auto. apply Forall2_eq_refl. }
  intros H. destruct (nonempty question) eqn:Q; cbn [andb].
  2:{ exists scored. split; auto. apply Forall2_eq_refl. }
  destruct scored as [|f scored].
  { exists []. split; auto. }
  destruct (0 <? _) eqn:L.
  2:{ exists (f :: scored). split; auto. apply Forall2_eq_refl. }
  destruct H as [H|[H|H]]; try discriminate.
  pose proof (embed_and_blend_lexical embed question (f :: scored)) as HL.
  destruct (embed_and_blend embed question (f :: scored)) as [partial threw].
  cbn [fst snd] in *. subst threw. exists partial. auto.
Qed.

Lemma rank_lexical_fields (engine : Engine) (openai : option Embedder) (question : string)
    (scored : list ScoredFile) :
  lexical_mode openai question scored ->
  List.map lexical_fields (rank engine openai question scored)
  = List.map lexical_fields (sort_by by_score scored).
Proof.
  intros H. destruct (rank_lexical engine _ _ _ H) as (pool & -> & HF).
  symmetry. apply Forall2_map_eq.
  apply (sort_by_Forall2 (fun a b => lexical_fields a = lexical_fields b) by_score by_score);
    [|exact HF].
  intros. now apply by_score_lexical.
Qed.

(** C5. When the embedding call fails, at whatever point of the [try]
    block, the ranking is the lexical one: it lists the same files in the same
    order as the ranking computed with the re-ranker skipped, that order is by
    descending lexical score with ties going to the shallower path, and when
    the call itself throws the two rankings are equal field by field. *)
Theorem embedding_failure_is_lexical (engine : Engine) (embed : Embedder) (question : string)
    (scored : list ScoredFile) :
  snd (embed_and_blend embed question scored) = true ->
  let ranked := rank engine (Some embed) question scored in
  List.map lexical_fields ranked = List.map lexical_fields (rank engine None question scored) /\
  (forall i j a b, (i < j)%nat -> nth_error ranked i = Some a -> nth_error ranked j = Some b ->
     sf_score b <= sf_score a /\
     (sf_score a = sf_score b -> depth (sf_path a) <= depth (sf_path b))) /\
  (embed (question :: List.map (fun f => slice0 2000 (sf_content f)) scored) = None ->
   ranked = rank engine None question scored).
Proof.
  intros Hfail ranked.
  assert (Hmode : lexical_mode (Some embed) question scored) by (cbn; auto).
  split; [|split].
  - apply (rank_lexical_fields engine (Some embed) question scored Hmode).
  - intros i j a b Hij Ha Hb. apply by_score_le.
    destruct (rank_lexical engine _ _ _ Hmode) as (pool & E & _). subst ranked. rewrite E in Ha, Hb.
    exact (StronglySorted_nth _ _ (sort_by_score_sorted pool) i j a b Hij Ha Hb).
  - intros Hthrow. subst ranked. unfold rank, embed_and_blend. rewrite Hthrow.
    now destruct (_ && _).
Qed.

Lemma embedding_failure_is_lexical_witness :
  List.map sf_path (rank idle_engine (Some failing_embedder) "where is auth" two_scored)
  = ["a.js"; "src/b.js"].
Proof.
  pose proof (embedding_failure_is_lexical idle_engine failing_embedder "where is auth"
                two_scored eq_refl)
    as [_ [_ H]].
  rewrite (H eq_refl). vm_compute. reflexivity.
Defined.

(** ** Tie-break *)




(** * Text lemmas for the prose scrub *)

(** ** Characters *)

Lemma code_inj (a b : ascii) : Js.code a = Js.code b -> a = b.
Proof.
  unfold Js.code. intros H. rewrite <- (ascii_N_embedding a), <- (ascii_N_embedding b).
  now rewrite H.
Qed.

Lemma ascii_eqb_eq (a b : ascii) : Js.ascii_eqb a b = true <-> a = b.
Proof.
  unfold Js.ascii_eqb. rewrite N.eqb_eq. split; [apply code_inj|now intros ->].
Qed.

Lemma is_nl_LF (c : ascii) : Js.is_nl c = true <-> c = LF.
Proof.
  unfold Js.is_nl. rewrite N.eqb_eq. split; [|now intros ->].
  intros H. apply code_inj. exact H.
Qed.

Lemma space_not_pathish (c : ascii) : Js.is_space c = true -> Js.is_pathish c = false.
Proof. destruct c as [[] [] [] [] [] [] [] []]; vm_compute; congruence. Qed.

Lemma nl_is_space (c : ascii) : Js.is_nl c = true -> Js.is_space c = true.
Proof. intros H. apply is_nl_LF in H. now subst. Qed.

Lemma dot_is_pathish (c : ascii) : Js.is_dot c = true -> Js.is_pathish c = true.
Proof.
  unfold Js.is_dot, Js.is_pathish. intros ->. now rewrite orb_true_r.
Qed.

(** ** Prefixes and infixes *)

Lemma startsWith_spec (p s : list ascii) :
  Js.startsWith p s = true <-> exists t, s = p ++ t.
Proof.
  revert s. induction p as [|a p IH]; intros s; cbn [Js.startsWith].
  - split; eauto.
  - destruct s as [|b s].
    + split; [discriminate|]. intros [t H]. discriminate.
    + rewrite andb_true_iff, ascii_eqb_eq, IH. split.
      * intros [-> [t ->]]. eauto.
      * intros [t H]. injection H as -> ->. eauto.
Qed.

Lemma includes_spec (s u : list ascii) :
  Js.includes s u = true <-> exists a b, s = a ++ u ++ b.
Proof.
  induction s as [|c s IH]; cbn [Js.includes].
  - rewrite orb_false_r, startsWith_spec. split.
    + intros [t H]. exists [], t. exact H.
    + intros (a & b & H). destruct a; [eauto|discriminate].
  - rewrite orb_true_iff, startsWith_spec, IH. split.
    + intros [[t H]|(a & b & ->)]; [exists [], t; exact H|exists (c :: a), b; reflexivity].
    + intros (a & b & H). destruct a as [|x a].
      * left. eauto.
      * injection H as -> ->. right. eauto.
Qed.

Lemma includes_infix (p q u w w' : list ascii) :
  p = w ++ q ++ w' -> Js.includes q u = true -> Js.includes p u = true.
Proof.
  intros -> H. apply includes_spec in H as (a & b & ->). apply includes_spec.
  exists (w ++ a), (b ++ w'). now rewrite <- !List.app_assoc.
Qed.

(** ** [trim] *)

Lemma trimStart_decomp (s : list ascii) :
  exists l, s = l ++ Js.trimStart s /\ List.forallb Js.is_space l = true.
Proof.
  induction s as [|c s (l & E & F)]; cbn [Js.trimStart].
  - exists []. auto.
  - destruct (Js.is_space c) eqn:Ec.
    + exists (c :: l). cbn [List.forallb app]. rewrite Ec, F. split; [congruence|reflexivity].
    + exists []. auto.
Qed.

Lemma forallb_rev {A} (f : A -> bool) (l : list A) : List.forallb f (rev l) = List.forallb f l.
Proof.
  induction l as [|x l IH]; [reflexivity|]. cbn [rev List.forallb].
  rewrite forallb_app, IH. cbn [List.forallb]. rewrite andb_true_r. apply andb_comm.
Qed.

(** A text is its trimmed core between two runs of white space. *)
Lemma trim_decomp (s : list ascii) :
  exists l r, s = l ++ Js.trim s ++ r /\
              List.forallb Js.is_space l = true /\ List.forallb Js.is_space r = true.
Proof.
  unfold Js.trim. destruct (trimStart_decomp s) as (l & El & Fl).
  destruct (trimStart_decomp (rev (Js.trimStart s))) as (r & Er & Fr).
  exists l, (rev r). rewrite forallb_rev. repeat split; auto.
  rewrite <- rev_app_distr, <- Er, rev_involutive. exact El.
Qed.

Lemma trimStart_head (s : list ascii) :
  match Js.trimStart s with c :: _ => Js.is_space c = false | [] => True end.
Proof.
  induction s as [|c s IH]; cbn [Js.trimStart]; [exact I|].
  destruct (Js.is_space c) eqn:E; [exact IH|exact E].
Qed.

Lemma trimStart_fixed (s : list ascii) :
  match s with c :: _ => Js.is_space c = false | [] => True end -> Js.trimStart s = s.
Proof. destruct s as [|c s]; [reflexivity|]. cbn [Js.trimStart]. now intros ->. Qed.

(** The trimmed core neither starts nor ends with white space. *)
Lemma trim_head (s : list ascii) :
  match Js.trim s with c :: _ => Js.is_space c = false | [] => True end.
Proof.
  unfold Js.trim.
  pose proof (trimStart_head s) as H1.
  pose proof (trimStart_head (rev (Js.trimStart s))) as H2.
  destruct (trimStart_decomp (rev (Js.trimStart s))) as (r & Er & Fr).
  destruct (Js.trimStart (rev (Js.trimStart s))) as [|c t] eqn:E; [exact I|].
  assert (Es : Js.trimStart s = rev (c :: t) ++ rev r).
  { rewrite <- rev_app_distr, <- Er. now rewrite rev_involutive. }
  destruct (rev (c :: t)) as [|x u] eqn:Ex.
  { apply (f_equal (@List.length _)) in Ex. rewrite length_rev in Ex. discriminate. }
  rewrite Es in H1. exact H1.
Qed.

Lemma trim_last (s : list ascii) :
  match rev (Js.trim s) with c :: _ => Js.is_space c = false | [] => True end.
Proof. unfold Js.trim. rewrite rev_involutive. apply trimStart_head. Qed.

Lemma trim_idempotent (s : list ascii) : Js.trim (Js.trim s) = Js.trim s.
Proof.
  unfold Js.trim at 1. rewrite (trimStart_fixed (Js.trim s) (trim_head s)).
  rewrite (trimStart_fixed _ (trim_last s)). apply rev_involutive.
Qed.

Lemma trimStart_spaces (l s : list ascii) :
  List.forallb Js.is_space l = true -> Js.trimStart (l ++ s) = Js.trimStart s.
Proof.
  induction l as [|c l IH]; [reflexivity|]. cbn [List.forallb app Js.trimStart].
  intros H. apply andb_true_iff in H as [-> H]. auto.
Qed.

(** White space around a text does not change its trimmed core. *)
Lemma trim_padded (l s r : list ascii) :
  List.forallb Js.is_space l = true -> List.forallb Js.is_space r = true ->
  Js.trim (l ++ s ++ r) = Js.trim s.
Proof.
  intros Hl Hr. unfold Js.trim. rewrite (trimStart_spaces l _ Hl). f_equal.
  destruct (trimStart_decomp s) as (l' & E & Hl').
  destruct (Js.trimStart s) as [|c t] eqn:Es.
  - assert (Ez : Js.trimStart (s ++ r) = []).
    { rewrite E, app_nil_r. rewrite <- (app_nil_r (l' ++ r)), <- List.app_assoc.
      rewrite (trimStart_spaces l' _ Hl'), (trimStart_spaces r _ Hr). reflexivity. }
    now rewrite Ez.
  - assert (Ez : Js.trimStart (s ++ r) = (c :: t) ++ r).
    { rewrite E at 1. rewrite <- List.app_assoc, (trimStart_spaces l' _ Hl').
      pose proof (trimStart_head s) as H. rewrite Es in H.
      cbn [app Js.trimStart]. now rewrite H. }
    rewrite Ez, rev_app_distr. apply trimStart_spaces. now rewrite forallb_rev.
Qed.

(** ** File-like tokens *)

Lemma extAlternatives_pathish :
  Forall (fun e => List.forallb Js.is_pathish (chars e) = true) extAlternatives.
Proof. repeat constructor. Qed.

(** A character outside the class cuts what a prefix test can see. *)
Lemma startsWith_cut (e a b : list ascii) (c : ascii) :
  List.forallb Js.is_pathish e = true -> Js.is_pathish c = false ->
  Js.startsWith e (a ++ c :: b) = Js.startsWith e a.
Proof.
  intros He Hc. revert a. induction e as [|y e IH]; intros a; [reflexivity|].
  cbn [List.forallb] in He. apply andb_true_iff in He as [Hy He].
  destruct a as [|x a]; cbn [app Js.startsWith].
  - destruct (Js.ascii_eqb y c) eqn:E; [|reflexivity].
    apply ascii_eqb_eq in E. congruence.
  - now rewrite (IH He).
Qed.

Lemma first_alt_cut (alts : list string) (a b : list ascii) (c : ascii) :
  Forall (fun e => List.forallb Js.is_pathish (chars e) = true) alts ->
  Js.is_pathish c = false ->
  first_alt alts (a ++ c :: b) = first_alt alts a.
Proof.
  intros Ha Hc. induction Ha as [|e alts He _ IH]; [reflexivity|]. cbn [first_alt].
  now rewrite (startsWith_cut _ _ _ _ He Hc), IH.
Qed.

Lemma fileLike_rest_cut (a b : list ascii) (c : ascii) :
  Js.is_pathish c = false -> fileLike_rest (a ++ c :: b) = fileLike_rest a.
Proof.
  intros Hc. induction a as [|x a IH]; cbn [app fileLike_rest].
  - rewrite Hc. destruct (Js.is_dot c) eqn:D; [|reflexivity].
    apply dot_is_pathish in D. congruence.
  - now rewrite IH, (first_alt_cut _ _ _ _ extAlternatives_pathish Hc).
Qed.

Lemma fileLike_at_cut (a b : list ascii) (c : ascii) :
  Js.is_pathish c = false -> fileLike_at (a ++ c :: b) = fileLike_at a.
Proof.
  intros Hc. destruct a as [|x a]; cbn [app fileLike_at].
  - now rewrite Hc.
  - now rewrite (fileLike_rest_cut _ _ _ Hc).
Qed.

Lemma first_alt_length (alts : list string) (s : list ascii) (n : nat) :
  first_alt alts s = Some n -> (n <= List.length s)%nat.
Proof.
  induction alts as [|e alts IH]; cbn [first_alt]; [discriminate|].
  destruct (Js.startsWith (chars e) s) eqn:E; [|exact IH].
  intros H. injection H as <-. apply startsWith_spec in E as [t ->].
  rewrite length_app. unfold chars.
  assert (H : String.length e = List.length (list_ascii_of_string e)).
  { clear. induction e; cbn; auto. }
  rewrite H. lia.
Qed.

Lemma fileLike_rest_length (s : list ascii) (n : nat) :
  fileLike_rest s = Some n -> (n <= List.length s)%nat.
Proof.
  revert n. induction s as [|c s IH]; intros n; cbn [fileLike_rest]; [discriminate|].
  assert (Hhere : (if Js.is_dot c then option_map S (first_alt extAlternatives s) else None)
                  = Some n -> (n <= S (List.length s))%nat).
  { destruct (Js.is_dot c); [|discriminate].
    destruct (first_alt extAlternatives s) as [m|] eqn:E; [|discriminate].
    intros H. injection H as <-. apply first_alt_length in E. lia. }
  destruct (Js.is_pathish c); [|exact Hhere].
  destruct (fileLike_rest s) as [m|]; [|exact Hhere].
  intros H. injection H as <-. specialize (IH m eq_refl). cbn [List.length]. lia.
Qed.

Lemma fileLike_at_length (s : list ascii) (n : nat) :
  fileLike_at s = Some n -> (1 <= n <= List.length s)%nat.
Proof.
  destruct s as [|c s]; cbn [fileLike_at]; [discriminate|].
  destruct (Js.is_pathish c); [|discriminate].
  destruct (fileLike_rest s) as [m|] eqn:E; [|discriminate].
  intros H. injection H as <-. apply fileLike_rest_length in E. cbn [List.length]. lia.
Qed.

(** Matches never span a character outside the class. *)
Lemma fileLike_scan_cut (a b : list ascii) (c : ascii) (skip : nat) :
  Js.is_pathish c = false -> (skip <= List.length a)%nat ->
  fileLike_scan skip (a ++ c :: b) = fileLike_scan skip a ++ fileLike_scan 0 b.
Proof.
  intros Hc. revert skip. induction a as [|x a IH]; intros skip Hk.
  - cbn [List.length] in Hk. assert (skip = 0%nat) as -> by lia.
    cbn [app fileLike_scan fileLike_at]. now rewrite Hc.
  - cbn [app fileLike_scan]. destruct skip as [|k].
    + change (x :: a ++ c :: b) with ((x :: a) ++ c :: b).
      rewrite (fileLike_at_cut _ _ _ Hc).
      destruct (fileLike_at (x :: a)) as [n|] eqn:E.
      * apply fileLike_at_length in E. cbn [List.length] in E.
        rewrite IH by lia. rewrite firstn_app.
        replace (n - List.length (x :: a))%nat with 0%nat by (cbn [List.length]; lia).
        cbn [firstn]. now rewrite app_nil_r.
      * apply IH. lia.
    + apply IH. cbn [List.length] in Hk. lia.
Qed.

Lemma fileLike_matches_cut (a b : list ascii) (c : ascii) :
  Js.is_pathish c = false ->
  fileLike_matches (a ++ c :: b) = fileLike_matches a ++ fileLike_matches b.
Proof. intros Hc. apply fileLike_scan_cut; [exact Hc|lia]. Qed.

Lemma fileLike_matches_spaces (l : list ascii) :
  List.forallb Js.is_space l = true -> fileLike_matches l = [].
Proof.
  induction l as [|c l IH]; [reflexivity|]. cbn [List.forallb].
  intros H. apply andb_true_iff in H as [Hc H].
  change (c :: l) with ([] ++ c :: l).
  rewrite (fileLike_matches_cut [] l c (space_not_pathish c Hc)). now rewrite IH.
Qed.

Lemma fileLike_matches_lead (l s : list ascii) :
  List.forallb Js.is_space l = true -> fileLike_matches (l ++ s) = fileLike_matches s.
Proof.
  induction l as [|c l IH]; [reflexivity|]. cbn [List.forallb].
  intros H. apply andb_true_iff in H as [Hc H].
  change ((c :: l) ++ s) with ([] ++ c :: (l ++ s)).
  rewrite (fileLike_matches_cut [] _ c (space_not_pathish c Hc)). now apply IH.
Qed.

Lemma fileLike_matches_trail (s r : list ascii) :
  List.forallb Js.is_space r = true -> fileLike_matches (s ++ r) = fileLike_matches s.
Proof.
  destruct r as [|c r]; [now rewrite app_nil_r|]. cbn [List.forallb].
  intros H. apply andb_true_iff in H as [Hc H].
  rewrite (fileLike_matches_cut s r c (space_not_pathish c Hc)).
  rewrite (fileLike_matches_spaces r H). apply app_nil_r.
Qed.

(** Trimming keeps the tokens. *)
Lemma fileLike_matches_trim (s : list ascii) :
  fileLike_matches (Js.trim s) = fileLike_matches s.
Proof.
  destruct (trim_decomp s) as (l & r & E & Hl & Hr). rewrite E at 2.
  now rewrite (fileLike_matches_lead l _ Hl), (fileLike_matches_trail _ r Hr).
Qed.

Lemma LF_not_pathish : Js.is_pathish LF = false.
Proof. reflexivity. Qed.

(** The tokens of joined paragraphs are the tokens of the paragraphs. *)
Lemma fileLike_matches_join (ps : list (list ascii)) :
  fileLike_matches (Js.join [LF; LF] ps) = concat (List.map fileLike_matches ps).
Proof.
  induction ps as [|p ps IH]; [reflexivity|].
  destruct ps as [|q ps].
  - cbn [Js.join List.map concat]. now rewrite app_nil_r.
  - change (Js.join [LF; LF] (p :: q :: ps)) with (p ++ LF :: ([] ++ LF :: Js.join [LF; LF] (q :: ps))).
    rewrite (fileLike_matches_cut p _ LF LF_not_pathish).
    rewrite (fileLike_matches_cut [] _ LF LF_not_pathish).
    rewrite IH. reflexivity.
Qed.

Lemma split_blank_not_nil (st : bool) (s : list ascii) : Js.split_blank st s <> [].
Proof.
  revert st. induction s as [|c s IH]; intros st; cbn [Js.split_blank]; [discriminate|].
  assert (H : Js.cons_first c (Js.split_blank false s) <> []).
  { destruct (Js.split_blank false s); discriminate. }
  destruct st.
  - destruct (Js.is_nl c); [apply IH|exact H].
  - destruct s as [|c' s']; [exact H|]. destruct (Js.is_nl c && Js.is_nl c'); [discriminate|exact H].
Qed.

Lemma prepend_cons_first (pre : list ascii) (c : ascii) (ps : list (list ascii)) :
  ps <> [] -> prepend pre (Js.cons_first c ps) = prepend (pre ++ [c]) ps.
Proof.
  destruct ps as [|p ps]; [congruence|]. intros _. cbn [Js.cons_first prepend].
  now rewrite <- List.app_assoc.
Qed.

(** The tokens of a text are the tokens of its paragraphs. *)
Lemma fileLike_matches_split_aux (s : list ascii) :
  (forall pre, concat (List.map fileLike_matches (prepend pre (Js.split_blank false s)))
               = fileLike_matches (pre ++ s)) /\
  concat (List.map fileLike_matches (Js.split_blank true s)) = fileLike_matches s.
Proof.
  induction s as [|c s [IHf IHt]].
  - split; [|reflexivity]. intros pre. cbn [Js.split_blank prepend List.map concat].
    now rewrite !app_nil_r.
  - assert (Hstep : forall pre,
      concat (List.map fileLike_matches (prepend pre (Js.cons_first c (Js.split_blank false s))))
      = fileLike_matches (pre ++ c :: s)).
    { intros pre. rewrite prepend_cons_first by apply split_blank_not_nil.
      rewrite IHf, <- List.app_assoc. reflexivity. }
    split.
    + intros pre. cbn [Js.split_blank].
      destruct s as [|c' s']; [apply Hstep|].
      destruct (Js.is_nl c && Js.is_nl c') eqn:E; [|apply Hstep].
      apply andb_true_iff in E as [Ec _]. apply is_nl_LF in Ec. subst c.
      cbn [prepend List.map concat]. rewrite app_nil_r, IHt.
      now rewrite (fileLike_matches_cut pre _ LF LF_not_pathish).
    + cbn [Js.split_blank]. destruct (Js.is_nl c) eqn:Ec.
      * apply is_nl_LF in Ec. subst c. rewrite IHt.
        change (LF :: s) with ([] ++ LF :: s).
        now rewrite (fileLike_matches_cut [] s LF LF_not_pathish).
      * specialize (Hstep []). destruct (Js.split_blank false s) as [|p ps] eqn:E.
        { now destruct (split_blank_not_nil false s). }
        exact Hstep.
Qed.

Lemma fileLike_matches_split (s : list ascii) :
  concat (List.map fileLike_matches (Js.split_blank false s)) = fileLike_matches s.
Proof.
  destruct (fileLike_matches_split_aux s) as [H _]. specialize (H []).
  destruct (Js.split_blank false s) as [|p ps] eqn:E.
  { now destruct (split_blank_not_nil false s). }
  exact H.
Qed.

(** ** Paragraphs *)

Lemma glue_cons (x : list ascii) (xs ys : list (list ascii)) :
  xs <> [] -> glue (x :: xs) ys = x :: glue xs ys.
Proof. destruct xs; [congruence|reflexivity]. Qed.

Lemma glue_cons_first (c : ascii) (xs ys : list (list ascii)) :
  xs <> [] -> glue (Js.cons_first c xs) ys = Js.cons_first c (glue xs ys).
Proof.
  destruct xs as [|x [|x' xs]]; [congruence| |]; intros _.
  - cbn [Js.cons_first glue]. destruct ys; reflexivity.
  - reflexivity.
Qed.

Lemma glue_not_nil (xs ys : list (list ascii)) : xs <> [] -> glue xs ys <> [].
Proof.
  destruct xs as [|x [|x' xs]]; [congruence| |]; intros _; [|discriminate].
  cbn [glue]. destruct ys; discriminate.
Qed.

Lemma prepend_nil (ys : list (list ascii)) : ys <> [] -> prepend [] ys = ys.
Proof. destruct ys; [congruence|reflexivity]. Qed.

Lemma prepend_single (c : ascii) (ys : list (list ascii)) :
  ys <> [] -> prepend [c] ys = Js.cons_first c ys.
Proof. destruct ys; [congruence|reflexivity]. Qed.

Lemma join_cons (sep p : list ascii) (ps : list (list ascii)) :
  ps <> [] -> Js.join sep (p :: ps) = p ++ sep ++ Js.join sep ps.
Proof. destruct ps; [congruence|reflexivity]. Qed.

Lemma join_prepend (sep x : list ascii) (ys : list (list ascii)) :
  ys <> [] -> Js.join sep (prepend x ys) = x ++ Js.join sep ys.
Proof.
  destruct ys as [|y [|y' ys]]; [congruence| |]; intros _; cbn [prepend Js.join].
  - reflexivity.
  - now rewrite <- List.app_assoc.
Qed.

Lemma join_glue (sep : list ascii) (xs ys : list (list ascii)) :
  xs <> [] -> ys <> [] -> Js.join sep (glue xs ys) = Js.join sep xs ++ Js.join sep ys.
Proof.
  intros Hx Hy. induction xs as [|x xs IH]; [congruence|].
  destruct xs as [|x' xs].
  - cbn [glue]. now rewrite join_prepend.
  - rewrite glue_cons by discriminate.
    rewrite join_cons by (apply glue_not_nil; discriminate).
    rewrite IH by discriminate. rewrite (join_cons sep x (x' :: xs)) by discriminate.
    now rewrite <- !List.app_assoc.
Qed.

Lemma In_glue_left (xs ys : list (list ascii)) (q : list ascii) :
  In q xs -> exists w, In (q ++ w) (glue xs ys) /\ (w = [] \/ exists ys', ys = w :: ys').
Proof.
  induction xs as [|x xs IH]; [intros []|]. intros Hq.
  destruct xs as [|x' xs].
  - destruct Hq as [->|[]]. cbn [glue prepend]. destruct ys as [|y ys].
    + exists []. rewrite app_nil_r. split; [now left|now left].
    + exists y. split; [now left|right; eauto].
  - rewrite glue_cons by discriminate. destruct Hq as [->|Hq].
    + exists []. rewrite app_nil_r. split; [now left|now left].
    + destruct (IH Hq) as (w & Hw & Hc). exists w. split; [now right|exact Hc].
Qed.

Lemma In_glue_right (xs ys : list (list ascii)) (q : list ascii) :
  xs <> [] -> In q ys -> exists w, In (w ++ q) (glue xs ys) /\ (w = [] \/ In w xs).
Proof.
  intros Hx Hq. induction xs as [|x xs IH]; [congruence|].
  destruct xs as [|x' xs].
  - cbn [glue prepend]. destruct ys as [|y ys]; [destruct Hq|].
    destruct Hq as [->|Hq].
    + exists x. split; [now left|right; now left].
    + exists []. split; [now right|now left].
  - rewrite glue_cons by discriminate.
    destruct IH as (w & Hw & Hc); [discriminate|].
    exists w. split; [now right|]. destruct Hc as [->|Hc]; [now left|right; now right].
Qed.

Lemma split_blank_true_nl (s : list ascii) :
  Js.split_blank true (LF :: s) = Js.split_blank true s.
Proof. reflexivity. Qed.

Lemma split_blank_true_start (s : list ascii) :
  starts_nl s = false -> Js.split_blank true s = Js.split_blank false s.
Proof.
  destruct s as [|c s]; [reflexivity|]. cbn [starts_nl Js.split_blank]. intros ->.
  destruct s; reflexivity.
Qed.

Lemma ends_nl_cons (c : ascii) (s : list ascii) : s <> [] -> ends_nl (c :: s) = ends_nl s.
Proof.
  intros Hs. unfold ends_nl. cbn [rev].
  destruct (rev s) as [|x r] eqn:E; [|reflexivity].
  apply (f_equal (@rev _)) in E. rewrite rev_involutive in E. now destruct Hs.
Qed.

Lemma split_blank_false_cons2 (c c' : ascii) (t : list ascii) :
  Js.split_blank false (c :: c' :: t) =
  if Js.is_nl c && Js.is_nl c' then [] :: Js.split_blank true (c' :: t)
  else Js.cons_first c (Js.split_blank false (c' :: t)).
Proof. reflexivity. Qed.

(** Splitting a concatenation: unless a line feed ends the first text and
    another starts the second, the paragraphs are those of the two texts,
    glued at the seam. *)
Lemma split_blank_app (a b : list ascii) (st : bool) :
  (a = [] -> st = true -> starts_nl b = false) ->
  (ends_nl a = true -> starts_nl b = false) ->
  Js.split_blank st (a ++ b) = glue (Js.split_blank st a) (Js.split_blank false b).
Proof.
  revert st. induction a as [|c a IH]; intros st H0 H1.
  - cbn [app Js.split_blank glue]. rewrite prepend_nil by apply split_blank_not_nil.
    destruct st; [|reflexivity]. apply split_blank_true_start. now apply H0.
  - assert (Hend : a <> [] -> ends_nl a = true -> starts_nl b = false).
    { intros Ha Hn. apply H1. now rewrite ends_nl_cons. }
    assert (Hplain : forall st',
      (a = [] -> st' = true -> starts_nl b = false) ->
      Js.cons_first c (Js.split_blank st' (a ++ b))
      = glue (Js.cons_first c (Js.split_blank st' a)) (Js.split_blank false b)).
    { intros st' H. rewrite glue_cons_first by apply split_blank_not_nil. f_equal.
      apply IH; [exact H|]. intros Hn. destruct a as [|x a]; [discriminate|].
      apply Hend; [discriminate|exact Hn]. }
    cbn [app]. destruct st.
    + cbn [Js.split_blank]. destruct (Js.is_nl c) eqn:Ec.
      * apply IH.
        -- intros -> _. apply H1. unfold ends_nl. cbn [rev app starts_nl]. exact Ec.
        -- intros Hn. destruct a as [|x a]; [discriminate|]. apply Hend; [discriminate|exact Hn].
      * apply Hplain. discriminate.
    + destruct a as [|c' a'].
      * cbn [app Js.split_blank glue Js.cons_first].
        rewrite prepend_single by apply split_blank_not_nil.
        destruct b as [|x b]; [reflexivity|].
        destruct (Js.is_nl c && Js.is_nl x) eqn:E; [|reflexivity].
        apply andb_true_iff in E as [Ec Ex].
        assert (Hb : starts_nl (x :: b) = false).
        { apply H1. unfold ends_nl. cbn [rev app starts_nl]. exact Ec. }
        cbn [starts_nl] in Hb. congruence.
      * cbn [app].
        rewrite (split_blank_false_cons2 c c' (a' ++ b)), (split_blank_false_cons2 c c' a').
        destruct (Js.is_nl c && Js.is_nl c') eqn:E.
        -- rewrite glue_cons by apply split_blank_not_nil. f_equal.
           apply (IH true); [discriminate|]. intros Hn. apply Hend; [discriminate|exact Hn].
        -- apply (Hplain false). discriminate.
Qed.

Lemma forallb_cons_first (f : ascii -> bool) (c : ascii) (ps : list (list ascii)) :
  f c = true -> Forall (fun p => List.forallb f p = true) ps ->
  Forall (fun p => List.forallb f p = true) (Js.cons_first c ps).
Proof.
  intros Hc [|p ps' Hp Hps]; cbn [Js.cons_first].
  - repeat constructor. cbn [List.forallb]. now rewrite Hc.
  - constructor; [|exact Hps]. cbn [List.forallb]. now rewrite Hc.
Qed.

(** Paragraphs are made of characters of the text. *)
Lemma split_blank_forallb (f : ascii -> bool) (s : list ascii) (st : bool) :
  List.forallb f s = true ->
  Forall (fun p => List.forallb f p = true) (Js.split_blank st s).
Proof.
  revert st. induction s as [|c s IH]; intros st H.
  - repeat constructor.
  - cbn [List.forallb] in H. apply andb_true_iff in H as [Hc H].
    cbn [Js.split_blank]. destruct st.
    + destruct (Js.is_nl c); [now apply IH|apply forallb_cons_first; auto].
    + destruct s as [|c' s']; [apply forallb_cons_first; auto|].
      destruct (Js.is_nl c && Js.is_nl c'); [|apply forallb_cons_first; auto].
      constructor; [reflexivity|now apply IH].
Qed.

Lemma join_cons_first (sep : list ascii) (c : ascii) (ps : list (list ascii)) :
  ps <> [] -> Js.join sep (Js.cons_first c ps) = c :: Js.join sep ps.
Proof. destruct ps as [|p [|p' ps]]; [congruence| |]; reflexivity. Qed.

(** Rejoining the paragraphs never makes the text longer. *)
Lemma join_split_length (s : list ascii) :
  (List.length (Js.join [LF; LF] (Js.split_blank false s)) <= List.length s)%nat /\
  (List.length (Js.join [LF; LF] (Js.split_blank true s)) <= List.length s)%nat /\
  (starts_nl s = true ->
   (S (List.length (Js.join [LF; LF] (Js.split_blank true s))) <= List.length s)%nat).
Proof.
  induction s as [|c s (IHf & IHt & IHn)]; [cbn; repeat split; auto; discriminate|].
  assert (Hplain : (List.length (Js.join [LF; LF] (Js.cons_first c (Js.split_blank false s)))
                    <= List.length (c :: s))%nat).
  { rewrite join_cons_first by apply split_blank_not_nil. cbn [List.length]. lia. }
  split; [|split].
  - destruct s as [|c' s']; [exact Hplain|].
    rewrite split_blank_false_cons2. destruct (Js.is_nl c && Js.is_nl c') eqn:E; [|exact Hplain].
    apply andb_true_iff in E as [_ E].
    rewrite join_cons by apply split_blank_not_nil.
    rewrite !length_app. cbn [List.length] in *. specialize (IHn E). lia.
  - cbn [Js.split_blank]. destruct (Js.is_nl c); [cbn [List.length]; lia|exact Hplain].
  - cbn [starts_nl Js.split_blank]. intros ->. cbn [List.length]. lia.
Qed.

(** ** The shape of paragraph lists *)

Lemma good_tail_good (ps : list (list ascii)) : good_tail ps -> good ps.
Proof.
  destruct ps as [|p [|q ps]]; cbn [good good_tail]; tauto.
Qed.

Lemma good_tail_cons (p : list ascii) (ps : list (list ascii)) :
  good_tail (p :: ps) ->
  one_paragraph p /\ starts_nl p = false /\ good_tail ps /\
  (ps <> [] -> ends_nl p = false /\ p <> []).
Proof.
  destruct ps as [|q ps]; cbn [good_tail].
  - intros [? ?]. repeat split; auto; congruence.
  - intros (? & ? & ? & ? & ?). repeat split; auto.
Qed.

Lemma good_tail_intro (p : list ascii) (ps : list (list ascii)) :
  one_paragraph p -> starts_nl p = false -> good_tail ps ->
  (ps <> [] -> ends_nl p = false /\ p <> []) -> good_tail (p :: ps).
Proof.
  intros H1 H2 H3 H4. destruct ps as [|q ps]; cbn [good_tail]; [auto|].
  destruct H4 as [? ?]; [discriminate|]. auto.
Qed.

Lemma good_cons (p : list ascii) (ps : list (list ascii)) :
  good (p :: ps) -> one_paragraph p /\ good_tail ps /\ (ps <> [] -> ends_nl p = false).
Proof.
  destruct ps as [|q ps]; cbn [good good_tail].
  - intros ?. repeat split; auto; congruence.
  - intros (? & ? & ?). repeat split; auto.
Qed.

Lemma good_intro (p : list ascii) (ps : list (list ascii)) :
  one_paragraph p -> good_tail ps -> (ps <> [] -> ends_nl p = false) -> good (p :: ps).
Proof.
  intros H1 H2 H3. destruct ps as [|q ps]; cbn [good]; [auto|].
  repeat split; auto; try (apply H3; discriminate).
Qed.

Lemma filter_nonempty_from {A} (f : A -> bool) (l : list A) : List.filter f l <> [] -> l <> [].
Proof. destruct l; [cbn; congruence|discriminate]. Qed.

Lemma good_tail_filter (f : list ascii -> bool) (ps : list (list ascii)) :
  good_tail ps -> good_tail (List.filter f ps).
Proof.
  induction ps as [|p ps IH]; [auto|]. intros H.
  apply good_tail_cons in H as (H1 & H2 & H3 & H4). cbn [List.filter].
  destruct (f p); [|auto].
  apply good_tail_intro; auto. intros Hne. apply H4. eapply filter_nonempty_from; eauto.
Qed.

Lemma good_filter (f : list ascii -> bool) (ps : list (list ascii)) :
  good ps -> good (List.filter f ps).
Proof.
  destruct ps as [|p ps]; [auto|]. intros H.
  apply good_cons in H as (H1 & H2 & H3). cbn [List.filter].
  destruct (f p).
  - apply good_intro; auto using good_tail_filter.
    intros Hne. apply H3. eapply filter_nonempty_from; eauto.
  - apply good_tail_good, good_tail_filter, H2.
Qed.

Lemma split_blank_first_prefix (t p : list ascii) (ps : list (list ascii)) :
  Js.split_blank false t = p :: ps -> exists r, t = p ++ r.
Proof.
  revert p ps. induction t as [|c t IH]; intros p ps.
  - intros H. injection H as <- <-. exists []. reflexivity.
  - assert (Hplain : Js.cons_first c (Js.split_blank false t) = p :: ps -> exists r, c :: t = p ++ r).
    { destruct (Js.split_blank false t) as [|p' ps'] eqn:E.
      { now destruct (split_blank_not_nil false t). }
      cbn [Js.cons_first]. intros H. injection H as <- <-.
      destruct (IH p' ps' eq_refl) as [r ->]. exists r. reflexivity. }
    destruct t as [|c' t']; [exact Hplain|].
    rewrite split_blank_false_cons2. destruct (Js.is_nl c && Js.is_nl c'); [|exact Hplain].
    intros H. injection H as <- <-. exists (c :: c' :: t'). reflexivity.
Qed.

Lemma split_blank_first_empty (t : list ascii) (ps : list (list ascii)) :
  Js.split_blank false t = [] :: ps -> t = [] \/ starts_nl t = true.
Proof.
  destruct t as [|c t]; [auto|]. right.
  assert (Hplain : Js.cons_first c (Js.split_blank false t) <> [] :: ps).
  { destruct (Js.split_blank false t); discriminate. }
  destruct t as [|c' t']; [now destruct Hplain|].
  rewrite split_blank_false_cons2 in H. destruct (Js.is_nl c && Js.is_nl c') eqn:E.
  - apply andb_true_iff in E as [E _]. exact E.
  - now destruct Hplain.
Qed.

Lemma one_paragraph_cons (c : ascii) (p : list ascii) :
  one_paragraph p -> Js.is_nl c && starts_nl p = false -> one_paragraph (c :: p).
Proof.
  unfold one_paragraph. intros Hp Hc. destruct p as [|c' p']; [reflexivity|].
  rewrite split_blank_false_cons2. cbn [starts_nl] in Hc. now rewrite Hc, Hp.
Qed.

Lemma one_paragraph_nil : one_paragraph [].
Proof. reflexivity. Qed.

(** What [split] returns has the shape [good]; after a separator, or from a
    text that does not start with a line feed, the shape [good_tail]. *)
Lemma split_blank_good (s : list ascii) :
  good (Js.split_blank false s) /\
  (starts_nl s = false -> good_tail (Js.split_blank false s)) /\
  good_tail (Js.split_blank true s).
Proof.
  induction s as [|c s (IHg & IHs & IHt)].
  - cbn [Js.split_blank good good_tail]. repeat split; auto using one_paragraph_nil.
  - (* the paragraphs when [c] starts no separator *)
    assert (Hplain : Js.is_nl c && starts_nl s = false ->
      good (Js.cons_first c (Js.split_blank false s)) /\
      (Js.is_nl c = false -> good_tail (Js.cons_first c (Js.split_blank false s)))).
    { intros Hc. destruct (Js.split_blank false s) as [|p ps] eqn:E.
      { now destruct (split_blank_not_nil false s). }
      cbn [Js.cons_first]. apply good_cons in IHg as (H1 & H2 & H3).
      destruct (split_blank_first_prefix s p ps E) as [r Er].
      assert (Hcp : Js.is_nl c && starts_nl p = false).
      { destruct p as [|x p']; [apply andb_false_r|]. subst s. exact Hc. }
      assert (Hone : one_paragraph (c :: p)) by (apply one_paragraph_cons; auto).
      assert (Hend : ps <> [] -> ends_nl (c :: p) = false).
      { intros Hps. destruct p as [|x p'].
        - destruct (split_blank_first_empty s ps E) as [->|Hs].
          + cbn in E. injection E as <-. congruence.
          + rewrite Hs, andb_true_r in Hc. unfold ends_nl. cbn. exact Hc.
        - rewrite ends_nl_cons by discriminate. auto. }
      split.
      - apply good_intro; auto.
      - intros Hnl. apply good_tail_intro; auto;
          try (intros Hps; split; [auto|discriminate]). }
    assert (Hfalse : good (Js.split_blank false (c :: s)) /\
      (Js.is_nl c = false -> good_tail (Js.split_blank false (c :: s)))).
    { destruct s as [|c' s'].
      - apply Hplain. apply andb_false_r.
      - rewrite split_blank_false_cons2. cbn [starts_nl] in Hplain.
        destruct (Js.is_nl c && Js.is_nl c') eqn:E; [|now apply Hplain].
        apply andb_true_iff in E as [E _]. split; [|congruence].
        apply good_intro; auto using one_paragraph_nil. }
    destruct Hfalse as [Hg Hs]. split; [exact Hg|]. split; [exact Hs|].
    cbn [Js.split_blank]. destruct (Js.is_nl c) eqn:Ec; [exact IHt|].
    specialize (Hs eq_refl). destruct s as [|c' s']; [exact Hs|].
    rewrite split_blank_false_cons2 in Hs. now rewrite Ec in Hs.
Qed.

Lemma starts_nl_app (p s : list ascii) : p <> [] -> starts_nl (p ++ s) = starts_nl p.
Proof. destruct p; [congruence|reflexivity]. Qed.

Lemma split_blank_sep (s : list ascii) :
  Js.split_blank false (LF :: LF :: s) = [] :: Js.split_blank true s.
Proof. reflexivity. Qed.

(** Splitting what was joined gives the paragraphs back. *)
Lemma split_join_tail (ps : list (list ascii)) :
  good_tail ps -> ps <> [] ->
  Js.split_blank false (Js.join [LF; LF] ps) = ps /\ starts_nl (Js.join [LF; LF] ps) = false.
Proof.
  induction ps as [|p ps IH]; [congruence|]. intros H _.
  apply good_tail_cons in H as (H1 & H2 & H3 & H4).
  destruct ps as [|q ps]; [cbn [Js.join]; auto|].
  destruct H4 as [H4 H5]; [discriminate|].
  destruct IH as [IH1 IH2]; [exact H3|discriminate|].
  rewrite join_cons by discriminate. split.
  - rewrite split_blank_app; [|discriminate|congruence].
    cbn [app]. rewrite split_blank_sep, (split_blank_true_start _ IH2), IH1, H1.
    cbn [glue prepend]. now rewrite app_nil_r.
  - now rewrite starts_nl_app.
Qed.

Lemma split_join (ps : list (list ascii)) :
  good ps -> ps <> [] -> Js.split_blank false (Js.join [LF; LF] ps) = ps.
Proof.
  destruct ps as [|p ps]; [congruence|]. intros H _.
  apply good_cons in H as (H1 & H2 & H3).
  destruct ps as [|q ps]; [exact H1|].
  destruct (split_join_tail (q :: ps) H2) as [E1 E2]; [discriminate|].
  rewrite join_cons by discriminate.
  rewrite split_blank_app; [|discriminate|].
  - cbn [app]. rewrite split_blank_sep, (split_blank_true_start _ E2), E1, H1.
    cbn [glue prepend]. now rewrite app_nil_r.
  - intros Hn. rewrite H3 in Hn; [discriminate|discriminate].
Qed.

(** * The prose scrub is idempotent *)

Lemma filter_all {A} (f : A -> bool) (l : list A) :
  (forall x, In x l -> f x = true) -> List.filter f l = l.
Proof.
  induction l as [|x l IH]; [reflexivity|]. intros H. cbn [List.filter].
  rewrite (H x (or_introl eq_refl)). f_equal. apply IH. intros y Hy. apply H. now right.
Qed.

Lemma head_not_space_starts_nl (s r : list ascii) :
  s <> [] -> match s with c :: _ => Js.is_space c = false | [] => True end ->
  starts_nl (s ++ r) = false.
Proof.
  destruct s as [|c s]; [congruence|]. intros _ Hc. cbn [app starts_nl].
  destruct (Js.is_nl c) eqn:E; [|reflexivity]. apply nl_is_space in E. congruence.
Qed.

Lemma last_not_space_ends_nl (s : list ascii) :
  match rev s with c :: _ => Js.is_space c = false | [] => True end -> ends_nl s = false.
Proof.
  unfold ends_nl. destruct (rev s) as [|c t]; [reflexivity|]. cbn [starts_nl]. intros Hc.
  destruct (Js.is_nl c) eqn:E; [|reflexivity]. apply nl_is_space in E. congruence.
Qed.

Lemma app3_length_inv {A} (a b c a' b' c' : list A) :
  a ++ b ++ c = a' ++ b' ++ c' ->
  (List.length a' <= List.length a)%nat -> (List.length b' <= List.length b)%nat ->
  (List.length c' <= List.length c)%nat -> b = b'.
Proof.
  intros E Ha Hb Hc.
  assert (L : (List.length a + List.length b + List.length c
               = List.length a' + List.length b' + List.length c')%nat).
  { apply (f_equal (@List.length _)) in E. rewrite !length_app in E. lia. }
  apply app_inj_1 in E as [_ E]; [|lia].
  apply app_inj_1 in E as [E _]; [exact E|lia].
Qed.

Section Stable.

Variable paths : gset string.

(** The paragraphs of an already scrubbed text are paragraphs that were
    kept, up to the white space trimmed away; they are kept again under any
    smaller set of unknown tokens, and rejoining them changes nothing. *)
Lemma scrubbed_text_stable (U U' : list (list ascii)) (s : list ascii) :
  (forall u, In u U' -> In u U) ->
  scrubbed_text paths U s <> [] ->
  scrubbed_text paths U' (scrubbed_text paths U s) = scrubbed_text paths U s.
Proof.
  intros Hsub.
  set (K := List.filter (keep_paragraph paths U) (Js.split_blank false s)).
  set (J := Js.join [LF; LF] K).
  change (scrubbed_text paths U s) with (Js.trim J). intros HN.
  assert (HK : K <> []).
  { intros E. apply HN. subst J. rewrite E. reflexivity. }
  assert (Hgood : good K) by (apply good_filter, split_blank_good).
  assert (HJ : Js.split_blank false J = K) by (apply split_join; assumption).
  destruct (trim_decomp J) as (L & R & EJ & HL & HR).
  set (N := Js.trim J) in *.
  assert (Hb : starts_nl (N ++ R) = false).
  { apply head_not_space_starts_nl; [exact HN|apply trim_head]. }
  assert (He : ends_nl N = false) by (apply last_not_space_ends_nl, trim_last).
  assert (Hglue : K = glue (Js.split_blank false L)
                        (glue (Js.split_blank false N) (Js.split_blank false R))).
  { rewrite <- HJ, EJ. rewrite split_blank_app; [|discriminate|auto]. f_equal.
    apply split_blank_app; [discriminate|congruence]. }
  assert (Hkept : forall q, In q (Js.split_blank false N) -> keep_paragraph paths U' q = true).
  { intros q Hq.
    destruct (In_glue_left _ (Js.split_blank false R) q Hq) as (w' & Hw' & Hc').
    destruct (In_glue_right (Js.split_blank false L) _ _ (split_blank_not_nil false L) Hw')
      as (w & Hw & Hc).
    rewrite <- Hglue in Hw.
    assert (Sw : List.forallb Js.is_space w = true).
    { destruct Hc as [->|Hc]; [reflexivity|].
      pose proof (split_blank_forallb Js.is_space L false HL) as F.
      rewrite List.Forall_forall in F. auto. }
    assert (Sw' : List.forallb Js.is_space w' = true).
    { destruct Hc' as [->|[ys E]]; [reflexivity|].
      pose proof (split_blank_forallb Js.is_space R false HR) as F.
      rewrite E in F. now inversion F. }
    apply filter_In in Hw as [_ Hw]. unfold keep_paragraph in *.
    rewrite (trim_padded w q w' Sw Sw') in Hw.
    apply orb_true_iff in Hw as [Hw| ->]; [|apply orb_true_r].
    apply orb_true_iff. left. apply negb_true_iff in Hw. apply negb_true_iff.
    destruct (List.existsb (Js.includes q) U') eqn:E; [|reflexivity].
    apply existsb_exists in E as (u & Hu & Hi).
    assert (X : List.existsb (Js.includes (w ++ q ++ w')) U = true).
    { apply existsb_exists. exists u. split; [auto|].
      eapply includes_infix; [reflexivity|exact Hi]. }
    congruence. }
  unfold scrubbed_text. rewrite (filter_all _ _ Hkept).
  assert (Hjoin : Js.join [LF; LF] (Js.split_blank false N) = N).
  { assert (E : Js.join [LF; LF] K = J) by reflexivity.
    rewrite Hglue in E.
    rewrite !join_glue in E by (try apply glue_not_nil; apply split_blank_not_nil).
    rewrite EJ in E. symmetry.
    apply (app3_length_inv _ _ _ _ _ _ (eq_sym E)); apply join_split_length. }
  rewrite Hjoin. apply trim_idempotent.
Qed.

Lemma In_uniq (x : list ascii) (l : list (list ascii)) : In x (uniq l) <-> In x l.
Proof.
  induction l as [|y l IH]; [reflexivity|]. cbn [uniq In]. rewrite filter_In, IH.
  split.
  - intros [H|[H _]]; auto.
  - intros [H|H]; [auto|]. destruct (decide (x = y)) as [->|Hne]; [auto|].
    right. split; [exact H|]. now rewrite bool_decide_eq_false_2.
Qed.

(** After one pass every unknown token was already unknown before it. *)
Lemma unknown_tokens_scrubbed (U : list (list ascii)) (s : list ascii) (u : list ascii) :
  In u (unknown_tokens paths (scrubbed_text paths U s)) -> In u (unknown_tokens paths s).
Proof.
  unfold unknown_tokens. rewrite !filter_In, !In_uniq. intros [Hu Hn]. split; [|exact Hn].
  unfold scrubbed_text in Hu. rewrite fileLike_matches_trim, fileLike_matches_join in Hu.
  rewrite <- fileLike_matches_split.
  apply in_concat in Hu as (ts & Hts & Hu). apply in_concat. exists ts. split; [|exact Hu].
  apply in_map_iff in Hts as (p & <- & Hp). apply in_map_iff. exists p. split; [reflexivity|].
  apply filter_In in Hp. tauto.
Qed.

End Stable.

(** ** The [missing] list *)

Lemma add_missing_keeps (missing : list Json) (a b : string) :
  List.existsb (is_str b) missing = true ->
  List.existsb (is_str b) (add_missing missing a) = true.
Proof.
  intros H. unfold add_missing. destruct (List.existsb (is_str a) missing); [exact H|].
  rewrite existsb_app, H. reflexivity.
Qed.

Lemma add_missing_has (missing : list Json) (a : string) :
  List.existsb (is_str a) (add_missing missing a) = true.
Proof.
  unfold add_missing. destruct (List.existsb (is_str a) missing) eqn:E; [exact E|].
  rewrite existsb_app. cbn [List.existsb is_str]. rewrite String.eqb_refl. apply orb_true_r.
Qed.

Lemma fold_add_missing_keeps (adds : list string) (missing : list Json) (b : string) :
  List.existsb (is_str b) missing = true ->
  List.existsb (is_str b) (fold_left add_missing adds missing) = true.
Proof.
  revert missing. induction adds as [|a adds IH]; intros missing H; [exact H|].
  cbn [fold_left]. apply IH. now apply add_missing_keeps.
Qed.

Lemma fold_add_missing_has (adds : list string) (missing : list Json) (a : string) :
  In a adds -> List.existsb (is_str a) (fold_left add_missing adds missing) = true.
Proof.
  revert missing. induction adds as [|x adds IH]; intros missing; [intros []|].
  cbn [fold_left]. intros [->|H]; [|now apply IH].
  apply fold_add_missing_keeps, add_missing_has.
Qed.

Lemma fold_add_missing_present (adds : list string) (missing : list Json) :
  (forall a, In a adds -> List.existsb (is_str a) missing = true) ->
  fold_left add_missing adds missing = missing.
Proof.
  induction adds as [|a adds IH]; intros H; [reflexivity|]. cbn [fold_left].
  unfold add_missing at 2. rewrite (H a (or_introl eq_refl)). apply IH.
  intros b Hb. apply H. now right.
Qed.

(** ** Strings *)

Lemma str_nil_iff (l : list ascii) : is_nil l = false -> nonempty (str l) = true.
Proof. destruct l; [discriminate|reflexivity]. Qed.

Lemma ABSENT_SENTENCE_has_no_token (paths : gset string) :
  unknown_tokens paths (chars ABSENT_SENTENCE) = [].
Proof.
  unfold unknown_tokens.
  assert (E : fileLike_matches (chars ABSENT_SENTENCE) = []) by (vm_compute; reflexivity).
  now rewrite E.
Qed.

Lemma answer_text_insert (json : gmap string Json) (a : string) :
  answer_text (<["answer" := JStr a]> json) = a.
Proof. unfold answer_text. now rewrite lookup_insert_eq. Qed.

Lemma answer_text_other (json : gmap string Json) (k : string) (v : Json) :
  k <> "answer" -> answer_text (<[k := v]> json) = answer_text json.
Proof. intros H. unfold answer_text. now rewrite lookup_insert_ne. Qed.

Lemma or_reason_fixed (d : string) (json : gmap string Json) :
  truthy (json !! "reason") = true -> or_reason d json = json.
Proof. intros H. unfold or_reason. now rewrite H. Qed.

Lemma or_reason_idem (d : string) (json : gmap string Json) :
  nonempty d = true -> or_reason d (or_reason d json) = or_reason d json.
Proof. intros H. apply or_reason_fixed, or_reason_truthy, H. Qed.

Lemma answer_text_or_reason (d : string) (json : gmap string Json) :
  answer_text (or_reason d json) = answer_text json.
Proof. unfold answer_text. now rewrite or_reason_other by discriminate. Qed.

(** C6. A second pass of the prose scrub over the object a first pass
    produced returns that object unchanged: the same answer, the same
    [missing] list, the same [cannot_answer] (and the same [reason]). *)
Theorem scrub_idempotent (paths : gset string) (json json' : gmap string Json) :
  scrub paths json = Some json' -> scrub paths json' = Some json'.
Proof.
  intros H. pose proof H as H0. unfold scrub in H.
  destruct (nonempty (answer_text json)) eqn:Hne; [|now injection H as <-].
  set (U := unknown_tokens paths (chars (answer_text json))) in *.
  destruct (is_nil U) eqn:HU; cbn [negb] in H; [now injection H as <-|].
  set (N := scrubbed_text paths U (chars (answer_text json))) in *.
  set (j0 := if is_nil N then <["cannot_answer" := JBool false]> json else json) in *.
  set (A1 := if is_nil N then ABSENT_SENTENCE else str N) in *.
  rewrite lookup_insert_ne in H by discriminate.
  destruct (j0 !! "missing") as [[| | | |m|]|] eqn:Hm; try discriminate.
  set (M1 := fold_left add_missing (List.map (fun u => str (strip_ext u)) U) m) in *.
  injection H as <-. clear H0.
  set (j1 := <["missing" := JArr M1]> (<["answer" := JStr A1]> j0)).
  assert (Ha : answer_text (or_reason REMOVED_REASON j1) = A1).
  { rewrite answer_text_or_reason. unfold j1.
    rewrite answer_text_other by discriminate. apply answer_text_insert. }
  assert (Hmiss : or_reason REMOVED_REASON j1 !! "missing" = Some (JArr M1)).
  { rewrite or_reason_other by discriminate. unfold j1. now rewrite lookup_insert_eq. }
  assert (Hans : or_reason REMOVED_REASON j1 !! "answer" = Some (JStr A1)).
  { rewrite or_reason_other by discriminate. unfold j1.
    rewrite lookup_insert_ne by discriminate. now rewrite lookup_insert_eq. }
  unfold scrub. rewrite Ha.
  destruct (is_nil N) eqn:HN.
  - (* the answer is the fixed sentence: it names no file *)
    subst A1. cbn [nonempty]. rewrite ABSENT_SENTENCE_has_no_token.
    now destruct (nonempty ABSENT_SENTENCE).
  - subst A1. rewrite (str_nil_iff N HN), chars_str.
    destruct (is_nil (unknown_tokens paths N)) eqn:HU'; cbn [negb]; [reflexivity|].
    assert (Hsub : forall u, In u (unknown_tokens paths N) -> In u U).
    { intros u Hu. unfold N in Hu. now apply unknown_tokens_scrubbed in Hu. }
    assert (HNne : N <> []) by (intros E; rewrite E in HN; discriminate).
    pose proof (scrubbed_text_stable paths U (unknown_tokens paths N)
                  (chars (answer_text json)) Hsub HNne) as Hst.
    fold N in Hst. rewrite Hst, HN.
    rewrite (insert_id _ _ _ Hans), Hmiss.
    rewrite fold_add_missing_present.
    + rewrite (insert_id _ _ _ Hmiss). f_equal. apply or_reason_idem. reflexivity.
    + intros a Ha'. apply in_map_iff in Ha' as (u & <- & Hu).
      apply fold_add_missing_has. apply in_map_iff. exists u. auto.
Qed.

Lemma scrub_idempotent_witness :
  exists j, scrub (availablePaths one_file) hallucinated_answer = Some j /\
            scrub (availablePaths one_file) j = Some j.
Proof.
  destruct (scrub (availablePaths one_file) hallucinated_answer) as [j|] eqn:E.
  - exists j. split; [reflexivity|]. exact (scrub_idempotent _ _ _ E).
  - vm_compute in E. discriminate.
Defined.

(** * The rate limiter *)

Lemma rateLimit_other (W M : Z) (store : gmap string RateEntry) (req : Request) (now : Z)
    (ip : string) :
  ip <> client_ip req -> fst (rateLimitMiddleware W M store req now) !! ip = store !! ip.
Proof.
  intros H. unfold rateLimitMiddleware. cbn [fst]. now rewrite lookup_insert_ne by congruence.
Qed.

(** The entry and the verdict depend on the store only through the
    client's own entry. *)
Lemma rateLimit_local (W M : Z) (s1 s2 : gmap string RateEntry) (req : Request) (now : Z) :
  s1 !! client_ip req = s2 !! client_ip req ->
  snd (rateLimitMiddleware W M s1 req now) = snd (rateLimitMiddleware W M s2 req now) /\
  fst (rateLimitMiddleware W M s1 req now) !! client_ip req
  = fst (rateLimitMiddleware W M s2 req now) !! client_ip req.
Proof.
  intros H. unfold rateLimitMiddleware. cbn [fst snd]. rewrite !lookup_insert_eq, H. auto.
Qed.

Lemma serve_cons (W M : Z) (store : gmap string RateEntry) (req : Request) (now : Z)
    (rest : list (Request * Z)) :
  serve W M store ((req, now) :: rest) =
  (fst (serve W M (fst (rateLimitMiddleware W M store req now)) rest),
   (client_ip req, snd (rateLimitMiddleware W M store req now))
     :: snd (serve W M (fst (rateLimitMiddleware W M store req now)) rest)).
Proof.
  cbn [serve]. destruct (rateLimitMiddleware W M store req now) as [s' v]. cbn [fst snd].
  now destruct (serve W M s' rest).
Qed.

(** X1. Clients do not interfere: the verdicts one IP receives in a mixed
    sequence of requests are the verdicts it would receive if only its own
    requests were served, from any store holding the same entry for it. *)
Theorem rate_limit_per_client (W M : Z) (ip : string) (requests : list (Request * Z))
    (s1 s2 : gmap string RateEntry) :
  s1 !! ip = s2 !! ip ->
  List.filter (fun v => String.eqb (fst v) ip) (snd (serve W M s1 requests))
  = snd (serve W M s2 (List.filter (fun r => String.eqb (client_ip (fst r)) ip) requests)).
Proof.
  revert s1 s2. induction requests as [|[req now] rest IH]; intros s1 s2 H; [reflexivity|].
  rewrite serve_cons. cbn [snd List.filter fst].
  destruct (String.eqb_spec (client_ip req) ip) as [E|E].
  - rewrite serve_cons. cbn [snd]. subst ip.
    destruct (rateLimit_local W M s1 s2 req now H) as [Ev Es]. rewrite Ev. f_equal.
    apply IH. exact Es.
  - apply IH. rewrite rateLimit_other by congruence. exact H.
Qed.

Lemma rate_limit_per_client_witness :
  List.filter (fun v => String.eqb (fst v) "10.0.0.1")
    (snd (serve 60000 1 ∅ [(mkRequest (Some "10.0.0.1") None, 0);
                           (mkRequest (Some "10.0.0.2") None, 1);
                           (mkRequest (Some "10.0.0.1") None, 2)]))
  = [("10.0.0.1", Next); ("10.0.0.1", TooManyRequests)].
Proof.
  rewrite (rate_limit_per_client 60000 1 "10.0.0.1" _ ∅ ∅ eq_refl). vm_compute. reflexivity.
Defined.

(** Requests of one client, all arriving while its window is open. *)
Lemma serve_open_window (W M : Z) (req : Request) (times : list Z)
    (store : gmap string RateEntry) (c t0 : Z) :
  store !! client_ip req = Some {| count := c; windowStart := t0 |} ->
  (forall t, In t times -> t - t0 <= W) ->
  List.map snd (snd (serve W M store (List.map (fun t => (req, t)) times)))
  = List.map (fun k => if M <? c + Z.of_nat k then TooManyRequests else Next)
      (seq 1 (List.length times)).
Proof.
  revert store c. induction times as [|t times IH]; intros store c Hs Ht; [reflexivity|].
  cbn [List.map]. rewrite serve_cons. cbn [snd List.map List.length seq].
  assert (Hw : (W <? t - t0) = false) by (apply Z.ltb_ge, Ht; now left).
  assert (Hstep : rateLimitMiddleware W M store req t =
    (<[client_ip req := {| count := c + 1; windowStart := t0 |}]> store,
     if M <? c + 1 then TooManyRequests else Next)).
  { unfold rateLimitMiddleware. rewrite Hs. cbn [from_option id windowStart count]. now rewrite Hw. }
  rewrite Hstep. cbn [fst snd]. f_equal.
  rewrite (IH _ (c + 1)).
  - rewrite <- (seq_shift (List.length times) 1), List.map_map. apply map_ext. intros k.
    replace (c + 1 + Z.of_nat k) with (c + Z.of_nat (S k)) by lia. reflexivity.
  - apply lookup_insert_eq.
  - intros u Hu. apply Ht. now right.
Qed.

(** X2. A client with no entry opens a window with its first request; of
    the requests it sends until [RATE_LIMIT_WINDOW_MS] after that first one,
    exactly the first [RATE_LIMIT_MAX] are let through and every later one is
    answered 429. *)
Theorem rate_limit_window (W M : Z) (req : Request) (t0 : Z) (times : list Z)
    (store : gmap string RateEntry) :
  store !! client_ip req = None ->
  (forall t, In t times -> t - t0 <= W) ->
  List.map snd (snd (serve W M store (List.map (fun t => (req, t)) (t0 :: times))))
  = List.map (fun k => if M <? Z.of_nat k then TooManyRequests else Next)
      (seq 1 (S (List.length times))).
Proof.
  intros Hs Ht.
  assert (Hstep : rateLimitMiddleware W M store req t0 =
    (<[client_ip req := {| count := 1; windowStart := t0 |}]> store,
     if M <? 1 then TooManyRequests else Next)).
  { unfold rateLimitMiddleware. rewrite Hs. cbn [from_option id windowStart count].
    rewrite Z.sub_diag. now destruct (W <? 0). }
  cbn [List.map]. rewrite serve_cons, Hstep. cbn [fst snd List.map seq]. f_equal.
  rewrite (serve_open_window W M req times _ 1 t0); [|apply lookup_insert_eq|exact Ht].
  rewrite <- (seq_shift (List.length times) 1), List.map_map. apply map_ext. intros k.
  replace (1 + Z.of_nat k) with (Z.of_nat (S k)) by lia. reflexivity.
Qed.

Lemma rate_limit_window_witness :
  List.map snd (snd (serve 60000 2 ∅
    (List.map (fun t => (mkRequest (Some "10.0.0.1") None, t)) [5; 10; 60005])))
  = [Next; Next; TooManyRequests].
Proof.
  rewrite (rate_limit_window 60000 2 (mkRequest (Some "10.0.0.1") None) 5 [10; 60005] ∅).
  - reflexivity.
  - reflexivity.
  - intros t [<-|[<-|[]]]; lia.
Defined.

(** * Retry with backoff *)

Lemma retry_loop_spec {R} (get : nat -> option R) (backoff : Z) (remaining i : nat)
    (slept : list Z) :
  exists k, (k <= remaining)%nat /\
    (forall j, (j < k)%nat -> get (i + j)%nat = None) /\
    snd (retry_loop get backoff i remaining slept)
      = slept ++ List.map (fun j => backoff * 2 ^ Z.of_nat j) (seq i k) /\
    ((k < remaining)%nat /\ fst (retry_loop get backoff i remaining slept) = get (i + k)%nat
       /\ get (i + k)%nat <> None
     \/ k = remaining /\ fst (retry_loop get backoff i remaining slept) = None).
Proof.
  revert i slept. induction remaining as [|r IH]; intros i slept.
  - exists 0%nat. cbn. rewrite app_nil_r. repeat split; auto. intros j Hj. lia.
  - cbn [retry_loop]. destruct (get i) as [x|] eqn:E.
    + exists 0%nat. cbn [fst snd seq List.map]. rewrite app_nil_r, Nat.add_0_r.
      split; [lia|]. split; [intros j Hj; lia|]. split; [reflexivity|].
      left. rewrite E. repeat split; [lia|discriminate].
    + destruct (IH (S i) (slept ++ [backoff * 2 ^ Z.of_nat i])) as (k & Hk & Hn & Hs & Hr).
      exists (S k). split; [lia|]. split; [|split].
      * intros [|j] Hj; [now rewrite Nat.add_0_r|].
        replace (i + S j)%nat with (S i + j)%nat by lia. apply Hn. lia.
      * rewrite Hs, <- List.app_assoc. reflexivity.
      * replace (i + S k)%nat with (S i + k)%nat by lia.
        destruct Hr as [(? & ? & ?)|[? ?]]; [left|right]; repeat split; auto; lia.
Qed.

(** X3. [axiosGetWithRetry] returns the response of the first call that
    succeeds among the first [attempts] calls and throws when none does; it
    has then slept [backoff * 2^j] after each failed call [j], the last one
    included. *)
Theorem axiosGetWithRetry_spec {R} (get : nat -> option R) (attempts : nat) (backoff : Z) :
  exists failures,
    (failures <= attempts)%nat /\
    (forall j, (j < failures)%nat -> get j = None) /\
    snd (axiosGetWithRetry get attempts backoff)
      = List.map (fun j => backoff * 2 ^ Z.of_nat j) (seq 0 failures) /\
    ((failures < attempts)%nat /\ get failures <> None /\
       fst (axiosGetWithRetry get attempts backoff) = get failures
     \/ failures = attempts /\ fst (axiosGetWithRetry get attempts backoff) = None).
Proof.
  unfold axiosGetWithRetry.
  destruct (retry_loop_spec get backoff attempts 0 []) as (k & Hk & Hn & Hs & Hr).
  exists k. cbn [app Nat.add] in *. repeat split; auto.
  destruct Hr as [(? & ? & ?)|[? ?]]; [left|right]; auto.
Qed.

Lemma axiosGetWithRetry_spec_aux {R} (get : nat -> option R) (attempts : nat) (backoff : Z) :
  (forall j, (j < attempts)%nat -> get j = None) ->
  fst (axiosGetWithRetry get attempts backoff) = None /\
  snd (axiosGetWithRetry get attempts backoff)
    = List.map (fun j => backoff * 2 ^ Z.of_nat j) (seq 0 attempts).
Proof.
  intros Hall. unfold axiosGetWithRetry.
  destruct (retry_loop_spec get backoff attempts 0 []) as (k & Hk & Hn & Hs & Hr).
  cbn [app Nat.add] in *.
  destruct Hr as [(Hlt & _ & Hne)|[-> Hf]]; [|auto].
  destruct Hne. apply Hall. exact Hlt.
Qed.

Lemma sum_backoff (backoff : Z) (n : nat) :
  fold_right Z.add 0 (List.map (fun j => backoff * 2 ^ Z.of_nat j) (seq 0 n))
  = backoff * (2 ^ Z.of_nat n - 1).
Proof.
  induction n as [|n IH]; [cbn; lia|].
  rewrite seq_S, List.map_app, fold_right_app. cbn [List.map fold_right Nat.add].
  assert (G : forall l a, fold_right Z.add a l = fold_right Z.add 0 l + a).
  { clear. induction l as [|x l IH]; intros a; cbn [fold_right]; [lia|]. rewrite IH. lia. }
  rewrite G, IH. rewrite Nat2Z.inj_succ, Z.pow_succ_r by lia. lia.
Qed.

(** X4. When every attempt fails the call throws only after having slept
    [backoff * (2^attempts - 1)] in total (2100 ms with the defaults), the
    useless delay after the last attempt included. *)
Theorem axiosGetWithRetry_all_fail {R} (get : nat -> option R) (attempts : nat) (backoff : Z) :
  (forall j, (j < attempts)%nat -> get j = None) ->
  fst (axiosGetWithRetry get attempts backoff) = None /\
  List.length (snd (axiosGetWithRetry get attempts backoff)) = attempts /\
  fold_right Z.add 0 (snd (axiosGetWithRetry get attempts backoff))
  = backoff * (2 ^ Z.of_nat attempts - 1).
Proof.
  intros Hall.
  destruct (axiosGetWithRetry_spec_aux get attempts backoff Hall) as (Hf & Hs).
  rewrite Hs, length_map, length_seq, sum_backoff. auto.
Qed.

Lemma axiosGetWithRetry_all_fail_witness :
  fold_right Z.add 0 (snd (axiosGetWithRetry (fun _ => @None string) 3 300)) = 2100.
Proof.
  destruct (axiosGetWithRetry_all_fail (fun _ => @None string) 3 300) as (_ & _ & H).
  - reflexivity.
  - exact H.
Defined.

(** * More about the candidate filter and the selector *)

Lemma by_structure_total (x y : TreeEntry) : 0 < by_structure x y -> by_structure y x <= 0.
Proof.
  unfold by_structure.
  destruct (or_else_cases (depth (t_path x) - depth (t_path y)) (size_or_0 y - size_or_0 x))
    as [[? ->]|[? ->]];
  destruct (or_else_cases (depth (t_path y) - depth (t_path x)) (size_or_0 x - size_or_0 y))
    as [[? ->]|[? ->]]; lia.
Qed.

Lemma by_structure_trans (x y z : TreeEntry) :
  by_structure x y <= 0 -> by_structure y z <= 0 -> by_structure x z <= 0.
Proof.
  unfold by_structure.
  destruct (or_else_cases (depth (t_path x) - depth (t_path y)) (size_or_0 y - size_or_0 x))
    as [[? ->]|[? ->]];
  destruct (or_else_cases (depth (t_path y) - depth (t_path z)) (size_or_0 z - size_or_0 y))
    as [[? ->]|[? ->]];
  destruct (or_else_cases (depth (t_path x) - depth (t_path z)) (size_or_0 z - size_or_0 x))
    as [[? ->]|[? ->]]; lia.
Qed.

Lemma by_structure_le (a b : TreeEntry) :
  by_structure a b <= 0 <->
  depth (t_path a) <= depth (t_path b) /\
  (depth (t_path a) = depth (t_path b) -> size_or_0 b <= size_or_0 a).
Proof.
  unfold by_structure.
  destruct (or_else_cases (depth (t_path a) - depth (t_path b)) (size_or_0 b - size_or_0 a))
    as [[? ->]|[? ->]]; lia.
Qed.

Lemma filteredCandidates_sorted (rules : Rules) (tree : list TreeEntry) :
  StronglySorted (fun a b => by_structure a b <= 0) (filteredCandidates rules tree).
Proof. apply sort_by_sorted; [apply by_structure_total|apply by_structure_trans]. Qed.

(** X5. The candidates are exactly the blobs of the tree that carry a
    source extension and pass the rules, each as often as the tree lists it,
    ordered by depth and, at equal depth, by decreasing size hint. *)
Theorem filteredCandidates_spec (rules : Rules) (tree : list TreeEntry) :
  Permutation (filteredCandidates rules tree)
    (List.filter (fun t => is_candidate t && passes_rules rules t) tree) /\
  (forall i j a b, (i < j)%nat ->
     nth_error (filteredCandidates rules tree) i = Some a ->
     nth_error (filteredCandidates rules tree) j = Some b ->
     depth (t_path a) <= depth (t_path b) /\
     (depth (t_path a) = depth (t_path b) -> size_or_0 b <= size_or_0 a)).
Proof.
  split.
  - unfold filteredCandidates. rewrite <- sort_by_perm.
    induction tree as [|t tree IH]; [reflexivity|]. cbn [List.filter].
    destruct (is_candidate t); cbn [List.filter andb]; [|exact IH].
    destruct (passes_rules rules t); [now constructor|exact IH].
  - intros i j a b Hij Ha Hb. apply by_structure_le.
    exact (StronglySorted_nth _ _ (filteredCandidates_sorted rules tree) i j a b Hij Ha Hb).
Qed.

Lemma topCandidates_In (rules : Rules) (tree : list TreeEntry) (item : TreeEntry) :
  In item (topCandidates rules tree) ->
  In item tree /\ is_candidate item = true /\ passes_rules rules item = true.
Proof.
  intros H. unfold topCandidates in H. apply In_firstn in H.
  unfold filteredCandidates in H. apply sort_by_In in H.
  apply filter_In in H as [H Hp]. apply filter_In in H as [H Hc]. auto.
Qed.

(** Where a file of the result comes from. *)
Lemma result_file_origin (engine : Engine) (gh : GitHub) (rules : Rules)
    (openai : option Embedder) (opts : Opts) (question : string) (f : File) :
  In f (files (fetchRepoTreeAndFiles engine gh rules openai opts question)) ->
  (exists b tree item,
     gh_repo gh = Some b /\ gh_tree gh (default_branch b) = Some tree /\
     In item (topCandidates rules tree) /\ t_path item = f_path f /\
     fetched (fun path => gh_contents gh path (default_branch b)) item = true)
  \/ is_manifest depFiles f.
Proof.
  unfold fetchRepoTreeAndFiles.
  destruct (gh_repo gh) as [b|] eqn:Hrepo; [|intros []].
  destruct (gh_tree gh (default_branch b)) as [tree|] eqn:Htree; [|intros []].
  cbv zeta. set (pool := fst (scoredFiles gh rules opts question (default_branch b) tree)).
  set (ranked := rank engine openai question pool).
  destruct (admit_ranked_prefix (maxFiles_of opts) (maxBytes_of opts) ranked empty_result)
    as (added & rest & Hr & Hf).
  destruct (ensure_deps_frame (gh_contents_root gh) (maxBytes_of opts) depFiles
              (admit_ranked (maxFiles_of opts) (maxBytes_of opts) ranked empty_result))
    as (extra & He & _ & Hm).
  rewrite He, Hf. cbn [files empty_result app]. intros Hin.
  apply in_app_or in Hin as [Hin|Hin].
  - left. apply in_map_iff in Hin as (g & <- & Hg).
    change (f_path (file_of g)) with (sf_path g).
    assert (Hgr : In g ranked) by (rewrite Hr; apply in_or_app; auto).
    apply rank_paths in Hgr. apply in_map_iff in Hgr as (g' & E & Hg').
    subst pool. rewrite scoredFiles_spec in Hg'.
    destruct (_ || _); cbn [fst] in Hg'; [destruct Hg'|].
    apply in_flat_map in Hg' as (item & Hi & Hg').
    apply scored_candidate_In in Hg' as (content & Hc & ->).
    exists b, tree, item. repeat split; auto. unfold fetched. now rewrite Hc.
  - right. rewrite List.Forall_forall in Hm. auto.
Qed.

Lemma depFiles_not_vendored (f : File) (p : string) :
  is_manifest depFiles f -> In p skipPatterns -> includes (f_path f) p = false.
Proof.
  intros [Hf _] Hp. cbn [depFiles In] in Hf.
  destruct Hf as [<-|[<-|[<-|[]]]];
    repeat (destruct Hp as [<-|Hp]; [vm_compute; reflexivity|]); destruct Hp.
Qed.

(** X6. Without a whitelist no file from a built-in vendor or build
    directory reaches the result, and a ranked file matches no blacklist
    pattern; the manifest pass, however, does not consult the rules. *)
Theorem vendored_files_excluded (engine : Engine) (gh : GitHub) (rules : Rules)
    (openai : option Embedder) (opts : Opts) (question : string) (f : File) :
  whitelist rules = [] ->
  In f (files (fetchRepoTreeAndFiles engine gh rules openai opts question)) ->
  (forall p, In p skipPatterns -> includes (f_path f) p = false) /\
  (is_manifest depFiles f \/ forall p, In p (blacklist rules) -> includes (f_path f) p = false).
Proof.
  intros Hw Hf. apply result_file_origin in Hf as [(b & tree & item & _ & _ & Hi & <- & _)|Hm].
  - apply topCandidates_In in Hi as (_ & _ & Hp). unfold passes_rules in Hp.
    rewrite Hw in Hp. cbn [List.existsb] in Hp.
    destruct (List.existsb (includes (t_path item)) (blacklist rules)) eqn:Eb; [discriminate|].
    apply negb_true_iff in Hp. split.
    + intros p Hin. destruct (includes (t_path item) p) eqn:E; [|reflexivity].
      assert (X : List.existsb (includes (t_path item)) skipPatterns = true)
        by (apply existsb_exists; eauto).
      congruence.
    + right. intros p Hin. destruct (includes (t_path item) p) eqn:E; [|reflexivity].
      assert (X : List.existsb (includes (t_path item)) (blacklist rules) = true)
        by (apply existsb_exists; eauto).
      congruence.
  - split; [|now left]. intros p Hp. now apply depFiles_not_vendored.
Qed.

Lemma vendored_files_excluded_witness :
  forallb (fun f => negb (List.existsb (includes (f_path f)) skipPatterns))
    (files (fetchRepoTreeAndFiles idle_engine small_repo no_rules None
              {| o_maxFiles := None; o_maxBytes := None |} "where is auth")) = true.
Proof.
  apply forallb_forall. intros f Hf. apply negb_true_iff.
  destruct (vendored_files_excluded idle_engine small_repo no_rules None
              {| o_maxFiles := None; o_maxBytes := None |} "where is auth" f eq_refl Hf)
    as [H _].
  destruct (List.existsb (includes (f_path f)) skipPatterns) eqn:E; [|reflexivity].
  apply existsb_exists in E as (p & Hp & Hi). rewrite (H p Hp) in Hi. discriminate.
Defined.

(** X7. A content request that fails, or whose response carries no or an
    empty [content] field, removes only that file: with positive caps the
    scored pool lists, in window order, exactly the window candidates for
    which a non-empty [content] field came back, whatever it decodes to. *)
Theorem partial_fetch_failure (gh : GitHub) (rules : Rules) (opts : Opts)
    (question branch : string) (tree : list TreeEntry) :
  0 < maxFiles_of opts -> 0 < maxBytes_of opts ->
  List.map sf_originalItem (fst (scoredFiles gh rules opts question branch tree))
  = List.filter (fetched (fun path => gh_contents gh path branch)) (topCandidates rules tree).
Proof.
  intros HF HB. rewrite scoredFiles_spec.
  destruct (Z.leb_spec (maxFiles_of opts) 0); [lia|].
  destruct (Z.leb_spec (maxBytes_of opts) 0); [lia|]. cbn [orb fst].
  induction (topCandidates rules tree) as [|item items IH]; [reflexivity|].
  cbn [flat_map List.filter]. rewrite List.map_app, IH.
  unfold scored_candidate, fetched.
  destruct (gh_contents gh (t_path item) branch) as [c|]; reflexivity.
Qed.

Lemma partial_fetch_failure_witness :
  List.map sf_originalItem
    (fst (scoredFiles small_repo no_rules {| o_maxFiles := None; o_maxBytes := None |}
            "where is auth" "main" [blob "missing.js" 1; blob "a.js" 18]))
  = List.filter (fetched (fun path => gh_contents small_repo path "main"))
      (topCandidates no_rules [blob "missing.js" 1; blob "a.js" 18]).
Proof.
  apply (partial_fetch_failure small_repo no_rules {| o_maxFiles := None; o_maxBytes := None |}
           "where is auth" "main" [blob "missing.js" 1; blob "a.js" 18]); reflexivity.
Defined.

(** * Scores, ranking and the byte counter *)

Lemma sum_over_app {A} (g : A -> Z) (l l' : list A) :
  sum_over g (l ++ l') = sum_over g l + sum_over g l'.
Proof.
  unfold sum_over. induction l as [|x l IH]; cbn [app fold_right]; [reflexivity|].
  rewrite IH. lia.
Qed.

Lemma sum_over_bounds {A} (g : A -> Z) (hi : Z) (l : list A) :
  (forall k, 0 <= g k <= hi) -> 0 <= sum_over g l <= hi * Z.of_nat (List.length l).
Proof.
  intros H. unfold sum_over. induction l as [|x l IH]; cbn [fold_right List.length]; [lia|].
  specialize (H x). lia.
Qed.

Lemma relevance_bounds (kws : list (list ascii)) (path content : list ascii) :
  0 <= relevance kws path content <= 30 * Z.of_nat (List.length kws).
Proof.
  unfold relevance, content_loop. rewrite fold_left_sum, path_loop_sum.
  pose proof (sum_over_bounds
    (fun k => if Js.includes (Js.toLowerCase path) k then 10 else 0) 10 kws) as H1.
  pose proof (sum_over_bounds
    (fun k => Z.min (Z.of_nat (Js.count_matches 0 k (Js.toLowerCase content))) 20) 20 kws) as H2.
  cbv beta in H1, H2.
  assert (A1 : forall k : list ascii,
             0 <= (if Js.includes (Js.toLowerCase path) k then 10 else 0) <= 10)
    by (intros k; destruct (Js.includes _ k); lia).
  assert (A2 : forall k : list ascii,
             0 <= Z.min (Z.of_nat (Js.count_matches 0 k (Js.toLowerCase content))) 20 <= 20)
    by (intros k; lia).
  specialize (H1 A1). specialize (H2 A2). lia.
Qed.

(** X8. The lexical score of a scored file lies between 0 and 30 points
    per keyword of the question. *)
Theorem score_bounds (gh : GitHub) (rules : Rules) (opts : Opts)
    (question branch : string) (tree : list TreeEntry) (f : ScoredFile) :
  In f (fst (scoredFiles gh rules opts question branch tree)) ->
  0 <= sf_score f <= 30 * Z.of_nat (List.length (keywords question)).
Proof.
  rewrite scoredFiles_spec. destruct (_ || _); cbn [fst]; [intros []|].
  intros H. apply in_flat_map in H as (item & _ & H).
  apply scored_candidate_In in H as (content & _ & ->).
  cbn [scored_of sf_score]. apply relevance_bounds.
Qed.

Lemma score_bounds_witness :
  0 <= sf_score (scored_of (keywords "where is auth") (blob "a.js" 18) "function auth() {}")
    <= 30 * Z.of_nat (List.length (keywords "where is auth")).
Proof.
  apply (score_bounds small_repo no_rules {| o_maxFiles := None; o_maxBytes := None |}
           "where is auth" "main" [blob "src/b.js" 18; blob "a.js" 18; blob "package.json" 2]).
  vm_compute. left. reflexivity.
Defined.

(** ** A question without keywords *)

Lemma sort_by_sorted_id {A} (cmp : A -> A -> Z) (l : list A) :
  StronglySorted (fun a b => cmp a b <= 0) l -> sort_by cmp l = l.
Proof.
  induction 1 as [|x l Hs IH Hx]; [reflexivity|]. cbn [sort_by]. rewrite IH.
  destruct l as [|y l']; [reflexivity|]. cbn [insert_by].
  inversion Hx as [|? ? Hxy _]; subst. destruct (Z.leb_spec (cmp x y) 0); [reflexivity|lia].
Qed.

Lemma StronglySorted_firstn {A} (R : A -> A -> Prop) (n : nat) (l : list A) :
  StronglySorted R l -> StronglySorted R (firstn n l).
Proof.
  intros H. revert n. induction H as [|x l Hs IH Hx]; intros [|n]; cbn [firstn]; try constructor.
  - apply IH.
  - apply List.Forall_forall. intros y Hy. apply In_firstn in Hy.
    rewrite List.Forall_forall in Hx. auto.
Qed.

Lemma topCandidates_sorted (rules : Rules) (tree : list TreeEntry) :
  StronglySorted (fun a b => by_structure a b <= 0) (topCandidates rules tree).
Proof. apply StronglySorted_firstn, filteredCandidates_sorted. Qed.

Lemma pool_unscored_sorted (fetch : string -> option string) (items : list TreeEntry) :
  StronglySorted (fun a b => by_structure a b <= 0) items ->
  StronglySorted (fun a b => by_score a b <= 0) (flat_map (scored_candidate fetch []) items).
Proof.
  induction 1 as [|item items Hs IH Hx]; cbn [flat_map]; [constructor|].
  unfold scored_candidate at 1. destruct (fetch (t_path item)) as [c|]; [|exact IH].
  cbn [app]. constructor; [exact IH|].
  apply List.Forall_forall. intros g Hg. apply in_flat_map in Hg as (item' & Hi & Hg).
  apply scored_candidate_In in Hg as (c' & _ & ->).
  apply by_score_le. cbn [scored_of sf_path sf_score relevance content_loop path_loop fold_left].
  rewrite List.Forall_forall in Hx. apply Hx, by_structure_le in Hi. lia.
Qed.

(** X9. When the question has no keyword (no word longer than three
    characters) every score is 0 and the lexical ranking leaves the scored
    pool as fetched, in the structural order of the candidate window. *)
Theorem no_keywords_structural_order (engine : Engine) (gh : GitHub) (rules : Rules)
    (openai : option Embedder) (opts : Opts) (question branch : string) (tree : list TreeEntry) :
  keywords question = [] ->
  let pool := fst (scoredFiles gh rules opts question branch tree) in
  lexical_mode openai question pool ->
  Forall (fun f => sf_score f = 0) pool /\
  List.map lexical_fields (rank engine openai question pool) = List.map lexical_fields pool.
Proof.
  intros Hk pool Hm. split.
  - subst pool. rewrite scoredFiles_spec. destruct (_ || _); cbn [fst]; [constructor|].
    apply List.Forall_forall. intros f Hf. apply in_flat_map in Hf as (item & _ & Hf).
    apply scored_candidate_In in Hf as (c & _ & ->). rewrite Hk. reflexivity.
  - rewrite (rank_lexical_fields engine _ _ _ Hm). f_equal. apply sort_by_sorted_id.
    subst pool. rewrite scoredFiles_spec. destruct (_ || _); cbn [fst]; [constructor|].
    rewrite Hk. apply pool_unscored_sorted, topCandidates_sorted.
Qed.

Lemma no_keywords_structural_order_witness :
  List.map sf_path
    (rank idle_engine None "hi"
       (fst (scoredFiles small_repo no_rules {| o_maxFiles := None; o_maxBytes := None |}
               "hi" "main" [blob "src/b.js" 18; blob "a.js" 18; blob "package.json" 2])))
  = ["a.js"; "package.json"; "src/b.js"].
Proof.
  destruct (no_keywords_structural_order idle_engine small_repo no_rules None
              {| o_maxFiles := None; o_maxBytes := None |} "hi" "main"
              [blob "src/b.js" 18; blob "a.js" 18; blob "package.json" 2] eq_refl I) as [_ H].
  apply (f_equal (List.map (fun t => fst (fst (fst (fst t)))))) in H.
  rewrite !List.map_map in H. cbn [lexical_fields fst] in H.
  etransitivity; [exact H|]. vm_compute. reflexivity.
Defined.

(** X10. Ranking, in either mode, neither drops nor invents nor
    duplicates a file: path, content, byte count, lexical score and tree
    entry of the ranked files are those of the pool, rearranged. *)
Theorem rank_keeps_pool (engine : Engine) (openai : option Embedder) (question : string)
    (scored : list ScoredFile) :
  Permutation (List.map lexical_fields scored)
    (List.map lexical_fields (rank engine openai question scored)) /\
  List.length (rank engine openai question scored) = List.length scored.
Proof.
  pose proof (rank_perm engine openai question scored) as H. split; [exact H|].
  apply Permutation_length in H. rewrite !List.length_map in H. auto.
Qed.

(** ** The byte counter *)

Lemma admit_ranked_total (maxFiles maxBytes : Z) (fs : list ScoredFile) (r : RetrievalResult) :
  totalBytes r = sum_over charged_bytes (files r) ->
  totalBytes (admit_ranked maxFiles maxBytes fs r)
  = sum_over charged_bytes (files (admit_ranked maxFiles maxBytes fs r)).
Proof.
  revert r. induction fs as [|f fs IH]; intros r Hr; cbn [admit_ranked]; auto.
  destruct (maxFiles <=? _); auto. destruct (maxBytes <? _); auto.
  apply IH. cbn [files totalBytes]. rewrite sum_over_app, Hr.
  cbn [sum_over fold_right charged_bytes file_of f_bytes]. lia.
Qed.

Lemma ensure_deps_total (fetch_root : string -> option string) (maxBytes : Z)
    (deps : list string) (r : RetrievalResult) :
  totalBytes r = sum_over charged_bytes (files r) ->
  totalBytes (ensure_deps fetch_root maxBytes deps r)
  = sum_over charged_bytes (files (ensure_deps fetch_root maxBytes deps r)).
Proof.
  revert r. induction deps as [|dep deps IH]; intros r Hr; cbn [ensure_deps]; auto.
  destruct (List.existsb _ (files r)); auto.
  destruct (fetch_root dep) as [content|]; auto.
  destruct (_ <=? _); auto.
  apply IH. cbn [files totalBytes]. rewrite sum_over_app, Hr.
  cbn [sum_over fold_right charged_bytes f_bytes f_content]. lia.
Qed.

(** X11. The reported [totalBytes] is the sum over the returned files of
    what each was charged: its [bytes] field for a ranked file, the UTF-8
    length of its content for a manifest. *)
Theorem totalBytes_is_sum (engine : Engine) (gh : GitHub) (rules : Rules)
    (openai : option Embedder) (opts : Opts) (question : string) :
  let r := fetchRepoTreeAndFiles engine gh rules openai opts question in
  totalBytes r = sum_over charged_bytes (files r).
Proof.
  cbv zeta. unfold fetchRepoTreeAndFiles.
  destruct (gh_repo gh) as [b|]; [|reflexivity].
  destruct (gh_tree gh (default_branch b)) as [tree|]; [|reflexivity].
  cbv zeta. apply ensure_deps_total, admit_ranked_total. reflexivity.
Qed.

(** ** Admission stops at the first file that does not fit *)

Lemma admit_ranked_stop (maxFiles maxBytes : Z) (fs : list ScoredFile) (r : RetrievalResult) :
  exists added rest,
    fs = added ++ rest /\
    files (admit_ranked maxFiles maxBytes fs r) = files r ++ List.map file_of added /\
    totalBytes (admit_ranked maxFiles maxBytes fs r) = totalBytes r + sum_over sf_bytes added /\
    match rest with
    | [] => True
    | f :: _ =>
        maxFiles <= Z.of_nat (List.length (files r) + List.length added) \/
        maxBytes < totalBytes r + sum_over sf_bytes added + sf_bytes f
    end.
Proof.
  revert r. induction fs as [|f fs IH]; intros r; cbn [admit_ranked].
  - exists [], []. cbn [List.map app sum_over fold_right]. rewrite app_nil_r.
    repeat split; auto; lia.
  - destruct (Z.leb_spec maxFiles (Z.of_nat (List.length (files r)))).
    { exists [], (f :: fs). cbn [List.map app sum_over fold_right List.length].
      rewrite app_nil_r. repeat split; auto; [lia|]. left. lia. }
    destruct (Z.ltb_spec maxBytes (totalBytes r + sf_bytes f)).
    { exists [], (f :: fs). cbn [List.map app sum_over fold_right List.length].
      rewrite app_nil_r. repeat split; auto; [lia|]. right. lia. }
    destruct (IH {| files := files r ++ [file_of f]; totalBytes := totalBytes r + sf_bytes f |})
      as (added & rest & -> & Hf & Ht & Hs).
    exists (f :: added), rest. cbn [files totalBytes] in *.
    rewrite Hf, Ht, <- List.app_assoc. cbn [List.map app sum_over fold_right List.length].
    split; [reflexivity|]. split; [reflexivity|]. split; [unfold sum_over; lia|].
    destruct rest as [|g rest]; [exact I|]. rewrite List.length_app in Hs.
    cbn [List.length] in Hs. unfold sum_over in *. destruct Hs as [Hs|Hs]; [left|right]; lia.
Qed.

(** X12. The ranked files of the result are a prefix of the ranking, and
    the prefix ends only where the ranking ends, the file cap is reached, or
    the next file would exceed the byte cap: a later, smaller file is never
    taken in its place. *)
Theorem admission_is_longest_prefix (maxFiles maxBytes : Z) (ranked : list ScoredFile) :
  exists added rest,
    ranked = added ++ rest /\
    files (admit_ranked maxFiles maxBytes ranked empty_result) = List.map file_of added /\
    totalBytes (admit_ranked maxFiles maxBytes ranked empty_result) = sum_over sf_bytes added /\
    match rest with
    | [] => True
    | f :: _ => maxFiles <= Z.of_nat (List.length added) \/
                maxBytes < sum_over sf_bytes added + sf_bytes f
    end.
Proof.
  destruct (admit_ranked_stop maxFiles maxBytes ranked empty_result)
    as (added & rest & E & Hf & Ht & Hs).
  exists added, rest. cbn [empty_result files totalBytes app List.length Nat.add] in *.
  split; [exact E|]. split; [exact Hf|]. split; [lia|].
  destruct rest; [exact I|]. destruct Hs; [left|right]; lia.
Qed.

(** * Manifests, distinct paths and truncation *)

Lemma byteLength_nonneg (s : list ascii) : 0 <= Js.byteLength s.
Proof. induction s as [|c s IH]; cbn [Js.byteLength]; [lia|]. destruct (_ <? _)%N; lia. Qed.

Lemma ensure_deps_mono (fetch_root : string -> option string) (maxBytes : Z)
    (deps : list string) (r : RetrievalResult) :
  totalBytes r <= totalBytes (ensure_deps fetch_root maxBytes deps r).
Proof.
  revert r. induction deps as [|dep deps IH]; intros r; cbn [ensure_deps]; [lia|].
  destruct (List.existsb _ (files r)); auto.
  destruct (fetch_root dep) as [content|]; auto.
  destruct (_ <=? _); auto.
  etransitivity; [|apply IH]. cbn [totalBytes].
  pose proof (byteLength_nonneg (chars content)). unfold byteLength. lia.
Qed.

Lemma ensure_deps_keeps (fetch_root : string -> option string) (maxBytes : Z)
    (deps : list string) (r : RetrievalResult) (f : File) :
  In f (files r) -> In f (files (ensure_deps fetch_root maxBytes deps r)).
Proof.
  intros H. destruct (ensure_deps_frame fetch_root maxBytes deps r) as (extra & -> & _).
  apply in_or_app. auto.
Qed.

Lemma ensure_deps_present (fetch_root : string -> option string) (maxBytes : Z)
    (deps : list string) (r : RetrievalResult) (dep content : string) :
  In dep deps -> fetch_root dep = Some content ->
  totalBytes (ensure_deps fetch_root maxBytes deps r) + byteLength content <= maxBytes ->
  exists f, In f (files (ensure_deps fetch_root maxBytes deps r)) /\ f_path f = dep.
Proof.
  intros Hin Hf. revert r. induction deps as [|d deps IH]; intros r; [destruct Hin|].
  cbn [ensure_deps]. destruct Hin as [->|Hin].
  - destruct (List.existsb _ (files r)) eqn:Ex.
    + intros _. apply existsb_exists in Ex as (ff & Hff & E). apply String.eqb_eq in E.
      exists ff. split; [now apply ensure_deps_keeps|exact E].
    + rewrite Hf.
      destruct (Z.leb_spec (totalBytes r + byteLength content) maxBytes) as [Hle|Hgt].
      * intros _. eexists. split; [apply ensure_deps_keeps|]; cbn [files].
        -- apply in_or_app. right. left. reflexivity.
        -- reflexivity.
      * intros Hb. pose proof (ensure_deps_mono fetch_root maxBytes deps r). lia.
  - destruct (List.existsb _ (files r)); [apply IH, Hin|].
    destruct (fetch_root d) as [c|]; [|apply IH, Hin].
    destruct (_ <=? _); apply IH, Hin.
Qed.

(** X13. A manifest ([package.json], [requirements.txt], [pyproject.toml])
    whose root request returns a non-empty [content] field is part of the
    result whenever the result would still have had room for it within the
    byte cap; the file cap plays no part. *)
Theorem manifest_guarantee (engine : Engine) (gh : GitHub) (rules : Rules)
    (openai : option Embedder) (opts : Opts) (question : string) (b : option string)
    (tree : list TreeEntry) (dep content : string) :
  gh_repo gh = Some b -> gh_tree gh (default_branch b) = Some tree ->
  In dep depFiles -> gh_contents_root gh dep = Some content ->
  let r := fetchRepoTreeAndFiles engine gh rules openai opts question in
  totalBytes r + byteLength content <= maxBytes_of opts ->
  exists f, In f (files r) /\ f_path f = dep.
Proof.
  intros Hb Ht Hd Hc. cbv zeta. unfold fetchRepoTreeAndFiles. rewrite Hb, Ht. cbv zeta.
  now apply ensure_deps_present.
Qed.

Lemma manifest_guarantee_witness :
  exists f, In f (files (fetchRepoTreeAndFiles idle_engine small_repo no_rules None
                           {| o_maxFiles := Some 1; o_maxBytes := None |} "where is auth")) /\
            f_path f = "package.json".
Proof.
  apply (manifest_guarantee idle_engine small_repo no_rules None
           {| o_maxFiles := Some 1; o_maxBytes := None |} "where is auth" (Some "main")
           [blob "src/b.js" 18; blob "a.js" 18; blob "package.json" 2] "package.json" "{}").
  - reflexivity.
  - reflexivity.
  - vm_compute. left. reflexivity.
  - reflexivity.
  - vm_compute. discriminate.
Defined.

(** ** Distinct paths *)

Lemma NoDup_map_filter {A B} (g : A -> B) (p : A -> bool) (l : list A) :
  List.NoDup (List.map g l) -> List.NoDup (List.map g (List.filter p l)).
Proof.
  induction l as [|x l IH]; cbn [List.map List.filter]; [auto|].
  intros H. inversion H as [|? ? Hx Hl]; subst. destruct (p x); cbn [List.map]; auto.
  constructor; auto. intros Hin. apply Hx. apply in_map_iff in Hin as (y & E & Hy).
  apply filter_In in Hy as [Hy _]. apply in_map_iff. eauto.
Qed.

Lemma topCandidates_NoDup (rules : Rules) (tree : list TreeEntry) :
  List.NoDup (List.map t_path tree) -> List.NoDup (List.map t_path (topCandidates rules tree)).
Proof.
  intros H. unfold topCandidates.
  assert (X : List.NoDup (List.map t_path (filteredCandidates rules tree))).
  { unfold filteredCandidates.
    eapply Permutation_NoDup; [apply Permutation_map, sort_by_perm|].
    now apply NoDup_map_filter, NoDup_map_filter. }
  rewrite <- (firstn_skipn 500 (filteredCandidates rules tree)), List.map_app in X.
  apply NoDup_app_remove_r in X. exact X.
Qed.

Lemma pool_NoDup (fetch : string -> option string) (kws : list (list ascii))
    (items : list TreeEntry) :
  List.NoDup (List.map t_path items) ->
  List.NoDup (List.map sf_path (flat_map (scored_candidate fetch kws) items)).
Proof.
  induction items as [|item items IH]; cbn [List.map flat_map]; [auto|].
  intros H. inversion H as [|? ? Hx Hl]; subst. specialize (IH Hl).
  unfold scored_candidate at 1. destruct (fetch (t_path item)) as [c|]; [|exact IH].
  cbn [app List.map scored_of sf_path].
  constructor; [|exact IH]. intros Hin. apply Hx.
  apply in_map_iff in Hin as (g & E & Hg). apply in_flat_map in Hg as (item' & Hi & Hg).
  apply scored_candidate_In in Hg as (c' & _ & ->). cbn [scored_of sf_path] in E.
  rewrite <- E. now apply List.in_map.
Qed.

Lemma rank_paths_perm (engine : Engine) (openai : option Embedder) (question : string)
    (scored : list ScoredFile) :
  Permutation (List.map sf_path scored) (List.map sf_path (rank engine openai question scored)).
Proof.
  pose proof (rank_perm engine openai question scored) as H.
  apply (Permutation_map (fun t : string * string * Z * Z * TreeEntry => fst (fst (fst (fst t))))) in H.
  rewrite !List.map_map in H. exact H.
Qed.

Lemma ensure_deps_NoDup (fetch_root : string -> option string) (maxBytes : Z)
    (deps : list string) (r : RetrievalResult) :
  List.NoDup (List.map f_path (files r)) ->
  List.NoDup (List.map f_path (files (ensure_deps fetch_root maxBytes deps r))).
Proof.
  revert r. induction deps as [|dep deps IH]; intros r Hr; cbn [ensure_deps]; auto.
  destruct (List.existsb _ (files r)) eqn:Ex; auto.
  destruct (fetch_root dep) as [content|]; auto.
  destruct (_ <=? _); auto.
  apply IH. cbn [files]. rewrite List.map_app. cbn [List.map f_path].
  apply List.NoDup_app; [exact Hr|repeat constructor; intros []|].
  intros p Hp [<-|[]]. apply in_map_iff in Hp as (ff & E & Hff).
  assert (X : List.existsb (fun ff => String.eqb (f_path ff) dep) (files r) = true).
  { apply existsb_exists. exists ff. split; auto. now apply String.eqb_eq. }
  congruence.
Qed.

(** X14. When the paths of the repository tree are pairwise distinct, so
    are the paths of the returned files: no file is returned twice, also
    not once as a ranked file and once as a manifest. *)
Theorem result_paths_distinct (engine : Engine) (gh : GitHub) (rules : Rules)
    (openai : option Embedder) (opts : Opts) (question : string) :
  (forall b tree, gh_repo gh = Some b -> gh_tree gh (default_branch b) = Some tree ->
                  List.NoDup (List.map t_path tree)) ->
  List.NoDup (List.map f_path (files (fetchRepoTreeAndFiles engine gh rules openai opts question))).
Proof.
  intros Hnd. unfold fetchRepoTreeAndFiles.
  destruct (gh_repo gh) as [b|] eqn:Hb; [|constructor].
  destruct (gh_tree gh (default_branch b)) as [tree|] eqn:Ht; [|constructor].
  cbv zeta. apply ensure_deps_NoDup.
  set (pool := fst (scoredFiles gh rules opts question (default_branch b) tree)).
  destruct (admit_ranked_prefix (maxFiles_of opts) (maxBytes_of opts)
              (rank engine openai question pool) empty_result) as (added & rest & Hr & ->).
  cbn [empty_result files app]. rewrite List.map_map. cbn [file_of f_path].
  assert (X : List.NoDup (List.map sf_path (rank engine openai question pool))).
  { eapply Permutation_NoDup; [apply rank_paths_perm|].
    subst pool. rewrite scoredFiles_spec. destruct (_ || _); cbn [fst]; [constructor|].
    apply pool_NoDup, topCandidates_NoDup, (Hnd b); auto. }
  rewrite Hr, List.map_app in X. apply NoDup_app_remove_r in X. exact X.
Qed.

Lemma result_paths_distinct_witness :
  List.NoDup (List.map f_path (files (fetchRepoTreeAndFiles idle_engine small_repo no_rules None
                                   {| o_maxFiles := None; o_maxBytes := None |} "where is auth"))).
Proof.
  apply result_paths_distinct. intros b tree Hb Ht.
  injection Ht as <-. cbn [List.map blob t_path].
  repeat constructor; cbn [In]; intros H; repeat destruct H as [H|H]; try discriminate H; exact H.
Defined.

(** * Rules and truncation *)

(** X15. Precedence of the per-repository rules: a source blob is a
    candidate exactly when its path contains a whitelist pattern, or
    contains neither a blacklist pattern nor a built-in vendor or build
    directory; the whitelist wins over both. *)
Theorem rules_precedence (rules : Rules) (tree : list TreeEntry) (t : TreeEntry) :
  In t tree -> is_candidate t = true ->
  (In t (filteredCandidates rules tree) <->
   (exists w, In w (whitelist rules) /\ includes (t_path t) w = true) \/
   ((forall b, In b (blacklist rules) -> includes (t_path t) b = false) /\
    (forall p, In p skipPatterns -> includes (t_path t) p = false))).
Proof.
  intros Ht Hc. unfold filteredCandidates. rewrite sort_by_In, !filter_In.
  assert (Hex : forall l, List.existsb (includes (t_path t)) l = false <->
                          forall p, In p l -> includes (t_path t) p = false).
  { intros l. split.
    - intros H p Hp. destruct (includes (t_path t) p) eqn:E; [|reflexivity].
      rewrite <- H. symmetry. apply existsb_exists. eauto.
    - intros H. destruct (List.existsb _ l) eqn:E; [|reflexivity].
      apply existsb_exists in E as (p & Hp & Hi). rewrite (H p Hp) in Hi. discriminate. }
  unfold passes_rules. split.
  - intros [_ Hp]. destruct (List.existsb _ (whitelist rules)) eqn:Ew.
    + left. apply existsb_exists in Ew as (w & Hw & Hi). eauto.
    + right. destruct (List.existsb _ (blacklist rules)) eqn:Eb; [discriminate|].
      apply negb_true_iff in Hp. split; now apply Hex.
  - intros H. split; [auto|]. destruct (List.existsb _ (whitelist rules)) eqn:Ew; [reflexivity|].
    destruct H as [(w & Hw & Hi)|[Hb Hs]].
    + rewrite Hex in Ew. rewrite (Ew w Hw) in Hi. discriminate.
    + apply Hex in Hb, Hs. now rewrite Hb, Hs.
Qed.

Lemma rules_precedence_witness :
  In (blob "vendor/x.js" 1) (filteredCandidates vendor_rules [blob "vendor/x.js" 1]).
Proof.
  apply (rules_precedence vendor_rules [blob "vendor/x.js" 1] (blob "vendor/x.js" 1)).
  - left. reflexivity.
  - reflexivity.
  - left. exists "vendor/". split; [left; reflexivity|reflexivity].
Defined.

(** ** Truncation *)

Lemma slice0_firstn (n : N) (s : list ascii) : Js.slice0 n s = firstn (N.to_nat n) s.
Proof.
  revert n. induction s as [|c s IH]; intros n; cbn [Js.slice0].
  - now rewrite firstn_nil.
  - destruct (N.eqb_spec n 0) as [->|Hn]; [reflexivity|].
    replace (N.to_nat n) with (S (N.to_nat (N.pred n))) by lia.
    cbn [firstn]. now rewrite IH.
Qed.

Lemma endsWith_app (x m : list ascii) : Js.endsWith (x ++ m) m = true.
Proof. unfold Js.endsWith. rewrite rev_app_distr. apply startsWith_spec. eauto. Qed.

Lemma skipn_length_app {A} (a b : list A) : skipn (List.length a) (a ++ b) = b.
Proof. induction a as [|x a IH]; [reflexivity|exact IH]. Qed.

Lemma remove_first_spec (m s : list ascii) :
  Js.includes s m = true ->
  exists a b, s = a ++ m ++ b /\ Js.remove_first m s = a ++ b.
Proof.
  induction s as [|c s IH]; cbn [Js.includes Js.remove_first].
  - destruct (Js.startsWith m []) eqn:E; [|discriminate]. intros _.
    apply startsWith_spec in E as [t E]. exists [], t. split; [exact E|].
    symmetry in E. apply app_eq_nil in E as [-> ->]. reflexivity.
  - destruct (Js.startsWith m (c :: s)) eqn:E.
    + intros _. apply startsWith_spec in E as [t E]. exists [], t. split; [exact E|].
      rewrite E. apply skipn_length_app.
    + cbn [orb]. intros H. destruct (IH H) as (a & b & -> & Hr).
      exists (c :: a), b. split; [reflexivity|]. cbn [app]. now rewrite Hr.
Qed.

Lemma byteLength_app (a b : list ascii) :
  Js.byteLength (a ++ b) = Js.byteLength a + Js.byteLength b.
Proof. induction a as [|c a IH]; cbn [app Js.byteLength]; [reflexivity|]. rewrite IH. lia. Qed.

Lemma MARKER_length : List.length MARKER = 17%nat.
Proof. reflexivity. Qed.

Lemma MARKER_bytes : Js.byteLength MARKER = 17.
Proof. reflexivity. Qed.

(** X16. A file of more than 100000 characters is returned with
    [truncated = true]; its content has exactly 100000 characters, and its
    [bytes] field, computed before the marker was taken off again, exceeds
    the UTF-8 length of that content by the 17 bytes of the marker. *)
Theorem long_file_truncated (kws : list (list ascii)) (item : TreeEntry) (content : string) :
  100000 < Js.length (chars content) ->
  let f := file_of (scored_of kws item content) in
  f_truncated f = Some true /\
  Js.length (chars (f_content f)) = 100000 /\
  f_bytes f = Some (byteLength (f_content f) + 17).
Proof.
  intros Hlen. cbv zeta. cbn [file_of scored_of f_truncated f_content f_bytes sf_content sf_bytes].
  rewrite chars_str. unfold truncate.
  destruct (Z.ltb_spec 100000 (Js.length (chars content))) as [_|]; [|lia].
  rewrite endsWith_app. split; [reflexivity|].
  set (p := Js.slice0 100000 (chars content)).
  assert (Hp : Z.of_nat (List.length p) = 100000).
  { subst p. rewrite slice0_firstn, List.length_firstn. unfold Js.length in Hlen.
    set (k := N.to_nat 100000).
    assert (Hk : Z.of_nat k = 100000) by (subst k; rewrite N_nat_Z; reflexivity).
    lia. }
  destruct (remove_first_spec MARKER (p ++ MARKER)) as (a & b & E & ->).
  { apply includes_spec. exists p, []. now rewrite app_nil_r. }
  unfold byteLength. rewrite chars_str. split.
  - apply (f_equal (@List.length ascii)) in E. rewrite !List.length_app, MARKER_length in E.
    unfold Js.length. rewrite List.length_app. lia.
  - rewrite E, !byteLength_app, MARKER_bytes. f_equal. lia.
Qed.

Lemma long_file_truncated_witness :
  f_truncated (file_of (scored_of [] (blob "big.js" 100001) long_content)) = Some true.
Proof.
  apply (long_file_truncated [] (blob "big.js" 100001) long_content).
  unfold long_content. rewrite chars_str. unfold Js.length.
  rewrite repeat_length, N_nat_Z. reflexivity.
Defined.

(** X17. A file of at most 100000 characters passes through unchanged,
    with [truncated = false] and [bytes] its UTF-8 length, unless its own
    text ends with the truncation marker: then it is reported as truncated
    and returned without the first occurrence of the marker. *)
Theorem short_file_passes (kws : list (list ascii)) (item : TreeEntry) (content : string) :
  Js.length (chars content) <= 100000 ->
  let f := file_of (scored_of kws item content) in
  f_truncated f = Some (Js.endsWith (chars content) MARKER) /\
  f_bytes f = Some (byteLength content) /\
  (Js.endsWith (chars content) MARKER = false -> f_content f = content) /\
  (Js.endsWith (chars content) MARKER = true ->
   Js.length (chars (f_content f)) = Js.length (chars content) - 17).
Proof.
  intros Hlen. cbv zeta. cbn [file_of scored_of f_truncated f_content f_bytes sf_content sf_bytes].
  rewrite chars_str. unfold truncate.
  destruct (Z.ltb_spec 100000 (Js.length (chars content))) as [|_]; [lia|].
  split; [reflexivity|]. split; [reflexivity|]. split.
  - intros ->. apply str_chars.
  - intros H. rewrite H, chars_str.
    destruct (remove_first_spec MARKER (chars content)) as (a & b & E & ->).
    { unfold Js.endsWith in H. apply startsWith_spec in H as [t H].
      apply (f_equal (@rev ascii)) in H. rewrite rev_involutive, rev_app_distr, rev_involutive in H.
      apply includes_spec. exists (rev t), []. now rewrite app_nil_r. }
    rewrite E. unfold Js.length. rewrite !List.length_app, MARKER_length. lia.
Qed.

Lemma short_file_passes_witness :
  f_content (file_of (scored_of [] (blob "a.js" 18) "function auth() {}")) = "function auth() {}".
Proof.
  destruct (short_file_passes [] (blob "a.js" 18) "function auth() {}") as (_ & _ & H & _).
  - vm_compute. discriminate.
  - apply H. reflexivity.
Defined.

(** * The file-name pattern and the prose scrub *)

Lemma fileLike_rest_no_dot (s : list ascii) : no_dot s = true -> fileLike_rest s = None.
Proof.
  unfold no_dot. induction s as [|c s IH]; [reflexivity|]. cbn [List.forallb fileLike_rest].
  intros H. apply andb_true_iff in H as [Hc H]. apply negb_true_iff in Hc.
  rewrite Hc, (IH H). now destruct (Js.is_pathish c).
Qed.

Lemma fileLike_scan_no_dot (skip : nat) (s : list ascii) :
  no_dot s = true -> fileLike_scan skip s = [].
Proof.
  unfold no_dot. revert skip. induction s as [|c s IH]; intros skip; [reflexivity|].
  cbn [List.forallb fileLike_scan]. intros H. apply andb_true_iff in H as [Hc H].
  destruct skip as [|k]; [|now apply IH].
  unfold fileLike_at. rewrite (fileLike_rest_no_dot s H).
  destruct (Js.is_pathish c); now apply IH.
Qed.

Lemma no_dot_skipn (k : nat) (s : list ascii) : no_dot s = true -> no_dot (skipn k s) = true.
Proof.
  unfold no_dot. revert k. induction s as [|c s IH]; intros [|k] H; auto.
  cbn [skipn]. apply IH. cbn [List.forallb] in H. now apply andb_true_iff in H as [_ H].
Qed.

Lemma fileLike_rest_name (x ext : list ascii) (k : nat) :
  List.forallb Js.is_pathish x = true -> no_dot ext = true ->
  first_alt extAlternatives ext = Some k ->
  fileLike_rest (x ++ "."%char :: ext) = Some (List.length x + S k)%nat.
Proof.
  intros Hx He Hk. induction x as [|c x IH]; cbn [app fileLike_rest List.length Nat.add].
  - change (Js.is_dot ".") with true. change (Js.is_pathish ".") with true.
    now rewrite Hk, (fileLike_rest_no_dot ext He).
  - cbn [List.forallb] in Hx. apply andb_true_iff in Hx as [Hc Hx].
    now rewrite Hc, (IH Hx).
Qed.

Lemma fileLike_scan_skip (a b : list ascii) (m : nat) :
  fileLike_scan (List.length a + m) (a ++ b) = fileLike_scan m b.
Proof. induction a as [|c a IH]; [reflexivity|exact IH]. Qed.

Lemma fileLike_matches_name (stem ext : list ascii) (k : nat) :
  stem <> [] -> List.forallb Js.is_pathish stem = true -> no_dot ext = true ->
  first_alt extAlternatives ext = Some k ->
  fileLike_matches (stem ++ "."%char :: ext) = [stem ++ "."%char :: firstn k ext].
Proof.
  intros Hne Hs He Hk. destruct stem as [|c x]; [congruence|]. clear Hne.
  cbn [List.forallb] in Hs. apply andb_true_iff in Hs as [Hc Hx].
  unfold fileLike_matches. cbn [app fileLike_scan]. unfold fileLike_at.
  rewrite Hc, (fileLike_rest_name x ext k Hx He Hk). cbn [option_map firstn].
  rewrite firstn_app_2. cbn [firstn]. f_equal.
  replace (S (List.length x + S k) - 1)%nat with (List.length x + S k)%nat by lia.
  rewrite fileLike_scan_skip. cbn [fileLike_scan]. now apply fileLike_scan_no_dot.
Qed.

(** X18. The extension group of the file-name pattern takes the first
    alternative that matches, so a name is read only up to that
    alternative: [x.json] is read as [x.js] (likewise [.jsx] as [.js],
    [.tsx] as [.ts], [.cpp], [.cs], [.css] as [.c]).  The token so read is
    reported unknown unless that shorter name is itself a retrieved path,
    even when the full name is one. *)
Theorem file_token_alternation (paths : gset string) (stem ext : list ascii) (k : nat) :
  stem <> [] -> List.forallb Js.is_pathish stem = true -> no_dot ext = true ->
  first_alt extAlternatives ext = Some k ->
  fileLike_matches (stem ++ "."%char :: ext) = [stem ++ "."%char :: firstn k ext] /\
  (has paths (str (stem ++ "."%char :: firstn k ext)) = false ->
   unknown_tokens paths (stem ++ "."%char :: ext) = [stem ++ "."%char :: firstn k ext]).
Proof.
  intros Hne Hs He Hk. pose proof (fileLike_matches_name stem ext k Hne Hs He Hk) as H.
  split; [exact H|]. intros Hp. unfold unknown_tokens. rewrite H.
  cbn [uniq List.filter]. now rewrite Hp.
Qed.

Lemma file_token_alternation_witness :
  unknown_tokens (availablePaths only_manifest) (chars "package.json") = [chars "package.js"].
Proof.
  apply (file_token_alternation _ (chars "package") (chars "json") 2).
  - discriminate.
  - reflexivity.
  - reflexivity.
  - reflexivity.
  - apply bool_decide_eq_false. unfold availablePaths, only_manifest. cbn [files List.map f_path list_to_set].
    rewrite elem_of_union, elem_of_singleton, elem_of_empty. intros [H|[]]. discriminate H.
Defined.

(** ** What the scrub leaves behind *)

(** X19. The scrub never returns an empty answer for a non-empty one:
    the text is kept, or shortened to what remains of it, or replaced by
    the fixed sentence when nothing remains. *)
Theorem scrub_answer_nonempty (paths : gset string) (json w : gmap string Json) :
  scrub paths json = Some w -> nonempty (answer_text json) = true ->
  nonempty (answer_text w) = true.
Proof.
  unfold scrub. intros H Hne. rewrite Hne in H.
  destruct (negb (is_nil (unknown_tokens paths (chars (answer_text json))))).
  2:{ injection H as <-. exact Hne. }
  set (N := scrubbed_text paths _ _) in *.
  destruct (_ !! "missing") as [[| | | |m|]|]; try discriminate. injection H as <-.
  rewrite answer_text_or_reason, answer_text_other, answer_text_insert by discriminate.
  destruct (is_nil N) eqn:E; [reflexivity|]. now apply str_nil_iff.
Qed.

Lemma scrub_answer_nonempty_witness :
  exists w, scrub (availablePaths one_file) hallucinated_answer = Some w /\
            nonempty (answer_text w) = true.
Proof.
  destruct (scrub (availablePaths one_file) hallucinated_answer) as [w|] eqn:E.
  - exists w. split; [reflexivity|].
    apply (scrub_answer_nonempty (availablePaths one_file) hallucinated_answer w E).
    reflexivity.
  - exfalso. destruct (scrub_total (availablePaths one_file) hallucinated_answer) as [j Hj].
    + reflexivity.
    + rewrite Hj in E. discriminate.
Defined.

Lemma fold_add_missing_prefix (adds : list string) (missing : list Json) :
  exists extra, fold_left add_missing adds missing = missing ++ extra.
Proof.
  revert missing. induction adds as [|a adds IH]; intros missing; cbn [fold_left].
  - exists []. now rewrite app_nil_r.
  - destruct (IH (add_missing missing a)) as [extra ->]. unfold add_missing.
    destruct (List.existsb (is_str a) missing); [eauto|].
    exists ([JStr a] ++ extra). now rewrite List.app_assoc.
Qed.

(** X20. The scrub only appends to [missing]: the entries it found stay,
    in their order, and afterwards the list holds, for every file-like
    token of the answer that is not a retrieved path, that token without
    its extension. *)
Theorem scrub_missing_grows (paths : gset string) (json w : gmap string Json) (m : list Json) :
  scrub paths json = Some w -> json !! "missing" = Some (JArr m) ->
  exists extra,
    w !! "missing" = Some (JArr (m ++ extra)) /\
    forall u, In u (unknown_tokens paths (chars (answer_text json))) ->
              List.existsb (is_str (str (strip_ext u))) (m ++ extra) = true.
Proof.
  unfold scrub. intros H Hm.
  destruct (nonempty (answer_text json)) eqn:Hne.
  2:{ injection H as <-. exists []. rewrite app_nil_r. split; [exact Hm|].
      unfold nonempty in Hne. apply negb_false_iff, String.eqb_eq in Hne. rewrite Hne.
      intros u []. }
  set (U := unknown_tokens paths (chars (answer_text json))) in *.
  destruct (is_nil U) eqn:HU; cbn [negb] in H.
  { injection H as <-. exists []. rewrite app_nil_r. split; [exact Hm|].
    destruct U; [intros u []|discriminate]. }
  set (N := scrubbed_text paths U (chars (answer_text json))) in *.
  rewrite lookup_insert_ne in H by discriminate.
  assert (E : (if is_nil N then <["cannot_answer" := JBool false]> json else json) !! "missing"
              = Some (JArr m)).
  { destruct (is_nil N); [|exact Hm]. now rewrite lookup_insert_ne by discriminate. }
  rewrite E in H. injection H as <-.
  destruct (fold_add_missing_prefix (List.map (fun u => str (strip_ext u)) U) m) as [extra Hx].
  exists extra. rewrite or_reason_other by discriminate. rewrite lookup_insert_eq, Hx.
  split; [reflexivity|]. intros u Hu. rewrite <- Hx. apply fold_add_missing_has.
  apply in_map_iff. eauto.
Qed.

Lemma scrub_missing_grows_witness :
  exists w extra, scrub (availablePaths one_file) hallucinated_answer = Some w /\
                  w !! "missing" = Some (JArr ([] ++ extra)).
Proof.
  destruct (scrub (availablePaths one_file) hallucinated_answer) as [w|] eqn:E.
  - destruct (scrub_missing_grows (availablePaths one_file) hallucinated_answer w [] E)
      as (extra & H & _).
    + reflexivity.
    + exists w, extra. split; [reflexivity|exact H].
  - exfalso. destruct (scrub_total (availablePaths one_file) hallucinated_answer) as [j Hj].
    + reflexivity.
    + rewrite Hj in E. discriminate.
Defined.

(** * The validator and the handler *)

Lemma firstn_min_length {A} (n : nat) (l : list A) :
  firstn (Nat.min n (List.length l)) l = firstn n l.
Proof.
  destruct (Nat.le_ge_cases n (List.length l)) as [H|H].
  - now rewrite Nat.min_l.
  - rewrite Nat.min_r by exact H. now rewrite !firstn_all2 by lia.
Qed.

(** What the validator answers with when it does not refuse. *)
Lemma validateAnswer_carries_on (fd : RetrievalResult) (json : gmap string Json) :
  files fd <> [] -> is_true (json !! "cannot_answer") = false ->
  exists w, validateAnswer fd json = ResultEvent w /\
            w !! "sources" = Some (JArr (final_sources fd json)) /\
            w !! "references" = prepared fd json !! "references" /\
            w !! "cannot_answer" = Some (JBool false).
Proof.
  intros Hf Hc.
  destruct (validateAnswer_cases fd json Hf) as [[Hc' _]|[_ (w & Hw & E)]]; [congruence|].
  exists w. split; [exact E|].
  rewrite !(scrub_other _ _ _ _ Hw), !carry_on_other by discriminate.
  split; [apply prepared_sources|]. split; [reflexivity|].
  apply (scrub_cannot_answer _ _ _ Hw). unfold carry_on.
  rewrite or_reason_other by discriminate. now rewrite lookup_insert_eq.
Qed.

(** X21. When the model did not refuse and none of its sources is a
    retrieved path, the answer's [sources] are the first five retrieved
    paths (all of them when there are fewer), in retrieval order. *)
Theorem sources_backfill (fd : RetrievalResult) (json : gmap string Json) :
  files fd <> [] -> is_true (json !! "cannot_answer") = false ->
  grounded_sources fd json = [] ->
  exists w, validateAnswer fd json = ResultEvent w /\
            w !! "sources" = Some (JArr (List.map JStr (firstn 5 (allFetched fd)))).
Proof.
  intros Hf Hc Hg. destruct (validateAnswer_carries_on fd json Hf Hc) as (w & E & Hs & _).
  exists w. split; [exact E|]. rewrite Hs. unfold final_sources. rewrite Hg, Hc.
  unfold allFetched. destruct (files fd) as [|f fs]; [congruence|].
  cbn [is_nil List.map negb andb]. now rewrite firstn_min_length.
Qed.

Lemma sources_backfill_witness :
  exists w, validateAnswer one_file ∅ = ResultEvent w /\
            w !! "sources" = Some (JArr [JStr "main.js"]).
Proof.
  destruct (sources_backfill one_file ∅) as (w & E & H).
  - discriminate.
  - reflexivity.
  - reflexivity.
  - exists w. split; [exact E|exact H].
Defined.

Lemma prepared_references_backfilled (fd : RetrievalResult) (json : gmap string Json) :
  is_true (json !! "cannot_answer") = false -> grounded_references fd json = [] ->
  forall s ss, final_sources fd json = s :: ss ->
  exists first,
    List.find (is_path (Some s)) (files fd) = Some first /\
    prepared fd json !! "references"
    = Some (JArr [JObj (<["path" := JStr (f_path first)]>
                        (<["excerpt" := JStr (slice0 300 (f_content first))]> ∅))]).
Proof.
  intros Hca Er s ss Es. unfold prepared. set (bs := backfill_sources _ _).
  assert (Hr : bs !! "references" = Some (JArr (grounded_references fd json))).
  { unfold bs. rewrite backfill_sources_other by discriminate. apply ground_references. }
  assert (Hs : bs !! "sources" = Some (JArr (final_sources fd json))).
  { pose proof (prepared_sources fd json) as H. unfold prepared in H.
    now rewrite backfill_reference_other in H by discriminate. }
  assert (Hc : bs !! "cannot_answer" = json !! "cannot_answer").
  { unfold bs. rewrite backfill_sources_other, ground_other, normalize_other; auto; discriminate. }
  unfold backfill_reference. rewrite Hr, Hs, Hc, Er, Es, Hca.
  cbn [elements is_nil negb andb List.hd_error app].
  pose proof (final_sources_ok fd json) as Gs. rewrite Es in Gs.
  inversion Gs as [|? ? [p [-> Hp]] _]; subst.
  destruct (find_is_path fd p Hp) as (f & Hfind & Hfp). rewrite Hfind.
  exists f. split; [reflexivity|]. now rewrite lookup_insert_eq.
Qed.

(** X22. When the model did not refuse and none of its references names
    a retrieved path, the answer carries exactly one reference: the first
    retrieved file whose path is the first source, with the first 300
    characters of its content as the excerpt. *)
Theorem reference_backfill (fd : RetrievalResult) (json : gmap string Json) :
  files fd <> [] -> is_true (json !! "cannot_answer") = false ->
  grounded_references fd json = [] ->
  exists w p first,
    validateAnswer fd json = ResultEvent w /\
    List.hd_error (final_sources fd json) = Some (JStr p) /\
    List.find (fun f => String.eqb (f_path f) p) (files fd) = Some first /\
    w !! "references"
    = Some (JArr [JObj (<["path" := JStr (f_path first)]>
                        (<["excerpt" := JStr (slice0 300 (f_content first))]> ∅))]).
Proof.
  intros Hf Hc Hg. destruct (validateAnswer_carries_on fd json Hf Hc) as (w & E & _ & Hr & _).
  destruct (final_sources fd json) as [|s ss] eqn:Es.
  { exfalso. unfold final_sources in Es. rewrite Hc in Es. unfold allFetched in Es.
    destruct (files fd) as [|f fs]; [congruence|].
    destruct (grounded_sources fd json) as [|g gs]; discriminate. }
  pose proof (final_sources_ok fd json) as Gs. rewrite Es in Gs.
  inversion Gs as [|? ? [p [-> Hp]] _]; subst.
  destruct (prepared_references_backfilled fd json Hc Hg (JStr p) ss Es) as (first & Hfind & Hp').
  exists w, p, first. split; [exact E|]. split; [reflexivity|]. split; [exact Hfind|].
  now rewrite Hr.
Qed.

Lemma reference_backfill_witness :
  exists w first, validateAnswer one_file ∅ = ResultEvent w /\
    w !! "references"
    = Some (JArr [JObj (<["path" := JStr (f_path first)]>
                        (<["excerpt" := JStr (slice0 300 (f_content first))]> ∅))]).
Proof.
  destruct (reference_backfill one_file ∅) as (w & p & first & E & _ & _ & H).
  - discriminate.
  - reflexivity.
  - reflexivity.
  - exists w, first. split; [exact E|exact H].
Defined.

(** X23. For a non-empty retrieval the validator refuses exactly when the
    model itself set [cannot_answer] to [true]: the other test of the final
    [if], empty references with a blank answer, cannot fire, because the
    back-fills leave at least one reference. *)
Theorem refusal_only_on_request (fd : RetrievalResult) (json : gmap string Json) :
  files fd <> [] ->
  exists w,
    validateAnswer fd json = ResultEvent w /\
    (w !! "cannot_answer" = Some (JBool true) <-> json !! "cannot_answer" = Some (JBool true)) /\
    (json !! "cannot_answer" <> Some (JBool true) ->
     exists r refs, w !! "references" = Some (JArr (r :: refs))).
Proof.
  intros Hf. destruct (is_true (json !! "cannot_answer")) eqn:Hc.
  - destruct (validateAnswer_cases fd json Hf) as [[_ E]|[Hc' _]]; [|congruence].
    exists (refuse (prepared fd json)). split; [exact E|].
    apply is_true_spec in Hc. split; [|congruence]. split; [auto|]. intros _.
    unfold refuse. rewrite or_reason_other by discriminate.
    rewrite !lookup_insert_ne by discriminate. now rewrite lookup_insert_eq.
  - destruct (validateAnswer_carries_on fd json Hf Hc) as (w & E & _ & Hr & Hca).
    exists w. split; [exact E|].
    assert (Hn : json !! "cannot_answer" <> Some (JBool true)).
    { intros H. apply is_true_spec in H. congruence. }
    split; [split; congruence|]. intros _.
    destruct (prepared_references fd json) as (refs & Hp & _ & Hne).
    specialize (Hne Hf Hc). destruct refs as [|r refs]; [congruence|].
    exists r, refs. now rewrite Hr.
Qed.

Lemma refusal_only_on_request_witness :
  exists w, validateAnswer one_file ungrounded_answer = ResultEvent w /\
            (w !! "cannot_answer" = Some (JBool true) <->
             ungrounded_answer !! "cannot_answer" = Some (JBool true)).
Proof.
  destruct (refusal_only_on_request one_file ungrounded_answer) as (w & E & H & _).
  - discriminate.
  - exists w. split; [exact E|exact H].
Defined.

(** ** The handler *)

Lemma validateAnswer_grounded (fd : RetrievalResult) (json w : gmap string Json) :
  files fd <> [] -> validateAnswer fd json = ResultEvent w ->
  exists srcs refs,
    w !! "sources" = Some (JArr srcs) /\ Forall (path_grounded fd) srcs /\
    w !! "references" = Some (JArr refs) /\ Forall (reference_grounded fd) refs.
Proof.
  intros Hf E.
  destruct (prepared_references fd json) as (refs & Hr & Gr & _).
  destruct (validateAnswer_cases fd json Hf) as [[_ E']|[_ (w' & Hw & E')]];
    rewrite E' in E; injection E as <-.
  - exists (final_sources fd json), []. rewrite refuse_other by discriminate.
    split; [apply prepared_sources|]. split; [apply final_sources_ok|].
    split; [|constructor]. unfold refuse. rewrite or_reason_other by discriminate.
    rewrite !lookup_insert_ne by discriminate. now rewrite lookup_insert_eq.
  - exists (final_sources fd json), refs.
    rewrite !(scrub_other _ _ _ _ Hw), !carry_on_other by discriminate.
    split; [apply prepared_sources|]. split; [apply final_sources_ok|]. auto.
Qed.

Lemma validateAnswer_not_array (fd : RetrievalResult) (json : gmap string Json)
    (elements : list Json) :
  validateAnswer fd json <> ArrayResultEvent elements.
Proof.
  unfold validateAnswer. destruct (refuses _) as [[|]|]; try discriminate.
  destruct (scrub _ _); discriminate.
Qed.

(** X24. Whatever the model returns, a [result] event of the walkthrough
    handler carries one of three things: the fixed no-files object, when
    nothing was retrieved; an object whose [sources] are retrieved paths and
    whose [references] each name one; or, when the model's JSON was an
    array, that array as the model gave it, without [sources] or
    [references].  The last two are only sent for a non-empty retrieval and
    a configured model client. *)
Theorem walkthrough_result_grounded (JSON_parse : string -> option Json) (engine : Engine)
    (gh : GitHub) (rules : Rules) (openai : option OpenAI) (question : string) (ev : Event) :
  walkthrough JSON_parse engine gh rules openai question = Stream ev ->
  let fd :=
    fetchRepoTreeAndFiles engine gh rules (openai ≫= embeddings) walkthrough_opts question in
  match ev with
  | ResultEvent w =>
      (files fd = [] /\ w = no_files_walkthrough) \/
      (files fd <> [] /\ openai <> None /\
       exists srcs refs,
         w !! "sources" = Some (JArr srcs) /\ Forall (path_grounded fd) srcs /\
         w !! "references" = Some (JArr refs) /\ Forall (reference_grounded fd) refs)
  | ArrayResultEvent elements =>
      files fd <> [] /\
      exists client text,
        openai = Some client /\ complete client question (files fd) = Some text /\
        parse_response JSON_parse text = Some (JArr elements)
  | ErrorEvent _ => True
  end.
Proof.
  intros H. cbv zeta. unfold walkthrough in H.
  set (fd := fetchRepoTreeAndFiles engine gh rules (openai ≫= embeddings) walkthrough_opts
               question) in *.
  destruct (negb (nonempty question)); [discriminate|].
  destruct (files fd) as [|f fs] eqn:Hf; cbn [is_nil] in H.
  { injection H as <-. left. split; reflexivity. }
  assert (Hne : files fd <> []) by (rewrite Hf; discriminate).
  destruct openai as [client|]; [|injection H as <-; exact I].
  destruct (complete client question (f :: fs)) as [text|] eqn:Hc; [|injection H as <-; exact I].
  destruct (parse_response JSON_parse text) as [j|] eqn:Hp; [|injection H as <-; exact I].
  destruct (negb (truthy (Some j))); [injection H as <-; exact I|].
  destruct j as [| | | |elements|json];
    [injection H as <-; exact I | injection H as <-; exact I | injection H as <-; exact I
    | injection H as <-; exact I | injection H as H | injection H as H].
  - (* an array *)
    unfold validateArray in H. destruct (validateAnswer fd ∅) as [w| l |e] eqn:E.
    + subst ev. split; [discriminate|]. exists client, text. auto.
    + destruct (validateAnswer_not_array _ _ _ E).
    + subst ev. exact I.
  - (* an object *)
    destruct ev as [w|l|e]; [| |exact I].
    + right. split; [discriminate|]. split; [discriminate|].
      exact (validateAnswer_grounded fd json w Hne H).
    + destruct (validateAnswer_not_array _ _ _ H).
Qed.

Lemma walkthrough_result_grounded_witness :
  let fd := fetchRepoTreeAndFiles idle_engine small_repo no_rules None walkthrough_opts
              "where is auth" in
  exists w srcs refs,
    walkthrough (fun _ => Some (JObj ∅)) idle_engine small_repo no_rules (Some chatty_client)
      "where is auth" = Stream (ResultEvent w) /\
    w !! "sources" = Some (JArr srcs) /\ Forall (path_grounded fd) srcs /\
    w !! "references" = Some (JArr refs) /\ Forall (reference_grounded fd) refs.
Proof.
  intros fd.
  assert (Hfd : files fd <> []) by (vm_compute; discriminate).
  destruct (validateAnswer_cases fd ∅ Hfd) as [[Hc _]|[_ (w & _ & E)]].
  { rewrite lookup_empty in Hc. discriminate. }
  assert (Hw : walkthrough (fun _ => Some (JObj ∅)) idle_engine small_repo no_rules
                 (Some chatty_client) "where is auth" = Stream (ResultEvent w)).
  { unfold walkthrough. change (nonempty "where is auth") with true. cbn [negb].
    change (fetchRepoTreeAndFiles idle_engine small_repo no_rules
              (Some chatty_client ≫= embeddings) walkthrough_opts "where is auth") with fd.
    destruct (files fd) as [|f fs]; [congruence|]. cbn [is_nil complete chatty_client].
    cbn [parse_response truthy negb]. now rewrite E. }
  pose proof (walkthrough_result_grounded _ _ _ _ _ _ _ Hw) as H. cbv zeta in H.
  change (fetchRepoTreeAndFiles idle_engine small_repo no_rules
            (Some chatty_client ≫= embeddings) walkthrough_opts "where is auth") with fd in H.
  destruct H as [[H _]|(_ & _ & srcs & refs & H)]; [congruence|].
  exists w, srcs, refs. split; [exact Hw|exact H].
Defined.

(** ** Recovery of JSON wrapped in prose *)

Lemma indexOf_first (d : ascii -> bool) (pre : list ascii) (c : ascii) (rest : list ascii) :
  List.forallb (fun x => negb (d x)) pre = true -> d c = true ->
  Js.indexOf d (pre ++ c :: rest) = Some (List.length pre).
Proof.
  intros Hp Hc. induction pre as [|a pre IH]; cbn [app Js.indexOf List.length].
  - now rewrite Hc.
  - cbn [List.forallb] in Hp. apply andb_true_iff in Hp as [Ha Hp].
    apply negb_true_iff in Ha. now rewrite Ha, (IH Hp).
Qed.

Lemma indexOf_none (d : ascii -> bool) (s : list ascii) :
  List.forallb (fun x => negb (d x)) s = true -> Js.indexOf d s = None.
Proof.
  induction s as [|a s IH]; [reflexivity|]. cbn [List.forallb Js.indexOf].
  intros H. apply andb_true_iff in H as [Ha H]. apply negb_true_iff in Ha.
  now rewrite Ha, (IH H).
Qed.

(** X25. When the model's text is not JSON as a whole, the handler parses
    the span from the first opening brace to the last closing brace, prose
    before and after it dropped; without an opening brace nothing is
    parsed. *)
Theorem parse_response_recovers (JSON_parse : string -> option Json)
    (pre mid post : list ascii) :
  let text := str (pre ++ "{"%char :: mid ++ "}"%char :: post) in
  JSON_parse text = None ->
  List.forallb (fun c => negb (is_lbrace c)) pre = true ->
  List.forallb (fun c => negb (is_rbrace c)) post = true ->
  parse_response JSON_parse text = JSON_parse (str ("{"%char :: mid ++ ["}"%char])) /\
  (JSON_parse (str pre) = None -> parse_response JSON_parse (str pre) = None).
Proof.
  intros text Hfail Hpre Hpost. split.
  - unfold parse_response. rewrite Hfail. subst text. rewrite chars_str.
    rewrite (indexOf_first is_lbrace pre "{" _ Hpre eq_refl).
    unfold Js.lastIndexOf.
    change (pre ++ "{"%char :: mid ++ "}"%char :: post)
      with (pre ++ ("{"%char :: mid) ++ "}"%char :: post).
    rewrite List.app_assoc. set (A := pre ++ "{"%char :: mid).
    rewrite rev_app_distr. cbn [rev]. rewrite <- List.app_assoc. cbn [app].
    rewrite (indexOf_first is_rbrace (rev post) "}" (rev A)); [|now rewrite forallb_rev|reflexivity].
    cbn [option_map]. unfold slice_incl. rewrite chars_str.
    rewrite List.length_rev, List.length_app. cbn [List.length].
    replace (S (List.length A + S (List.length post) - 1 - List.length post))
      with (List.length A + 1)%nat by lia.
    rewrite firstn_app_2. cbn [firstn]. subst A. rewrite <- List.app_assoc.
    rewrite skipn_length_app. reflexivity.
  - intros Hp. unfold parse_response. rewrite Hp, chars_str.
    now rewrite (indexOf_none is_lbrace pre Hpre).
Qed.

Lemma parse_response_recovers_witness :
  parse_response parse_empty_object "Sure: {} Done." = Some (JObj ∅).
Proof.
  apply (parse_response_recovers parse_empty_object (chars "Sure: ") [] (chars " Done.")).
  - reflexivity.
  - reflexivity.
  - reflexivity.
Defined.
